(** * Three-point shot simulation: [ThreesModel.run_threes_model]

    A shallow embedding of [src/model/models/threes.py].  The routine is a
    single Python function that glues together pandas tables, a scikit-learn
    Gaussian mixture and numpy's global random generator.  The embedding
    keeps that shape:

    - float64 values are exact rationals extended with the IEEE specials
      ([Float]); rounding and the sign of zero are abstracted away;
    - pandas tables are lists of rows carrying their index label
      ([Pandas]);
    - numpy's global generator, the mixture model and the cross-validated
      scorer are interfaces ([NumpyRandom], [GaussianMixture],
      [MixtureLibrary]) whose operations thread an abstract generator
      state;
    - raised exceptions and the generator state are threaded by a small
      state-and-error monad ([M]); every library call is also logged so
      that "this call is never made" can be stated. *)

From Stdlib Require Import QArith Qreduction Qround ZArith List Lia Lqa Bool Arith.
From Stdlib Require Import Sorted Permutation.
From Stdlib Require String Qcanon OrderedTypeEx.
Import String.StringSyntax Ascii.AsciiSyntax.
Import ListNotations.

Definition string : Set := String.string.
Delimit Scope string_scope with string.
Delimit Scope char_scope with char.

Set Implicit Arguments.

(* ================================================================= *)
(** * float64 values *)

Module Float.

(** A float64: a finite value (kept in lowest terms), an infinity or NaN.
    Arithmetic on finite values is exact: rounding to 53 bits is not
    modelled.  Statements about the domain checks of the draws therefore
    take the computed values as they are and derive nothing from the
    arithmetic that produced them. *)
Inductive float : Type :=
| Num (q : Q)
| PInf
| NInf
| NaN.

Definition of_Z (z : Z) : float := Num (inject_Z z).
Definition of_nat (n : nat) : float := of_Z (Z.of_nat n).

Definition is_finite (x : float) : bool :=
  match x with Num _ => true | _ => false end.

Definition Qzerob (q : Q) : bool := (Qnum q =? 0)%Z.
Definition Qnegb (q : Q) : bool := (Qnum q <? 0)%Z.

(** Signed infinity: [inf true] is [-inf]. *)
Definition inf (negative : bool) : float := if negative then NInf else PInf.

Definition fneg (x : float) : float :=
  match x with
  | Num q => Num (Qred (- q))
  | PInf => NInf
  | NInf => PInf
  | NaN => NaN
  end.

Definition fadd (x y : float) : float :=
  match x, y with
  | NaN, _ | _, NaN => NaN
  | Num a, Num b => Num (Qred (a + b))
  | PInf, NInf | NInf, PInf => NaN
  | PInf, _ | _, PInf => PInf
  | NInf, _ | _, NInf => NInf
  end.

Definition fsub (x y : float) : float := fadd x (fneg y).

(** [inf * 0] is NaN; otherwise the signs multiply. *)
Definition fmul_inf (negative : bool) (q : Q) : float :=
  if Qzerob q then NaN else inf (xorb negative (Qnegb q)).

Definition fmul (x y : float) : float :=
  match x, y with
  | NaN, _ | _, NaN => NaN
  | Num a, Num b => Num (Qred (a * b))
  | PInf, Num b => fmul_inf false b
  | NInf, Num b => fmul_inf true b
  | Num a, PInf => fmul_inf false a
  | Num a, NInf => fmul_inf true a
  | PInf, PInf | NInf, NInf => PInf
  | PInf, NInf | NInf, PInf => NInf
  end.

(** numpy's true division: [0/0] is NaN, [x/0] an infinity, no exception. *)
Definition fdiv (x y : float) : float :=
  match x, y with
  | NaN, _ | _, NaN => NaN
  | Num a, Num b =>
      if Qzerob b
      then (if Qzerob a then NaN else inf (Qnegb a))
      else Num (Qred (a / b))
  | Num _, (PInf | NInf) => Num 0
  | PInf, Num b => inf (Qnegb b)
  | NInf, Num b => inf (negb (Qnegb b))
  | (PInf | NInf), (PInf | NInf) => NaN
  end.

(** [x <= y]; any comparison with NaN is false. *)
Definition fle (x y : float) : bool :=
  match x, y with
  | NaN, _ | _, NaN => false
  | Num a, Num b => Qle_bool a b
  | NInf, _ | _, PInf => true
  | PInf, _ | _, NInf => false
  end.

Definition flt (x y : float) : bool :=
  match x, y with
  | NaN, _ | _, NaN => false
  | _, _ => negb (fle y x)
  end.

Definition fsum (l : list float) : float := fold_right fadd (Num 0) l.

(** [ndarray.mean] / [np.mean]: the mean of no values is NaN. *)
Definition fmean (l : list float) : float :=
  fdiv (fsum l) (of_nat (length l)).

(** Inner product of two vectors of equal length. *)
Fixpoint fdot (u v : list float) : float :=
  match u, v with
  | a :: u', b :: v' => fadd (fmul a b) (fdot u' v')
  | _, _ => Num 0
  end.

(** The membership vector of a point that lies in zone [z] for sure. *)
Definition one_hot (K z : nat) : list float :=
  map (fun k => if Nat.eqb k z then Num 1 else Num 0) (seq 0 K).

(** A number in the closed unit interval. *)
Definition in_unit (x : float) : Prop :=
  match x with Num q => 0 <= q <= 1 | _ => False end.

Definition in_unitb (x : float) : bool := fle (Num 0) x && fle x (Num 1).

End Float.
Import Float.

Close Scope Q_scope.
Open Scope nat_scope.

(* ================================================================= *)
(** * Exceptions *)

(** Every exception the routine can raise past its data fetch is a Python
    [ValueError]; the constructors name the library check that raises it. *)
Inductive ValueError : Type :=
| OperandsNotBroadcastable   (* ndarray * Series of incompatible lengths *)
| ShapesNotAligned           (* np.dot of a vector and a matrix *)
| EmptyPopulation            (* np.random.choice: empty a, samples wanted *)
| ScaleNegative              (* np.random.normal: scale < 0 *)
| LamOutOfDomain             (* np.random.poisson: lam < 0, NaN or too large *)
| InvalidNSamples            (* GaussianMixture.sample: n_samples < 1 *)
| ProbOutOfDomain            (* np.random.binomial: p < 0, p > 1 or NaN *)
| VectorizeSizeZero          (* np.vectorize on size-0 input without otypes *)
| FitFailed                  (* GaussianMixture.fit rejects the training set *)
| SplitsExceedSamples.       (* KFold: n_splits greater than the number of samples *)

(* ================================================================= *)
(** * pandas tables *)

Module Pandas.

(** One row of [cluster_df], of [league_df] or of [opponent_df], reduced
    to the two columns the tables are built from: the zone predicted by
    the mixture and the made flag (0/1 in the data, a boolean here). *)
Record labelled_shot : Type := mk_shot {
  cluster : nat;
  shot_made : bool
}.

(** A float Series: values paired with their index labels, in storage
    order. *)
Definition Series : Type := list (nat * float).

Definition values (s : Series) : list float := map snd s.

Definition count_flag (flag : bool) (c : nat) (df : list labelled_shot) : nat :=
  length (filter (fun r => (cluster r =? c) && Bool.eqb (shot_made r) flag) df).

Definition count_made : nat -> list labelled_shot -> nat := count_flag true.
Definition count_missed : nat -> list labelled_shot -> nat := count_flag false.
Definition count_total (c : nat) (df : list labelled_shot) : nat :=
  count_made c df + count_missed c df.

(** A row of [groupby('cluster')[flag].value_counts(normalize=True)]
    after [reset_index]: group key, flag value, fraction of the group. *)
Record vc_row : Type := mk_row {
  vc_cluster : nat;
  vc_flag : bool;
  fg_percent : float
}.

(** The rows of one group.  A flag value that does not occur in the group
    has no row.  Within the group the rows are ordered by decreasing
    fraction; the sort is stable over the sorted flag values, so a tie
    leaves the missed row first. *)
Definition group_value_counts (df : list labelled_shot) (c : nat) : list vc_row :=
  let made := count_made c df in
  let missed := count_missed c df in
  let fraction n := fdiv (of_nat n) (of_nat (made + missed)) in
  let made_row := mk_row c true (fraction made) in
  let missed_row := mk_row c false (fraction missed) in
  match made, missed with
  | O, O => []
  | O, S _ => [missed_row]
  | S _, O => [made_row]
  | S _, S _ => if missed <? made then [made_row; missed_row]
                else [missed_row; made_row]
  end.

(** One past the largest group key. *)
Definition key_bound (df : list labelled_shot) : nat :=
  fold_right (fun r b => Nat.max (S (cluster r)) b) 0 df.

(** [df.groupby('cluster')[flag].value_counts(normalize=True)]: groups in
    increasing key order, a key without rows yields nothing. *)
Definition value_counts_normalize (df : list labelled_shot) : list vc_row :=
  flat_map (group_value_counts df) (seq 0 (key_bound df)).

(** [reset_index()]: the rows are labelled 0, 1, 2, ... by position. *)
Definition reset_index (rows : list vc_row) : list (nat * vc_row) :=
  combine (seq 0 (length rows)) rows.

(** [t.loc[t[flag] == 1]]: the made rows, each keeping its label. *)
Definition made_rows (df : list labelled_shot) : list (nat * vc_row) :=
  filter (fun lr => vc_flag (snd lr)) (reset_index (value_counts_normalize df)).

(** Lines 82-83 (and 86-87, 90-91): the Series [..._fg_percent_by_cluster]
    that is left after dropping the flag column and selecting
    ['fg_percent'].  Its index is the surviving row labels. *)
Definition fg_percent_by_cluster (df : list labelled_shot) : Series :=
  map (fun lr => (fst lr, fg_percent (snd lr))) (made_rows df).

Definition lookup (l : nat) (s : Series) : option float :=
  option_map snd (find (fun e => fst e =? l) s).

Definition has_label (l : nat) (s : Series) : bool :=
  existsb (fun e => fst e =? l) s.

Definition label_bound (s : Series) : nat :=
  fold_right (fun e b => Nat.max (S (fst e)) b) 0 s.

(** The outer join of two increasing indexes: the sorted union of their
    labels (the index itself when both coincide). *)
Definition union_index (a b : Series) : list nat :=
  filter (fun l => has_label l a || has_label l b)
         (seq 0 (Nat.max (label_bound a) (label_bound b))).

(** [a / b] on two Series: operands are aligned on their index labels and
    a label missing on either side gives NaN. *)
Definition series_div (a b : Series) : Series :=
  map (fun l =>
         (l, match lookup l a, lookup l b with
             | Some x, Some y => fdiv x y
             | _, _ => NaN
             end))
      (union_index a b).

(** [v * s] with [v] an ndarray and [s] a Series: positional, with numpy
    broadcasting of a one-element [v]; the result keeps the index of [s]. *)
Definition ndarray_mul_series (v : list float) (s : Series)
  : ValueError + Series :=
  if length v =? length s
  then inr (map (fun xe => (fst (snd xe), fmul (fst xe) (snd (snd xe))))
                (combine v s))
  else match v with
       | [x] => inr (map (fun e => (fst e, fmul x (snd e))) s)
       | _ => inl OperandsNotBroadcastable
       end.

(** [np.dot(w, proba.T)] for [w] of length [m] and [proba] of shape
    (n, K): defined when [m = K], one inner product per row of [proba]. *)
Definition np_dot (w : list float) (K : nat) (proba : list (list float))
  : ValueError + list float :=
  if length w =? K then inr (map (fdot w) proba) else inl ShapesNotAligned.

End Pandas.
Import Pandas.

(* ================================================================= *)
(** * Library interfaces *)

(** A court coordinate [(LOC_X, LOC_Y)]. *)
Definition point : Type := (float * float)%type.

(** The covariance families of sklearn's [GaussianMixture]. *)
Inductive covariance : Type := spherical | tied | diag | full.

(** What [GaussianMixture.fit] learns.  The estimator is built with
    [random_state=0], so every [sample] call reseeds a private generator:
    [sample] is a function of the requested size only and leaves numpy's
    global generator alone. *)
Record FittedMixture : Type := {
  predict : point -> nat;
  predict_proba : point -> list float;
  sample : nat -> list point
}.

(** [GMM(n_components=K, covariance_type=c, random_state=0).fit(X)]: the
    estimator keeps its constructor parameters next to what it learned. *)
Record GaussianMixture : Type := {
  n_components : nat;
  covariance_type : covariance;
  fitted : FittedMixture
}.

(** numpy's global generator ([np.random.*]) over a state type [RNG], for
    arguments inside each distribution's domain (the domain checks are
    written out in [Sim]). *)
Record NumpyRandom (RNG : Type) : Type := {
  (** [randint(0, high, size)] as used by [choice(..., replace=True)] *)
  randint : RNG -> nat -> nat -> list nat * RNG;
  (** [normal(loc, scale)] *)
  normal : RNG -> float -> float -> float * RNG;
  (** [poisson(lam)] *)
  poisson : RNG -> float -> Z * RNG;
  (** [binomial(n, p)] *)
  binomial : RNG -> Z -> float -> Z * RNG;
  (** largest rate [poisson] accepts *)
  POISSON_LAM_MAX : Q;
  (** [np.sqrt] on non-negative finite values *)
  Qsqrt : Q -> Q
}.

(** scikit-learn's mixture fitting.  [held_out_bic g c K X i] fits
    [GMM(n_components=K, covariance_type=c)] (no [random_state]: it draws
    from the global generator) on the training part of split [i] of [X] and
    returns [estimator.bic] of the held-out part, NaN when the fit fails
    ([error_score=nan]). *)
Record MixtureLibrary (RNG : Type) : Type := {
  held_out_bic : RNG -> covariance -> nat -> list point -> nat -> float * RNG;
  (** [GMM(K, c).fit(X)], drawing from the global generator; [None] when
      the fit raises *)
  fit_global : RNG -> covariance -> nat -> list point
               -> option FittedMixture * RNG;
  (** [GMM(K, c, random_state=0).fit(X)] *)
  fit : covariance -> nat -> list point -> option FittedMixture
}.

(** What the libraries document about these operations. *)
Record NumpyRandomSpec (RNG : Type) (np : NumpyRandom RNG) : Prop := {
  randint_length : forall g high size, length (fst (randint np g high size)) = size;
  randint_range : forall g high size,
      0 < high -> Forall (fun i => i < high) (fst (randint np g high size));
  poisson_nonneg : forall g lam, (0 <= fst (poisson np g lam))%Z;
  binomial_range : forall g n p,
      (0 <= n)%Z -> (0 <= fst (binomial np g n p) <= n)%Z;
  Qsqrt_0 : (Qsqrt np 0 == 0)%Q
}.

(** [sample(n)] returns [n] points; [predict_proba] returns one probability
    per component, the entries summing to one. *)
Record MixtureSpec (m : GaussianMixture) : Prop := {
  sample_length : forall n, length (sample (fitted m) n) = n;
  proba_length : forall x, length (predict_proba (fitted m) x) = n_components m;
  proba_nonneg : forall x,
      Forall (fun p => exists q, p = Num q /\ (0 <= q)%Q) (predict_proba (fitted m) x);
  proba_total : forall x, fsum (predict_proba (fitted m) x) = Num 1
}.

(* ================================================================= *)
(** * Generator state, call log and exceptions *)

(** The library calls whose occurrence matters to the simulation. *)
Inductive Call : Type :=
| CallChoice (size : nat)
| CallNormal (loc scale : float)
| CallPoisson (lam : float)
| CallSample (n_samples : Z)
| CallPredictProba (n_points : nat)
| CallBinomial (n : Z) (p : float).

Record World (RNG : Type) : Type := mkWorld {
  rng : RNG;
  calls : list Call
}.

(** A computation that reads and advances the world and either returns or
    raises. *)
Definition M (RNG A : Type) : Type := World RNG -> (ValueError + A) * World RNG.

Definition ret {RNG A} (a : A) : M RNG A := fun w => (inr a, w).

Definition bind {RNG A B} (m : M RNG A) (k : A -> M RNG B) : M RNG B :=
  fun w => match m w with
           | (inr a, w') => k a w'
           | (inl e, w') => (inl e, w')
           end.

Definition raise {RNG A} (e : ValueError) : M RNG A := fun w => (inl e, w).

Definition lift {RNG A} (r : ValueError + A) : M RNG A := fun w => (r, w).

Definition log {RNG} (c : Call) : M RNG unit :=
  fun w => (inr tt, mkWorld (rng w) (calls w ++ [c])).

(** Run a generator operation on the current generator state. *)
Definition draw {RNG A} (f : RNG -> A * RNG) : M RNG A :=
  fun w => let (a, g) := f (rng w) in (inr a, mkWorld g (calls w)).

Declare Scope m_scope.
Delimit Scope m_scope with m.
Notation "x <- c1 ;; c2" := (bind c1 (fun x => c2))
  (at level 100, c1 at next level, right associativity) : m_scope.
Notation "c1 ;; c2" := (bind c1 (fun _ => c2))
  (at level 100, right associativity) : m_scope.
Open Scope m_scope.

(** [[body for _ in range(n)]]. *)
Fixpoint replicateM {RNG A} (n : nat) (body : M RNG A) : M RNG (list A) :=
  match n with
  | O => ret []
  | S n' => x <- body ;; xs <- replicateM n' body ;; ret (x :: xs)
  end.

(** Apply [f] to the elements in order, stopping at the first exception. *)
Fixpoint mapM {RNG A B} (f : A -> M RNG B) (l : list A) : M RNG (list B) :=
  match l with
  | [] => ret []
  | a :: l' => b <- f a ;; bs <- mapM f l' ;; ret (b :: bs)
  end.

(* ================================================================= *)
(** * Input records *)

(** A row of [threes] (lines 41-44): the player's three-point attempts with
    no missing field. *)
Record player_shot : Type := {
  GAME_ID : string;
  LOC : point;
  SHOT_MADE_FLAG : bool
}.

(** A row of [league_df]; [DEF] is the defending team when the helper
    could tell. *)
Record league_shot : Type := {
  DEF : option string;
  league_LOC : point;
  league_SHOT_MADE_FLAG : bool
}.

Fixpoint insert_key (k : string) (keys : list string) : list string :=
  match keys with
  | [] => [k]
  | k' :: rest =>
      if String.eqb k k' then keys
      else if String.ltb k k' then k :: keys
      else k' :: insert_key k rest
  end.

(** The distinct keys of a group-by, sorted. *)
Definition group_keys (col : list string) : list string :=
  fold_right insert_key [] col.

(** The distinct keys of a column in order of first appearance. *)
Fixpoint first_appearances (keys : list string) : list string :=
  match keys with
  | [] => []
  | k :: rest =>
      k :: filter (fun k' => negb (String.eqb k' k)) (first_appearances rest)
  end.

(** The rows of a table grouped by key: the keys in order of first
    appearance, the rows of one key in table order. *)
Definition rows_by_first_appearance {A} (key : A -> string) (rows : list A)
  : list A :=
  flat_map (fun g => filter (fun r => String.eqb (key r) g) rows)
           (first_appearances (map key rows)).

(** Line 47: [threes.groupby('GAME_ID')['SHOT_ATTEMPTED_FLAG'].count().values],
    the number of attempts in each game. *)
Definition fga_per_game (threes : list player_shot) : list Z :=
  map (fun g =>
         Z.of_nat (length (filter (fun r => String.eqb (GAME_ID r) g) threes)))
      (group_keys (map GAME_ID threes)).

(** Line 73: [league_df.loc[league_df['DEF'] == opponent]]. *)
Definition defended_by (opponent : string) (r : league_shot) : bool :=
  match DEF r with
  | Some d => String.eqb d opponent
  | None => false
  end.

(* ================================================================= *)
(** * The routine *)

Section Sim.

Context {RNG : Type}.
Variable np : NumpyRandom RNG.
Variable sk : MixtureLibrary RNG.

(* ------------------------------------------------------------- *)
(** ** Model selection (lines 54-66) *)

Definition candidate : Type := (covariance * nat)%type.

(** Lines 54-57, in [ParameterGrid] order: the keys are sorted, so the
    covariance family varies slowest. *)
Definition param_grid : list candidate :=
  list_prod [spherical; tied; diag; full] (seq 3 12).

(** [GridSearchCV]'s default 5-fold split. *)
Definition n_splits : nat := 5.

(** The scorer of line 59, [-estimator.bic(x)], on split [i]. *)
Definition neg_bic_score (X : list point) (c : candidate) (i : nat) : M RNG float :=
  b <- draw (fun g => held_out_bic sk g (fst c) (snd c) X i) ;;
  ret (fneg b).

(** [mean_test_score] of one candidate. *)
Definition mean_test_score (X : list point) (c : candidate) : M RNG float :=
  scores <- mapM (neg_bic_score X c) (seq 0 n_splits) ;;
  ret (fmean scores).

(** [a] ranks strictly before [b]: a higher mean score, NaN last. *)
Definition ranks_before (a b : float) : bool :=
  match a, b with
  | NaN, _ => false
  | _, NaN => true
  | _, _ => flt b a
  end.

Definition keep_best (best new : candidate * float) : candidate * float :=
  if ranks_before (snd new) (snd best) then new else best.

(** [best_params_]: the first candidate of rank 1.  The grid is never
    empty; the value given for an empty result list is not used. *)
Definition best_result (results : list (candidate * float)) : candidate * float :=
  match results with
  | [] => ((spherical, 3), NaN)
  | r :: rest => fold_left keep_best rest r
  end.

(** [cv_results_]: [KFold(5).split] is consumed before the first fit and
    raises when [X] has fewer rows than splits; otherwise every candidate
    is scored, in grid order. *)
Definition cv_results (X : list point) : M RNG (list (candidate * float)) :=
  if length X <? n_splits then raise SplitsExceedSamples
  else mapM (fun c => s <- mean_test_score X c ;; ret (c, s)) param_grid.

(** Lines 58-62: [grid_search.fit(X)], candidates and splits in order, then
    the refit of the winner on all of [X] (still from the global
    generator). *)
Definition grid_search_fit (X : list point) : M RNG candidate :=
  results <- cv_results X ;;
  let best := fst (best_result results) in
  refit <- draw (fun g => fit_global sk g (fst best) (snd best) X) ;;
  match refit with
  | Some _ => ret best
  | None => raise FitFailed
  end.

(** Lines 64-66: the model the simulation uses. *)
Definition fit_model (X : list point) (best : candidate) : M RNG GaussianMixture :=
  match fit sk (fst best) (snd best) X with
  | Some f => ret {| n_components := snd best;
                     covariance_type := fst best;
                     fitted := f |}
  | None => raise FitFailed
  end.

Definition select_and_fit (X : list point) : M RNG GaussianMixture :=
  best <- grid_search_fit X ;;
  fit_model X best.

(* ------------------------------------------------------------- *)
(** ** Zone tables (lines 67-94) *)

(** Lines 67, 76-79: the player's shots with their predicted zone. *)
Definition cluster_df (model : GaussianMixture) (threes : list player_shot)
  : list labelled_shot :=
  map (fun r => mk_shot (predict (fitted model) (LOC r)) (SHOT_MADE_FLAG r))
      threes.

(** Lines 69-70: [league_df['cluster'] = model.predict(league_test_xy)]. *)
Definition league_with_cluster (model : GaussianMixture)
           (league : list league_shot) : list (league_shot * nat) :=
  map (fun r => (r, predict (fitted model) (league_LOC r))) league.

Definition flag_by_cluster (rows : list (league_shot * nat)) : list labelled_shot :=
  map (fun rc => mk_shot (snd rc) (league_SHOT_MADE_FLAG (fst rc))) rows.

(** Line 73: the opponent's rows are selected after the zones are set. *)
Definition opponent_df (opponent : string) (rows : list (league_shot * nat))
  : list (league_shot * nat) :=
  filter (fun rc => defended_by opponent (fst rc)) rows.

(** Line 94: [opponent_fg_percent_by_cluster / league_fg_percent_by_cluster]. *)
Definition def_adjustment (opponent_shots league_shots : list labelled_shot)
  : Series :=
  series_div (fg_percent_by_cluster opponent_shots)
             (fg_percent_by_cluster league_shots).

(* ------------------------------------------------------------- *)
(** ** Attempt volume (lines 97-99) *)

(** [np.random.choice(a, size=size, replace=True)]: indices are drawn by
    [randint(0, len(a), size)]; nothing is drawn for [size = 0]. *)
Definition np_random_choice (a : list Z) (size : nat) : M RNG (list Z) :=
  log (CallChoice size) ;;
  match size, a with
  | O, _ => ret []
  | S _, [] => raise EmptyPopulation
  | S _, _ :: _ =>
      idx <- draw (fun g => randint np g (length a) size) ;;
      ret (map (fun i => nth i a 0%Z) idx)
  end.

(** One element of the comprehension of line 97. *)
Definition resample_mean (fga_per_game_data : list Z) : M RNG float :=
  resample <- np_random_choice fga_per_game_data (length fga_per_game_data) ;;
  ret (fmean (map of_Z resample)).

Definition fga_per_game_est (fga_per_game_data : list Z) (bootstrap_samples : Z)
  : M RNG (list float) :=
  replicateM (Z.to_nat bootstrap_samples) (resample_mean fga_per_game_data).

Definition np_sqrt (x : float) : float :=
  match x with
  | Num q => if Qnegb q then NaN else Num (Qred (Qsqrt np q))
  | PInf => PInf
  | NInf | NaN => NaN
  end.

(** [np.std(l)]: [sqrt(mean(abs(l - mean(l)) ** 2))]. *)
Definition np_std (l : list float) : float :=
  let m := fmean l in
  np_sqrt (fmean (map (fun x => let d := fsub x m in fmul d d) l)).

(** Lines 97-99: [(fga_per_game_est_mean, fga_per_game_est_std)]. *)
Definition estimate_attempts (fga_per_game_data : list Z) (bootstrap_samples : Z)
  : M RNG (float * float) :=
  est <- fga_per_game_est fga_per_game_data bootstrap_samples ;;
  ret (fmean est, np_std est).

(* ------------------------------------------------------------- *)
(** ** Game simulation (lines 101-122) *)

Definition np_random_normal (loc scale : float) : M RNG float :=
  log (CallNormal loc scale) ;;
  if flt scale (Num 0) then raise ScaleNegative
  else draw (fun g => normal np g loc scale).

Definition lam_in_domain (lam : float) : bool :=
  fle (Num 0) lam && fle lam (Num (POISSON_LAM_MAX np)).

Definition np_random_poisson (lam : float) : M RNG Z :=
  log (CallPoisson lam) ;;
  if lam_in_domain lam then draw (fun g => poisson np g lam)
  else raise LamOutOfDomain.

(** [np.random.binomial(n, p)] for a non-negative [n]. *)
Definition np_random_binomial (n : Z) (p : float) : M RNG Z :=
  log (CallBinomial n p) ;;
  if in_unitb p then draw (fun g => binomial np g n p)
  else raise ProbOutOfDomain.

(** [np.vectorize(np.random.binomial)(1, ps)].  No [otypes] is given, so
    [vectorize] first calls the function on the first element to learn the
    output type and discards that outcome; then it calls it once per
    element. *)
Definition vectorize_binomial (ps : list float) : M RNG (list Z) :=
  match ps with
  | [] => raise VectorizeSizeZero
  | p0 :: _ => np_random_binomial 1 p0 ;; mapM (np_random_binomial 1) ps
  end.

Definition sum_Z (l : list Z) : Z := fold_right Z.add 0%Z l.

Section Game.

Variable model : GaussianMixture.
(** [fg_percent_by_cluster.values] and [def_adjustment] *)
Variable player_rates : list float.
Variable adjustment : Series.
Variables fga_per_game_est_mean fga_per_game_est_std : float.

(** [model.sample(n)[0]] *)
Definition model_sample (n : Z) : M RNG (list point) :=
  log (CallSample n) ;;
  if (n <? 1)%Z then raise InvalidNSamples
  else ret (sample (fitted model) (Z.to_nat n)).

(** [model.predict_proba(X)]: one row per point. *)
Definition model_predict_proba (X : list point) : M RNG (list (list float)) :=
  log (CallPredictProba (length X)) ;;
  ret (map (predict_proba (fitted model)) X).

(** Lines 116-118.  The product is evaluated before [predict_proba] is
    called. *)
Definition weighted_fg_percent (sampled_shot_locs : list point)
  : M RNG (list float) :=
  adjusted <- lift (ndarray_mul_series player_rates adjustment) ;;
  proba <- model_predict_proba sampled_shot_locs ;;
  lift (np_dot (values adjusted) (n_components model) proba).

(** Lines 106-122: the body of the loop; the value is what is appended
    to [fg3m_s]. *)
Definition simulate_game : M RNG Z :=
  lam <- np_random_normal fga_per_game_est_mean fga_per_game_est_std ;;
  fga_i <- np_random_poisson lam ;;
  if (fga_i =? 0)%Z then ret 0%Z
  else
    sampled_shot_locs <- model_sample fga_i ;;
    weighted <- weighted_fg_percent sampled_shot_locs ;;
    fgm_i <- vectorize_binomial weighted ;;
    ret (sum_Z fgm_i).

(** Lines 101-103: the loop, [fg3m_s] growing at its end. *)
Fixpoint simulate_games (n : nat) (fg3m_s : list Z) : M RNG (list Z) :=
  match n with
  | O => ret fg3m_s
  | S n' =>
      made <- simulate_game ;;
      simulate_games n' (fg3m_s ++ [made])
  end.

(** [range(n_simulated_games)] is empty for a non-positive count. *)
Definition simulate (n_simulated_games : Z) : M RNG (list Z) :=
  simulate_games (Z.to_nat n_simulated_games) [].

End Game.

(* ------------------------------------------------------------- *)
(** ** [run_threes_model] (lines 40-134)

    The arguments are the two fetched tables, the opponent and the two
    counts.  The [n_components] argument is overwritten at line 65 before
    it is read, and plotting does not touch the result. *)
Definition run_threes_model
           (threes : list player_shot) (league_df : list league_shot)
           (opponent : string) (bootstrap_samples n_simulated_games : Z)
  : M RNG (list Z) :=
  let threes_train_xy := map LOC threes in
  let fga_per_game_data := fga_per_game threes in
  model <- select_and_fit threes_train_xy ;;
  let league := league_with_cluster model league_df in
  let fg_percent := fg_percent_by_cluster (cluster_df model threes) in
  let adjustment :=
    def_adjustment (flag_by_cluster (opponent_df opponent league))
                   (flag_by_cluster league) in
  est <- estimate_attempts fga_per_game_data bootstrap_samples ;;
  simulate model (values fg_percent) adjustment (fst est) (snd est)
           n_simulated_games.

End Sim.

(* ================================================================= *)
(** * A scripted instance of the libraries

    A generator whose state is the list of raw draws still to be handed
    out, and a mixture that assigns a point to the zone named by its x
    coordinate.  They make the routine run inside Rocq on concrete
    inputs. *)

Module Scripted.

Definition tape : Type := list Z.

(** The next raw draw (0 once the script is exhausted). *)
Definition next (g : tape) : Z * tape :=
  match g with
  | [] => (0%Z, [])
  | z :: g' => (z, g')
  end.

Fixpoint next_indices (g : tape) (high size : nat) : list nat * tape :=
  match size with
  | O => ([], g)
  | S size' =>
      let (z, g1) := next g in
      let (rest, g2) := next_indices g1 high size' in
      (Z.to_nat (z mod Z.of_nat high) :: rest, g2)
  end.

(** [loc + scale * z] for the scripted standard draw [z]. *)
Definition scripted_normal (g : tape) (loc scale : float) : float * tape :=
  let (z, g') := next g in (fadd loc (fmul scale (of_Z z)), g').

Definition scripted_poisson (g : tape) (lam : float) : Z * tape :=
  let (z, g') := next g in (Z.abs z, g').

Definition scripted_binomial (g : tape) (n : Z) (p : float) : Z * tape :=
  let (z, g') := next g in (z mod (n + 1), g')%Z.

(** Square root to six decimals. *)
Definition decimal_sqrt (q : Q) : Q :=
  Qmake (Z.sqrt (Qnum q * 10 ^ 12 / Zpos (Qden q))) (10 ^ 6).

Definition np : NumpyRandom tape := {|
  randint := next_indices;
  normal := scripted_normal;
  poisson := scripted_poisson;
  binomial := scripted_binomial;
  POISSON_LAM_MAX := inject_Z 9223372006484771840;
  Qsqrt := decimal_sqrt
|}.

(** The zone of a point: its x coordinate rounded down, within [K] zones. *)
Definition zone_of (K : nat) (x : point) : nat :=
  match fst x with
  | Num q => Z.to_nat (Qfloor q mod Z.of_nat K)
  | _ => 0
  end.

(** [sample n] walks through the zones: point [i] lies in zone [i mod K]. *)
Definition zone_mixture (K : nat) : FittedMixture := {|
  predict := zone_of K;
  predict_proba := fun x => one_hot K (zone_of K x);
  sample := fun n => map (fun i => (of_nat (i mod K), Num 0)) (seq 0 n)
|}.

Definition model (K : nat) : GaussianMixture := {|
  n_components := K;
  covariance_type := full;
  fitted := zone_mixture K
|}.

(** A scorer whose held-out BIC is smallest at seven full-covariance
    components; it draws nothing. *)
Definition scripted_bic (g : tape) (c : covariance) (K : nat)
           (X : list point) (i : nat) : float * tape :=
  (of_Z (Z.abs (Z.of_nat K - 7) + match c with full => 0 | _ => 1 end), g).

Definition sk : MixtureLibrary tape := {|
  held_out_bic := scripted_bic;
  fit_global := fun g c K X => (Some (zone_mixture K), g);
  fit := fun c K X => Some (zone_mixture K)
|}.

Definition start (g : tape) : World tape := mkWorld g [].

End Scripted.

(* ================================================================= *)
(** * The statements of the specification, as it words them *)

(** The specification's zone rate: made over total, undefined without
    observations. *)
Definition spec_zone_rate (df : list labelled_shot) (k : nat) : float :=
  if count_total k df =? 0 then NaN
  else fdiv (of_nat (count_made k df)) (of_nat (count_total k df)).

(** The entry the code's table holds for zone [k]: the fraction of the made
    row whose group key is [k], if there is such a row. *)
Definition rate_of_zone (df : list labelled_shot) (k : nat) : option float :=
  option_map (fun lr => fg_percent (snd lr))
             (find (fun lr => vc_cluster (snd lr) =? k) (made_rows df)).

(** The specification's table: every one of the [K] zones has an entry,
    the rate when there are observations and the NaN marker otherwise. *)
Definition spec_zone_table (K : nat) (df : list labelled_shot) : Prop :=
  forall k, k < K -> rate_of_zone df k = Some (spec_zone_rate df k).

(** The specification's scenario for a point that belongs to zone [z] with
    probability 1.0: its effective probability is that zone's adjusted
    rate. *)
Definition spec_one_hot_probability (model : GaussianMixture)
           (player_rates : list float) (adjustment : Series)
           (x : point) (z : nat) : Prop :=
  predict_proba (fitted model) x = one_hot (n_components model) z ->
  fst (weighted_fg_percent model player_rates adjustment [x]
                           (mkWorld tt []))
  = inr [fmul (nth z player_rates NaN) (nth z (values adjustment) NaN)].

(** The specification's adjustment for zone [k]. *)
Definition spec_adjustment (opponent_shots league_shots : list labelled_shot)
           (k : nat) : float :=
  fdiv (spec_zone_rate opponent_shots k) (spec_zone_rate league_shots k).

(** The game and the run the specification promises: probabilities are
    clamped, so a game always yields a count, and a run yields one
    non-negative count per requested game. *)
Definition spec_game_returns {RNG : Type} (np : NumpyRandom RNG)
           (model : GaussianMixture) (player_rates : list float)
           (adjustment : Series) (mu sigma : float) (w : World RNG) : Prop :=
  exists made w',
    simulate_game np model player_rates adjustment mu sigma w = (inr made, w').

Definition spec_simulation_result {RNG : Type} (np : NumpyRandom RNG)
           (model : GaussianMixture) (player_rates : list float)
           (adjustment : Series) (mu sigma : float) (N : Z) (w : World RNG)
  : Prop :=
  exists res w',
    simulate np model player_rates adjustment mu sigma N w = (inr res, w')
    /\ Z.of_nat (length res) = N
    /\ Forall (fun made => (0 <= made)%Z) res.

(* ================================================================= *)
(** * Notions used by the statements *)

(** Values in lowest terms: what every arithmetic operation returns. *)
Definition canonical (x : float) : Prop :=
  match x with
  | Num q => Qred q = q
  | _ => True
  end.

Definition finite_canonical (a : float) : Prop :=
  is_finite a = true /\ canonical a.

(** The made row of group [c]. *)
Definition made_row (df : list labelled_shot) (c : nat) : vc_row :=
  mk_row c true (fdiv (of_nat (count_made c df)) (of_nat (count_total c df))).

Definition made_row_if_any (df : list labelled_shot) (c : nat) : list vc_row :=
  if 0 <? count_made c df then [made_row df c] else [].

(** The vector [fg_percent_by_cluster.values * def_adjustment] when both
    operands have the same length: entry [k] is rate [k] times adjustment
    [k]. *)
Definition adjusted_rates (player_rates : list float) (adjustment : Series)
  : list float :=
  map (fun ra => fmul (fst ra) (snd ra)) (combine player_rates (values adjustment)).

(** ** The bootstrap, in the specification's words *)

(** One resample: as many draws with replacement as the input is long,
    each draw the element at an index the generator hands out; nothing is
    drawn for an empty input. *)
Definition spec_resample {RNG : Type} (np : NumpyRandom RNG)
           (data : list Z) (g : RNG) : list Z * RNG :=
  match data with
  | [] => ([], g)
  | _ :: _ =>
      let drawn := randint np g (length data) (length data) in
      (map (fun i => nth i data 0%Z) (fst drawn), snd drawn)
  end.




(** ** The cross-validated score, in the specification's words *)




(** ** The draws of a game, in the specification's words *)

(** One Bernoulli outcome per probability, in order, each drawn from the
    generator state the one before it left. *)
Fixpoint bernoulli_draws {RNG : Type} (np : NumpyRandom RNG)
         (ps : list float) (g : RNG) : list Z * RNG :=
  match ps with
  | [] => ([], g)
  | p :: rest =>
      let o := binomial np g 1 p in
      let os := bernoulli_draws np rest (snd o) in
      (fst o :: fst os, snd os)
  end.

Definition binomial_calls (log : list Call) : nat :=
  length (filter (fun c => match c with CallBinomial _ _ => true | _ => false end)
                 log).

Definition sampled_shots (log : list Call) : Z :=
  sum_Z (flat_map (fun c => match c with CallSample n => [n] | _ => [] end) log).

(** The claim, as it words it: a game draws exactly one Bernoulli outcome
    per sampled shot. *)
Definition spec_one_draw_per_shot {RNG : Type} (np : NumpyRandom RNG)
           (model : GaussianMixture) (player_rates : list float)
           (adjustment : Series) (mu sigma : float) (w : World RNG) : Prop :=
  forall made w',
    simulate_game np model player_rates adjustment mu sigma w = (inr made, w') ->
    (Z.of_nat (binomial_calls (calls w')) - Z.of_nat (binomial_calls (calls w))
     = sampled_shots (calls w') - sampled_shots (calls w))%Z.

(** The effective probabilities of a game with [fga] attempts, when the
    shapes fit. *)
Definition game_probabilities (model : GaussianMixture)
           (player_rates : list float) (adjustment : Series) (fga : Z)
  : ValueError + list float :=
  match ndarray_mul_series player_rates adjustment with
  | inl e => inl e
  | inr adjusted =>
      np_dot (values adjusted) (n_components model)
             (map (predict_proba (fitted model))
                  (sample (fitted model) (Z.to_nat fga)))
  end.

(** The library check that fails first in a game started in world [w], if
    any does: the scale of the normal draw, the rate of the Poisson draw, the
    sample size, the shapes of the blend, and the probability of each
    Bernoulli draw, in the order the game reaches them. *)
Definition first_offending_draw {RNG : Type} (np : NumpyRandom RNG)
           (model : GaussianMixture) (player_rates : list float)
           (adjustment : Series) (mu sigma : float) (w : World RNG)
  : option ValueError :=
  if flt sigma (Num 0) then Some ScaleNegative
  else
    let lam := normal np (rng w) mu sigma in
    if lam_in_domain np (fst lam) then
      let fga := fst (poisson np (snd lam) (fst lam)) in
      if (fga =? 0)%Z then None
      else if (fga <? 1)%Z then Some InvalidNSamples
      else match game_probabilities model player_rates adjustment fga with
           | inl e => Some e
           | inr [] => Some VectorizeSizeZero
           | inr ps => if forallb in_unitb ps then None else Some ProbOutOfDomain
           end
    else Some LamOutOfDomain.

(* ================================================================= *)
(** * Concrete tables *)

Module Examples.

(** Three zones, the middle one without any observed shot. *)
Definition empty_middle_zone : list labelled_shot :=
  [mk_shot 0 true; mk_shot 2 true; mk_shot 2 false; mk_shot 2 false].

Definition shots (zone made missed : nat) : list labelled_shot :=
  repeat (mk_shot zone true) made ++ repeat (mk_shot zone false) missed.

(** The shots one defense allowed: none in zone 0, and in zones 1 and 2
    more misses than makes. *)
Definition opponent_shots : list labelled_shot :=
  shots 1 1 2 ++ shots 2 2 3.

(** The league's shots: the opponent's and those against other teams; more
    misses than makes in every zone. *)
Definition league_shots : list labelled_shot :=
  opponent_shots ++ shots 0 1 2 ++ shots 1 1 3 ++ shots 2 0 1.

(** The player's rates in three zones and two adjustment Series: one that
    keeps every adjusted rate within [0,1], one that doubles the rate of
    the zone where the player never misses. *)
Definition rates : list float := [Num 1; Num (1 # 2); Num (1 # 4)].
Definition adjustment : Series := [(1, Num 1); (3, Num (1 # 2)); (5, Num 2)].
Definition inflated : Series := [(1, Num 2); (3, Num 1); (5, Num 1)].

(** [rates * adjustment], as a Series. *)
Definition adjusted : Series :=
  [(1, Num 1); (3, Num (1 # 4)); (5, Num (1 # 2))].

(** Two attempts in one game, one in another. *)
Definition threes : list player_shot :=
  [ {| GAME_ID := "0022200001"%string; LOC := (Num 0, Num 250); SHOT_MADE_FLAG := true |};
    {| GAME_ID := "0022200001"%string; LOC := (Num 1, Num 240); SHOT_MADE_FLAG := false |};
    {| GAME_ID := "0022200002"%string; LOC := (Num 2, Num 230); SHOT_MADE_FLAG := true |} ].

Definition league_df : list league_shot :=
  [ {| DEF := Some "BOS"%string; league_LOC := (Num 0, Num 250);
       league_SHOT_MADE_FLAG := true |};
    {| DEF := Some "NYK"%string; league_LOC := (Num 1, Num 240);
       league_SHOT_MADE_FLAG := false |};
    {| DEF := None; league_LOC := (Num 2, Num 230);
       league_SHOT_MADE_FLAG := true |} ].

End Examples.

(* ================================================================= *)
(** * Python strings *)

Module Text.

(** [str.isspace] on one character; characters are code points below
    256. *)
Definition is_space (c : Ascii.ascii) : bool :=
  let n := Ascii.nat_of_ascii c in
  ((9 <=? n) && (n <=? 13)) || ((28 <=? n) && (n <=? 32))
  || (n =? 133) || (n =? 160).

(** Does [s] begin with a character that is not whitespace? *)
Definition starts_word (s : string) : bool :=
  match s with
  | String.EmptyString => false
  | String.String c _ => negb (is_space c)
  end.

(** [s.split()]: the maximal runs of non-whitespace characters, in order.
    A character that is not whitespace joins the word that starts right
    after it, if there is one, and otherwise is a word of its own in front
    of the words that follow. *)
Fixpoint split (s : string) : list string :=
  match s with
  | String.EmptyString => []
  | String.String c s' =>
      let rest := split s' in
      if is_space c then rest
      else if starts_word s' then
             match rest with
             | w :: ws => String.String c w :: ws
             | [] => [String.String c String.EmptyString]
             end
           else String.String c String.EmptyString :: rest
  end.

Fixpoint lstrip (s : string) : string :=
  match s with
  | String.EmptyString => String.EmptyString
  | String.String c s' => if is_space c then lstrip s' else s
  end.

Fixpoint rstrip (s : string) : string :=
  match s with
  | String.EmptyString => String.EmptyString
  | String.String c s' =>
      match rstrip s' with
      | String.EmptyString =>
          if is_space c then String.EmptyString
          else String.String c String.EmptyString
      | r => String.String c r
      end
  end.

(** [s.strip()] *)
Definition strip (s : string) : string := rstrip (lstrip s).

(** Only whitespace (or nothing). *)
Fixpoint blank (s : string) : bool :=
  match s with
  | String.EmptyString => true
  | String.String c s' => is_space c && blank s'
  end.

(** No whitespace (possibly nothing). *)
Fixpoint spaceless (s : string) : bool :=
  match s with
  | String.EmptyString => true
  | String.String c s' => negb (is_space c) && spaceless s'
  end.

(** A word: at least one character, none of them whitespace. *)
Definition is_word (s : string) : bool :=
  match s with
  | String.EmptyString => false
  | _ => spaceless s
  end.

End Text.

(* ================================================================= *)
(** * The data helpers ([src/model/nba_api_helpers.py]) *)

Module NbaApi.

Inductive HelperError : Type :=
| IndexError            (* [0] or [-1] on an empty sequence *)
| TypeError             (* get_player_game_log: player_id is not a str *)
| NoObjectsToConcatenate. (* pd.concat of an empty list of frames *)

(** The values a player identifier takes on its way through the helpers. *)
Inductive pyvalue : Type :=
| PyStr (s : string)
| PyInt (z : Z)
| PyFloat (x : float).

(** An entry of nba_api's static player list and of its team list. *)
Record player_info : Type := {
  id : Z;
  full_name : string
}.

Record team_info : Type := {
  abbreviation : string
}.

(** A row of [games_df] and a row of the league shot chart, reduced to the
    columns the helper reads. *)
Record game_row : Type := {
  game_GAME_ID : string;
  MATCHUP : string
}.

Record chart_row : Type := {
  GRID_TYPE : string;
  chart_GAME_ID : string;
  TEAM_NAME : string;
  chart_LOC : point;
  chart_SHOT_MADE_FLAG : bool
}.

Definition bindE {A B} (r : HelperError + A) (k : A -> HelperError + B)
  : HelperError + B :=
  match r with
  | inr a => k a
  | inl e => inl e
  end.

(** Apply [f] row by row, as [DataFrame.apply(f, axis=1)] does; the first
    exception ends the pass. *)
Fixpoint applyE {A B} (f : A -> HelperError + B) (rows : list A)
  : HelperError + list B :=
  match rows with
  | [] => inr []
  | r :: rows' =>
      bindE (f r) (fun b => bindE (applyE f rows') (fun bs => inr (b :: bs)))
  end.

(** [np.argmax] of a non-empty list: the first position of the largest
    value. *)
Fixpoint argmax_from (best_i : nat) (best : Q) (i : nat) (l : list Q) : nat :=
  match l with
  | [] => best_i
  | x :: l' =>
      if Qle_bool x best then argmax_from best_i best (S i) l'
      else argmax_from i x (S i) l'
  end.

Definition np_argmax (l : list Q) : nat :=
  match l with
  | [] => 0
  | x :: l' => argmax_from 0 x 1 l'
  end.

Section Helpers.

(** nba_api's static lookups, difflib's similarity ratio and [str] on an
    integer. *)
Variable find_players_by_full_name : string -> list player_info.
Variable find_teams_by_full_name : string -> list team_info.
Variable ratio : string -> string -> Q.
Variable str : Z -> string.

(** The stats endpoints: the frames of a player's game log, a player's
    current team, and the frames of a shot chart. *)
Variable DataFrame : Type.
Variable Row : Type.
Variable player_game_log_frames : string -> string -> list DataFrame.
Variable common_player_team : Z -> Z.
Variable shot_chart_frames : Z -> Z -> string -> list (list Row).

(** Lines 10-26. *)
Definition find_player_id (player_name : string) : pyvalue :=
  let possible_matches := find_players_by_full_name player_name in
  match possible_matches with
  | [] => PyFloat NaN
  | [m] => PyStr (str (id m))
  | m :: _ :: _ =>
      let idx_closest_match :=
        np_argmax (map (fun match_ => ratio player_name (full_name match_))
                       possible_matches) in
      PyStr (str (id (nth idx_closest_match possible_matches m)))
  end.

(** Lines 28-36. *)
Definition get_player_game_log (player_id : pyvalue) (season : string)
  : HelperError + DataFrame :=
  match player_id with
  | PyStr s =>
      match player_game_log_frames s season with
      | [] => inl IndexError
      | game_log_df :: _ => inr game_log_df
      end
  | _ => inl TypeError
  end.

(** Lines 38-55.  The [team_id] argument is overwritten at line 51. *)
Definition get_player_shot_loc_data (player_name : string) (team_id : Z)
           (context_measure_simple : string) : HelperError + list Row :=
  match find_players_by_full_name player_name with
  | [] => inl IndexError
  | m :: _ =>
      let player_id := id m in
      let team_id := common_player_team player_id in
      match shot_chart_frames player_id team_id context_measure_simple with
      | [] => inl NoObjectsToConcatenate
      | frames => inr (concat frames)
      end
  end.

(** Lines 65-70: NaN (here [None]) when no team carries the name. *)
Definition find_team_abrv (team_name : string) : option string :=
  match find_teams_by_full_name (Text.strip team_name) with
  | [] => None
  | t :: _ => Some (abbreviation t)
  end.

(** Lines 72-75: the matchup of the first row of [games_df] for the game. *)
Definition find_matchup (games_df : list game_row) (game_id : string)
  : HelperError + string :=
  match filter (fun g => String.eqb (game_GAME_ID g) game_id) games_df with
  | [] => inl IndexError
  | g :: _ => inr (MATCHUP g)
  end.

(** [team_abrv != team]: an unresolved abbreviation (NaN) differs from
    every string. *)
Definition abrv_differs (team_abrv : option string) (team : string) : bool :=
  match team_abrv with
  | Some a => negb (String.eqb a team)
  | None => true
  end.

(** Lines 77-84.  Falling off the end returns [None]. *)
Definition find_defense (team_abrv : option string) (matchup : string)
  : HelperError + option string :=
  match Text.split matchup with
  | [] => inl IndexError
  | team_a :: rest =>
      let team_b := last rest team_a in
      if abrv_differs team_abrv team_a then inr (Some team_a)
      else if abrv_differs team_abrv team_b then inr (Some team_b)
      else inr None
  end.

(** What [get_league_shot_loc_data] does when no row of the shot chart is a
    'Shot Chart Detail' row: pandas then takes its empty-frame path through
    [apply], which is left open here. *)
Variable on_empty_frame : HelperError + list league_shot.

(** Lines 94-95: the kept rows, each with its team abbreviation. *)
Definition with_team_abrv (league_shots : list chart_row)
  : list (chart_row * option string) :=
  map (fun r => (r, find_team_abrv (TEAM_NAME r)))
      (filter (fun r => String.eqb (GRID_TYPE r) "Shot Chart Detail"%string)
              league_shots).

(** Lines 97-98: one row per game of the chart, in key order, with the
    game's matchup. *)
Definition matchups_table (games_df : list game_row)
           (league_df : list (chart_row * option string))
  : HelperError + list (string * string) :=
  applyE (fun g => bindE (find_matchup games_df g) (fun m => inr (g, m)))
         (group_keys (map (fun ra => chart_GAME_ID (fst ra)) league_df)).

(** Line 100: [league_df.merge(matchups_table, on='GAME_ID')], an inner
    join as pandas 1.5 computes it: the joined rows come grouped by key,
    the keys in order of first appearance in the left table and the left
    rows of one key in table order (pandas 2.2 and later keep the left row
    order instead). *)
Definition merge_on_game_id (league_df : list (chart_row * option string))
           (matchups : list (string * string))
  : list (chart_row * option string * string) :=
  flat_map (fun ra =>
              map (fun gm => (ra, snd gm))
                  (filter (fun gm => String.eqb (chart_GAME_ID (fst ra)) (fst gm))
                          matchups))
           (rows_by_first_appearance (fun ra => chart_GAME_ID (fst ra))
                                     league_df).

(** Lines 102-104: the defense of each row and the four returned columns. *)
Definition defended_row (x : chart_row * option string * string)
  : HelperError + league_shot :=
  bindE (find_defense (snd (fst x)) (snd x))
        (fun d => inr {| DEF := d;
                         league_LOC := chart_LOC (fst (fst x));
                         league_SHOT_MADE_FLAG := chart_SHOT_MADE_FLAG (fst (fst x)) |}).

(** Lines 57-104, from the two fetched tables.  The [season] and
    [context_measure_simple] arguments are not read. *)
Definition get_league_shot_loc_data (games_df : list game_row)
           (league_shots : list chart_row) : HelperError + list league_shot :=
  match with_team_abrv league_shots with
  | [] => on_empty_frame
  | league_df =>
      bindE (matchups_table games_df league_df)
            (fun matchups => applyE defended_row (merge_on_game_id league_df matchups))
  end.

End Helpers.

End NbaApi.

(* ================================================================= *)
(** * Notions used by the statements about grouped tables *)

(** Strictly increasing game identifiers. *)
Definition keys_increasing (keys : list string) : Prop :=
  StronglySorted (fun a b => String.ltb a b = true) keys.

(** The number of rows of a table whose key is [g]. *)
Definition rows_of_key {A} (key : A -> string) (g : string) (rows : list A) : nat :=
  length (filter (fun r => String.eqb (key r) g) rows).

(* ================================================================= *)
(** * Concrete inputs for the data helpers and the tables *)

Module MoreExamples.

Import NbaApi.

(** A team list with two franchises. *)
Definition teams (name : string) : list team_info :=
  if String.eqb name "Boston Celtics"%string
  then [{| abbreviation := "BOS"%string |}]
  else if String.eqb name "New York Knicks"%string
       then [{| abbreviation := "NYK"%string |}]
       else [].

(** The log lists a game once for each of its two teams. *)
Definition games_df : list game_row :=
  [ {| game_GAME_ID := "0022200001"%string; MATCHUP := "BOS vs. NYK"%string |};
    {| game_GAME_ID := "0022200001"%string; MATCHUP := "NYK @ BOS"%string |} ].

(** A shot chart: a league-average row, then one shot of each team. *)
Definition chart : list chart_row :=
  [ {| GRID_TYPE := "League Averages"%string;
       chart_GAME_ID := ""%string; TEAM_NAME := ""%string;
       chart_LOC := (Num 0, Num 0); chart_SHOT_MADE_FLAG := false |};
    {| GRID_TYPE := "Shot Chart Detail"%string;
       chart_GAME_ID := "0022200001"%string;
       TEAM_NAME := "Boston Celtics"%string;
       chart_LOC := (Num 0, Num 250); chart_SHOT_MADE_FLAG := true |};
    {| GRID_TYPE := "Shot Chart Detail"%string;
       chart_GAME_ID := "0022200001"%string;
       TEAM_NAME := " New York Knicks"%string;
       chart_LOC := (Num 1, Num 240); chart_SHOT_MADE_FLAG := false |} ].

(** The chart with one more shot, of a game the log does not list. *)
Definition chart_with_unlisted_game : list chart_row :=
  chart ++
  [ {| GRID_TYPE := "Shot Chart Detail"%string;
       chart_GAME_ID := "0022200009"%string;
       TEAM_NAME := "Boston Celtics"%string;
       chart_LOC := (Num 2, Num 230); chart_SHOT_MADE_FLAG := true |} ].

(** A log of two games and a chart whose shots of the first game are
    separated by a shot of the second. *)
Definition two_games_df : list game_row :=
  [ {| game_GAME_ID := "0022200001"%string; MATCHUP := "BOS vs. NYK"%string |};
    {| game_GAME_ID := "0022200002"%string; MATCHUP := "NYK vs. BOS"%string |};
    {| game_GAME_ID := "0022200001"%string; MATCHUP := "NYK @ BOS"%string |} ].

Definition interleaved_chart : list chart_row :=
  [ {| GRID_TYPE := "Shot Chart Detail"%string;
       chart_GAME_ID := "0022200001"%string;
       TEAM_NAME := "Boston Celtics"%string;
       chart_LOC := (Num 0, Num 250); chart_SHOT_MADE_FLAG := true |};
    {| GRID_TYPE := "Shot Chart Detail"%string;
       chart_GAME_ID := "0022200002"%string;
       TEAM_NAME := "New York Knicks"%string;
       chart_LOC := (Num 1, Num 240); chart_SHOT_MADE_FLAG := false |};
    {| GRID_TYPE := "Shot Chart Detail"%string;
       chart_GAME_ID := "0022200001"%string;
       TEAM_NAME := "New York Knicks"%string;
       chart_LOC := (Num 2, Num 230); chart_SHOT_MADE_FLAG := true |} ].

(** What the helper returns on [two_games_df] and [interleaved_chart]: the
    two shots of the first game, then the shot of the second. *)
Definition interleaved_rows : list league_shot :=
  [ {| DEF := Some "NYK"%string; league_LOC := (Num 0, Num 250);
       league_SHOT_MADE_FLAG := true |};
    {| DEF := Some "BOS"%string; league_LOC := (Num 2, Num 230);
       league_SHOT_MADE_FLAG := true |};
    {| DEF := Some "BOS"%string; league_LOC := (Num 1, Num 240);
       league_SHOT_MADE_FLAG := false |} ].

(** Twenty attempts of one player, five in each of four games. *)
Definition season_threes : list player_shot :=
  map (fun i =>
         {| GAME_ID := nth (i / 5)
                           ["0022200001"%string; "0022200002"%string;
                            "0022200003"%string; "0022200004"%string]
                           ""%string;
            LOC := (of_nat (i mod 3), of_nat (230 + i));
            SHOT_MADE_FLAG := Nat.even i |})
      (seq 0 20).

(** The shots one defense allowed, with a make and at least as many misses
    in each of three zones. *)
Definition regular_opponent : list labelled_shot :=
  Examples.shots 0 1 1 ++ Examples.shots 1 1 2 ++ Examples.shots 2 2 3.

(** A league table whose shots all were defended by one team. *)
Definition one_defense : list league_shot :=
  [ {| DEF := Some "BOS"%string; league_LOC := (Num 0, Num 250);
       league_SHOT_MADE_FLAG := true |};
    {| DEF := Some "BOS"%string; league_LOC := (Num 1, Num 240);
       league_SHOT_MADE_FLAG := false |};
    {| DEF := Some "BOS"%string; league_LOC := (Num 1, Num 245);
       league_SHOT_MADE_FLAG := true |} ].

(** Mean test scores of four candidates: two share the best score and one
    failed. *)
Definition scores : list (candidate * float) :=
  [ ((spherical, 3), Num (-5)); ((tied, 4), Num (-2));
    ((diag, 5), NaN); ((full, 6), Num (-2)) ].

End MoreExamples.

(* ================================================================= *)
(** * Facts about float64 arithmetic *)

Unset Implicit Arguments.

Module FloatFacts.

Lemma Qred_inject_Z (z : Z) : Qred (inject_Z z) = inject_Z z.
Proof.
  apply Qcanon.Qred_identity. simpl. apply Z.gcd_1_r.
Qed.

Lemma Qred_eq (p q : Q) : (p == q)%Q -> Qred q = q -> Qred p = q.
Proof.
  intros Hpq Hq. rewrite <- Hq. now apply Qred_complete.
Qed.

Lemma Qzerob_true (q : Q) : Qzerob q = true <-> (q == 0)%Q.
Proof.
  unfold Qzerob, Qeq. destruct q as [n d]; simpl.
  rewrite Z.eqb_eq. lia.
Qed.


Lemma Qnegb_false (q : Q) : Qnegb q = false <-> (0 <= q)%Q.
Proof.
  unfold Qnegb, Qle. destruct q as [n d]; simpl.
  rewrite Z.ltb_ge. lia.
Qed.

Ltac canonical_cases :=
  unfold fmul_inf, inf;
  repeat match goal with
         | |- context [if ?b then _ else _] => destruct b
         end;
  cbn [canonical]; try exact I; try apply Qcanon.Qred_involutive.

Lemma canonical_fadd x y : canonical (fadd x y).
Proof. destruct x, y; cbn [fadd]; canonical_cases. Qed.

Lemma canonical_fmul x y : canonical (fmul x y).
Proof. destruct x, y; cbn [fmul]; canonical_cases. Qed.

Lemma canonical_fdiv x y : canonical (fdiv x y).
Proof.
  destruct x, y; cbn [fdiv]; canonical_cases; reflexivity.
Qed.

Lemma canonical_of_Z z : canonical (of_Z z).
Proof. apply Qred_inject_Z. Qed.

Lemma in_unitb_true (x : float) : in_unitb x = true <-> in_unit x.
Proof.
  unfold in_unitb, in_unit. destruct x; simpl; try (split; [discriminate | tauto]).
  rewrite andb_true_iff, !Qle_bool_iff. tauto.
Qed.

Lemma in_unitb_false (x : float) : in_unitb x = false <-> ~ in_unit x.
Proof.
  rewrite <- in_unitb_true. destruct (in_unitb x); intuition congruence.
Qed.

(** A ratio of counts [m / t] with [0 < m <= t]. *)
Lemma fdiv_counts (m t : nat) :
  0 < m -> m <= t ->
  exists q, fdiv (of_nat m) (of_nat t) = Num q
            /\ (q == inject_Z (Z.of_nat m) / inject_Z (Z.of_nat t))%Q
            /\ (0 < q <= 1)%Q.
Proof.
  intros Hm Hmt. unfold of_nat, of_Z, fdiv.
  assert (Ht : Qzerob (inject_Z (Z.of_nat t)) = false).
  { unfold Qzerob; simpl. apply Z.eqb_neq. lia. }
  rewrite Ht. eexists. split; [reflexivity|].
  split; [apply Qred_correct|].
  rewrite Qred_correct.
  assert (H0 : (0 < inject_Z (Z.of_nat t))%Q)
    by (unfold Qlt; simpl; lia).
  assert (H1 : (0 < inject_Z (Z.of_nat m))%Q)
    by (unfold Qlt; simpl; lia).
  assert (H2 : (inject_Z (Z.of_nat m) <= inject_Z (Z.of_nat t))%Q)
    by (unfold Qle; simpl; lia).
  split.
  - apply Qlt_shift_div_l; [assumption|]. now rewrite Qmult_0_l.
  - apply Qle_shift_div_r; [assumption|]. now rewrite Qmult_1_l.
Qed.

End FloatFacts.
Import FloatFacts.

(* ================================================================= *)
(** * Facts about the zone tables *)

Module PandasFacts.

Lemma filter_flat_map {A B} (p : B -> bool) (g : A -> list B) (l : list A) :
  filter p (flat_map g l) = flat_map (fun a => filter p (g a)) l.
Proof.
  induction l as [|a l IH]; simpl; [reflexivity|].
  now rewrite filter_app, IH.
Qed.

Lemma filter_snd_combine {A B} (p : B -> bool) (l1 : list A) (l2 : list B) :
  length l1 = length l2 ->
  map snd (filter (fun lr => p (snd lr)) (combine l1 l2)) = filter p l2.
Proof.
  revert l2. induction l1 as [|a l1 IH]; intros [|b l2] Hlen;
    simpl in *; try discriminate; [reflexivity|].
  destruct (p b); simpl; rewrite IH by congruence; reflexivity.
Qed.

Lemma find_on_snd {A B} (p : B -> bool) (l : list (A * B)) :
  option_map snd (find (fun lr => p (snd lr)) l) = find p (map snd l).
Proof.
  induction l as [|[a b] l IH]; simpl; [reflexivity|].
  destruct (p b); [reflexivity | exact IH].
Qed.

Lemma filter_made_group df c :
  filter vc_flag (group_value_counts df c) = made_row_if_any df c.
Proof.
  unfold group_value_counts, made_row_if_any, made_row, count_total.
  destruct (count_made c df) as [|m], (count_missed c df) as [|x];
    cbv beta zeta iota; try reflexivity.
  destruct (S x <? S m); reflexivity.
Qed.

(** The made rows, without their labels: one per zone with a make, in
    increasing zone order. *)
Lemma made_rows_rows df :
  map snd (made_rows df) = flat_map (made_row_if_any df) (seq 0 (key_bound df)).
Proof.
  unfold made_rows, reset_index.
  rewrite filter_snd_combine by apply length_seq.
  unfold value_counts_normalize. rewrite filter_flat_map.
  apply flat_map_ext. intros c. apply filter_made_group.
Qed.

Ltac bool_lia :=
  rewrite ?Nat.leb_le, ?Nat.leb_gt, ?Nat.ltb_lt, ?Nat.ltb_ge,
    ?Nat.eqb_eq, ?Nat.eqb_neq in *; lia.

Lemma in_range_step (a k n : nat) :
  a <> k -> (a <=? k) && (k <? a + S n) = (S a <=? k) && (k <? S a + n).
Proof.
  intros Hne.
  destruct (a <=? k) eqn:E1, (k <? a + S n) eqn:E2,
           (S a <=? k) eqn:E3, (k <? S a + n) eqn:E4;
    try reflexivity; exfalso; bool_lia.
Qed.

Lemma find_made_row df k a n :
  find (fun r => vc_cluster r =? k) (flat_map (made_row_if_any df) (seq a n))
  = if (a <=? k) && (k <? a + n) && (0 <? count_made k df)
    then Some (made_row df k) else None.
Proof.
  revert a. induction n as [|n IH]; intros a; cbn [seq flat_map find].
  - destruct (a <=? k) eqn:E1, (k <? a + 0) eqn:E2; try reflexivity.
    exfalso; bool_lia.
  - destruct (Nat.eq_dec a k) as [->|Hne].
    + unfold made_row_if_any at 1.
      destruct (0 <? count_made k df) eqn:Hm.
      * cbn [app find made_row vc_cluster]. rewrite Nat.eqb_refl.
        replace (k <=? k) with true by (symmetry; bool_lia).
        replace (k <? k + S n) with true by (symmetry; bool_lia).
        reflexivity.
      * cbn [app]. rewrite IH. now rewrite !andb_false_r.
    + rewrite (in_range_step a k n Hne), <- IH.
      unfold made_row_if_any at 1.
      destruct (0 <? count_made a df); cbn [app find made_row vc_cluster];
        [|reflexivity].
      replace (a =? k) with false by (symmetry; bool_lia).
      reflexivity.
Qed.

Lemma count_flag_bound flag df k :
  0 < count_flag flag k df -> k < key_bound df.
Proof.
  unfold count_flag. induction df as [|r df IH]; [simpl; lia|].
  change (key_bound (r :: df)) with (Nat.max (S (cluster r)) (key_bound df)).
  cbn [filter]. destruct (cluster r =? k) eqn:Hk; cbn [andb].
  - apply Nat.eqb_eq in Hk. intros _. lia.
  - intros H. apply IH in H. lia.
Qed.

(** The table's entry for a zone: the ratio when the zone has a make, no
    entry otherwise. *)
Lemma rate_of_zone_eq df k :
  rate_of_zone df k
  = if 0 <? count_made k df
    then Some (fdiv (of_nat (count_made k df)) (of_nat (count_total k df)))
    else None.
Proof.
  unfold rate_of_zone.
  transitivity
    (option_map fg_percent
       (option_map snd
          (find (fun lr : nat * vc_row => vc_cluster (snd lr) =? k)
                (made_rows df)))).
  { destruct (find _ (made_rows df)); reflexivity. }
  rewrite (find_on_snd (fun r => vc_cluster r =? k)), made_rows_rows,
    find_made_row.
  destruct (0 <? count_made k df) eqn:Hm.
  - apply Nat.ltb_lt in Hm.
    pose proof (count_flag_bound true df k Hm) as Hb.
    replace (k <? 0 + key_bound df) with true
      by (symmetry; apply Nat.ltb_lt; lia).
    reflexivity.
  - now rewrite andb_false_r.
Qed.

Lemma values_fg_percent df :
  values (fg_percent_by_cluster df)
  = map fg_percent (flat_map (made_row_if_any df) (seq 0 (key_bound df))).
Proof.
  unfold values, fg_percent_by_cluster.
  rewrite map_map. simpl. rewrite <- made_rows_rows, map_map. reflexivity.
Qed.

End PandasFacts.
Import PandasFacts.

(* ================================================================= *)
(** * Zone rates (C2) and the defensive adjustment (C4) *)

(** C2, as stated, fails: zone 1 of three has no observed shot and the
    table holds no entry for it, where the specification wants an explicit
    NaN marker. *)
Lemma zone_table_has_no_marker_for_empty_zone :
  ~ spec_zone_table 3 Examples.empty_middle_zone.
Proof.
  intros H. assert (Hk : 1 < 3) by lia. specialize (H 1 Hk).
  vm_compute in H. discriminate H.
Qed.

(** C2, amended: a zone with at least one made shot has an entry equal to
    made count over total count, a number in (0,1]; a zone with no observed
    shot has no entry at all, neither a NaN marker nor a numeric 0; and every
    value of the table is a number in [0,1]. *)
Theorem zone_rates_of_observed_makes (df : list labelled_shot) :
  (forall k, 0 < count_made k df ->
     exists q, rate_of_zone df k = Some (Num q)
               /\ (q == inject_Z (Z.of_nat (count_made k df))
                        / inject_Z (Z.of_nat (count_total k df)))%Q
               /\ (0 < q <= 1)%Q)
  /\ (forall k, count_total k df = 0 -> rate_of_zone df k = None)
  /\ Forall in_unit (values (fg_percent_by_cluster df)).
Proof.
  split; [|split].
  - intros k Hk. rewrite rate_of_zone_eq.
    replace (0 <? count_made k df) with true by (symmetry; now apply Nat.ltb_lt).
    destruct (@fdiv_counts (count_made k df) (count_total k df)) as (q & Hq & Hv & Hr);
      [assumption | unfold count_total; lia |].
    exists q. rewrite Hq. auto.
  - intros k Hk. rewrite rate_of_zone_eq.
    unfold count_total in Hk.
    replace (0 <? count_made k df) with false
      by (symmetry; apply Nat.ltb_ge; lia).
    reflexivity.
  - rewrite values_fg_percent. apply Forall_forall. intros x Hx.
    apply in_map_iff in Hx. destruct Hx as (r & <- & Hr).
    apply in_flat_map in Hr. destruct Hr as (c & _ & Hr).
    unfold made_row_if_any in Hr.
    destruct (0 <? count_made c df) eqn:Hm; [|contradiction].
    destruct Hr as [<-|[]]. apply Nat.ltb_lt in Hm.
    destruct (@fdiv_counts (count_made c df) (count_total c df)) as (q & Hq & _ & Hr);
      [assumption | unfold count_total; lia |].
    cbn [made_row fg_percent]. rewrite Hq. cbn [in_unit].
    split; [apply Qlt_le_weak|]; apply Hr.
Qed.

(** C4 on a concrete league of three zones in which the opponent allowed no
    shot in zone 0.  The opponent's made rows carry the labels 1 and 3, the
    league's the labels 1, 3 and 5, and the division pairs equal labels: the
    first entry divides the opponent's zone-1 rate by the league's zone-0
    rate, the second the opponent's zone-2 rate by the league's zone-1 rate,
    the third is NaN.  Paired by zone, the entries are NaN, 7/6 and 6/5. *)
Theorem def_adjustment_pairs_row_labels :
  fg_percent_by_cluster Examples.opponent_shots
  = [(1, Num (1 # 3)); (3, Num (2 # 5))]
  /\ fg_percent_by_cluster Examples.league_shots
     = [(1, Num (1 # 3)); (3, Num (2 # 7)); (5, Num (1 # 3))]
  /\ def_adjustment Examples.opponent_shots Examples.league_shots
     = [(1, Num 1); (3, Num (7 # 5)); (5, NaN)]
  /\ map (spec_adjustment Examples.opponent_shots Examples.league_shots)
         [0; 1; 2]
     = [NaN; Num (7 # 6); Num (6 # 5)].
Proof.
  repeat split; vm_compute; reflexivity.
Qed.

(* ================================================================= *)
(** * Facts about computations *)

Section MonadFacts.

Context {RNG : Type}.

Lemma bind_returns {A B} [m : M RNG A] (k : A -> M RNG B) [w a w1] :
  m w = (inr a, w1) -> bind m k w = k a w1.
Proof. intros H. unfold bind. now rewrite H. Qed.

Lemma bind_raises {A B} [m : M RNG A] (k : A -> M RNG B) [w e w1] :
  m w = (inl e, w1) -> bind m k w = (inl e, w1).
Proof. intros H. unfold bind. now rewrite H. Qed.

Lemma bind_inv {A B} (m : M RNG A) (k : A -> M RNG B) w b w' :
  bind m k w = (inr b, w') ->
  exists a w1, m w = (inr a, w1) /\ k a w1 = (inr b, w').
Proof.
  unfold bind. destruct (m w) as [[e|a] w1]; intros H; [discriminate|].
  now exists a, w1.
Qed.

(** [mapM] returns exactly when every call returns, one result per
    element. *)
Lemma mapM_inv {A B} (f : A -> M RNG B) (l : list A) w bs w' :
  mapM f l w = (inr bs, w') ->
  Forall2 (fun a b => exists w1 w2, f a w1 = (inr b, w2)) l bs.
Proof.
  revert w bs. induction l as [|a l IH]; intros w bs H; cbn [mapM] in H.
  - inversion H. constructor.
  - apply bind_inv in H. destruct H as (b & w1 & Hb & H).
    apply bind_inv in H. destruct H as (bs' & w2 & Hbs & H).
    inversion H; subst. constructor; eauto.
Qed.

Lemma mapM_total {A B} (f : A -> M RNG B) (P : B -> Prop) (l : list A) :
  (forall a w, In a l -> exists b w', f a w = (inr b, w') /\ P b) ->
  forall w, exists bs w',
    mapM f l w = (inr bs, w') /\ length bs = length l /\ Forall P bs.
Proof.
  induction l as [|a l IH]; intros Hf w; cbn [mapM].
  - exists [], w. repeat split. constructor.
  - destruct (Hf a w (or_introl eq_refl)) as (b & w1 & Hb & HP).
    destruct (IH (fun a' w' Hin => Hf a' w' (or_intror Hin)) w1)
      as (bs & w2 & Hbs & Hlen & HPs).
    exists (b :: bs), w2.
    rewrite (bind_returns _ Hb), (bind_returns _ Hbs).
    repeat split; [simpl; congruence | now constructor].
Qed.

Lemma replicateM_total {A} (body : M RNG A) (P : A -> Prop) (n : nat) :
  (forall w, exists a w', body w = (inr a, w') /\ P a) ->
  forall w, exists l w',
    replicateM n body w = (inr l, w') /\ length l = n /\ Forall P l.
Proof.
  intros Hbody. induction n as [|n IH]; intros w; cbn [replicateM].
  - exists [], w. repeat split. constructor.
  - destruct (Hbody w) as (a & w1 & Ha & HP).
    destruct (IH w1) as (l & w2 & Hl & Hlen & HPl).
    exists (a :: l), w2.
    rewrite (bind_returns _ Ha), (bind_returns _ Hl).
    repeat split; [simpl; congruence | now constructor].
Qed.

End MonadFacts.

(* ================================================================= *)
(** * Facts about the simulated game *)

Section GameFacts.

Context {RNG : Type}.
Variable np : NumpyRandom RNG.

Lemma binomial_in_domain n p w :
  in_unitb p = true ->
  np_random_binomial np n p w
  = (inr (fst (binomial np (rng w) n p)),
     mkWorld (snd (binomial np (rng w) n p)) (calls w ++ [CallBinomial n p])).
Proof.
  intros Hp. unfold np_random_binomial, bind, log, draw. cbn [rng calls].
  rewrite Hp. cbn [rng calls]. now destruct (binomial np (rng w) n p).
Qed.

Lemma binomial_out_of_domain n p w :
  in_unitb p = false ->
  np_random_binomial np n p w
  = (inl ProbOutOfDomain, mkWorld (rng w) (calls w ++ [CallBinomial n p])).
Proof.
  intros Hp. unfold np_random_binomial, bind, log, raise. now rewrite Hp.
Qed.

(** Without clamping, one probability outside [0,1] makes the whole
    vectorised draw raise. *)
Lemma mapM_binomial_raises n ps w :
  Exists (fun p => in_unitb p = false) ps ->
  fst (mapM (np_random_binomial np n) ps w) = inl ProbOutOfDomain.
Proof.
  intros Hex. revert w. induction Hex as [p ps Hp | p ps Hex IH]; intros w;
    cbn [mapM].
  - now rewrite (bind_raises _ (binomial_out_of_domain n p w Hp)).
  - destruct (in_unitb p) eqn:Hp.
    + rewrite (bind_returns _ (binomial_in_domain n p w Hp)).
      unfold bind at 1. specialize (IH (mkWorld (snd (binomial np (rng w) n p))
                                               (calls w ++ [CallBinomial n p]))).
      destruct (mapM _ ps _) as [[e|bs] w1]; cbn [fst] in *; congruence.
    + now rewrite (bind_raises _ (binomial_out_of_domain n p w Hp)).
Qed.

Lemma vectorize_binomial_raises ps w :
  Exists (fun p => in_unitb p = false) ps ->
  fst (vectorize_binomial np ps w) = inl ProbOutOfDomain.
Proof.
  intros Hex. destruct ps as [|p0 ps]; [inversion Hex|].
  unfold vectorize_binomial.
  destruct (in_unitb p0) eqn:Hp.
  - rewrite (bind_returns _ (binomial_in_domain 1 p0 w Hp)).
    now apply mapM_binomial_raises.
  - now rewrite (bind_raises _ (binomial_out_of_domain 1 p0 w Hp)).
Qed.

Lemma binomial_returns_inv n p w b w' :
  np_random_binomial np n p w = (inr b, w') ->
  b = fst (binomial np (rng w) n p).
Proof.
  destruct (in_unitb p) eqn:Hp.
  - rewrite (binomial_in_domain n p w Hp). congruence.
  - rewrite (binomial_out_of_domain n p w Hp). discriminate.
Qed.

Lemma normal_returns loc scale w :
  flt scale (Num 0) = false ->
  np_random_normal np loc scale w
  = (inr (fst (normal np (rng w) loc scale)),
     mkWorld (snd (normal np (rng w) loc scale))
             (calls w ++ [CallNormal loc scale])).
Proof.
  intros Hs. unfold np_random_normal, bind, log, draw.
  rewrite Hs. cbn [rng calls]. now destruct (normal np (rng w) loc scale).
Qed.

Lemma normal_returns_inv loc scale w lam w1 :
  np_random_normal np loc scale w = (inr lam, w1) ->
  lam = fst (normal np (rng w) loc scale)
  /\ w1 = mkWorld (snd (normal np (rng w) loc scale))
                  (calls w ++ [CallNormal loc scale]).
Proof.
  destruct (flt scale (Num 0)) eqn:Hs.
  - unfold np_random_normal, bind, log, raise. rewrite Hs. discriminate.
  - rewrite (normal_returns loc scale w Hs). intros H.
    inversion H. auto.
Qed.

Lemma poisson_returns lam w :
  lam_in_domain np lam = true ->
  np_random_poisson np lam w
  = (inr (fst (poisson np (rng w) lam)),
     mkWorld (snd (poisson np (rng w) lam)) (calls w ++ [CallPoisson lam])).
Proof.
  intros Hl. unfold np_random_poisson, bind, log, draw.
  rewrite Hl. cbn [rng calls]. now destruct (poisson np (rng w) lam).
Qed.

Lemma poisson_raises lam w :
  lam_in_domain np lam = false ->
  np_random_poisson np lam w
  = (inl LamOutOfDomain, mkWorld (rng w) (calls w ++ [CallPoisson lam])).
Proof.
  intros Hl. unfold np_random_poisson, bind, log, raise. now rewrite Hl.
Qed.

Lemma poisson_returns_inv lam w fga w1 :
  np_random_poisson np lam w = (inr fga, w1) ->
  fga = fst (poisson np (rng w) lam)
  /\ w1 = mkWorld (snd (poisson np (rng w) lam)) (calls w ++ [CallPoisson lam]).
Proof.
  destruct (lam_in_domain np lam) eqn:Hl.
  - rewrite (poisson_returns lam w Hl). intros H. inversion H. auto.
  - rewrite (poisson_raises lam w Hl). discriminate.
Qed.

Lemma sum_Z_bounds (l : list Z) :
  Forall (fun o => (0 <= o <= 1)%Z) l ->
  (0 <= sum_Z l <= Z.of_nat (length l))%Z.
Proof.
  induction 1 as [|o l Ho _ IH]; cbn [sum_Z fold_right length].
  - lia.
  - fold (sum_Z l). lia.
Qed.

(** A blend of rates in [0,1] by non-negative weights is non-negative and
    at most the total weight. *)
Lemma fdot_bounds (u v : list float) :
  length u = length v ->
  Forall in_unit u ->
  Forall (fun p => exists q, p = Num q /\ (0 <= q)%Q) v ->
  exists s t, fdot u v = Num s /\ fsum v = Num t /\ (0 <= s <= t)%Q.
Proof.
  revert v. induction u as [|a u IH]; intros [|b v] Hlen Hu Hv;
    try discriminate.
  - exists 0%Q, 0%Q. repeat split; apply Qle_refl.
  - inversion Hu as [|? ? Ha Hu']; subst.
    inversion Hv as [|? ? Hb Hv']; subst.
    destruct Hb as (qb & -> & Hqb).
    destruct a as [qa| | |]; try contradiction. cbn [in_unit] in Ha.
    destruct (IH v) as (s & t & Hs & Ht & Hst); [simpl in Hlen; congruence|assumption..|].
    exists (Qred (Qred (qa * qb) + s)), (Qred (qb + t)).
    cbn [fdot fsum fold_right]. fold (fsum v). rewrite Hs, Ht.
    repeat split; rewrite !Qred_correct; nra.
Qed.

Lemma fdot_in_unit (u v : list float) :
  length u = length v ->
  Forall in_unit u ->
  Forall (fun p => exists q, p = Num q /\ (0 <= q)%Q) v ->
  fsum v = Num 1 ->
  in_unit (fdot u v).
Proof.
  intros Hlen Hu Hv Hsum.
  destruct (fdot_bounds u v Hlen Hu Hv) as (s & t & Hs & Ht & Hst).
  rewrite Hs. rewrite Ht in Hsum. inversion Hsum; subst. exact Hst.
Qed.

End GameFacts.

(* ================================================================= *)
(** * The simulated game (C3, C6) *)

Section GameClaims.

Context {RNG : Type}.
Variable np : NumpyRandom RNG.
Variable model : GaussianMixture.
Variable player_rates : list float.
Variable adjustment : Series.
Variables mu sigma : float.

Let game := simulate_game np model player_rates adjustment mu sigma.
Let games := simulate_games np model player_rates adjustment mu sigma.

Lemma game_after_attempt_draws w lam w1 fga w2 :
  np_random_normal np mu sigma w = (inr lam, w1) ->
  np_random_poisson np lam w1 = (inr fga, w2) ->
  game w
  = (if (fga =? 0)%Z then ret 0%Z
     else
       sampled_shot_locs <- model_sample model fga ;;
       weighted <- weighted_fg_percent model player_rates adjustment
                                       sampled_shot_locs ;;
       fgm_i <- vectorize_binomial np weighted ;;
       ret (sum_Z fgm_i)) w2.
Proof.
  intros Hn Hp. unfold game, simulate_game.
  rewrite (bind_returns _ Hn), (bind_returns _ Hp). reflexivity.
Qed.

(** C6: when the drawn attempt count is 0 the game is worth 0 and ends
    with the Poisson draw: the world it leaves is the one right after that
    draw, whose log gained the two attempt draws and nothing else (no
    [sample], no [predict_proba], no [binomial]); the loop appends the 0
    and goes on from there. *)
Theorem zero_attempts_end_the_game w lam w1 w2 :
  np_random_normal np mu sigma w = (inr lam, w1) ->
  np_random_poisson np lam w1 = (inr 0%Z, w2) ->
  simulate_game np model player_rates adjustment mu sigma w = (inr 0%Z, w2)
  /\ calls w2 = calls w ++ [CallNormal mu sigma; CallPoisson lam]
  /\ forall n fg3m_s,
      simulate_games np model player_rates adjustment mu sigma (S n) fg3m_s w
      = simulate_games np model player_rates adjustment mu sigma n
                       (fg3m_s ++ [0%Z]) w2.
Proof.
  intros Hn Hp.
  assert (Hgame : game w = (inr 0%Z, w2))
    by (rewrite (game_after_attempt_draws w lam w1 0%Z w2 Hn Hp); reflexivity).
  split; [exact Hgame|]. split.
  - apply normal_returns_inv in Hn. destruct Hn as [_ ->].
    apply poisson_returns_inv in Hp. destruct Hp as [_ ->].
    cbn [calls]. now rewrite <- app_assoc.
  - intros n fg3m_s. cbn [simulate_games].
    fold game. now rewrite (bind_returns _ Hgame).
Qed.

Lemma weighted_length locs (w : World RNG) ps w' :
  weighted_fg_percent model player_rates adjustment locs w = (inr ps, w') ->
  length ps = length locs.
Proof.
  unfold weighted_fg_percent. intros H.
  apply bind_inv in H. destruct H as (adjusted & w1 & _ & H).
  apply bind_inv in H. destruct H as (proba & w2 & Hproba & H).
  unfold model_predict_proba, bind, log, ret in Hproba.
  inversion Hproba; subst. unfold lift, np_dot in H.
  destruct (length (values adjusted) =? n_components model); inversion H.
  now rewrite !length_map.
Qed.

Lemma vectorize_outcomes ps w outs w' :
  NumpyRandomSpec np ->
  vectorize_binomial np ps w = (inr outs, w') ->
  length outs = length ps /\ Forall (fun o => (0 <= o <= 1)%Z) outs.
Proof.
  intros Hnp H. destruct ps as [|p0 ps]; [discriminate|].
  unfold vectorize_binomial in H.
  apply bind_inv in H. destruct H as (_ & w1 & _ & H).
  apply mapM_inv in H. split.
  - symmetry. eapply Forall2_length; eassumption.
  - induction H as [|p o l outs' (wa & wb & Ho) _ IH]; constructor; auto.
    apply binomial_returns_inv in Ho. subst o.
    apply (binomial_range Hnp). lia.
Qed.

(** C3, amended: nothing clamps.  When the probabilities computed for a
    game's shots include one outside [0,1] (NaN included), the binomial
    draw raises its domain error, the game raises it, and so does the
    loop. *)
Theorem probability_out_of_range_raises w lam w1 fga w2 locs w3 ps w4 :
  np_random_normal np mu sigma w = (inr lam, w1) ->
  np_random_poisson np lam w1 = (inr fga, w2) ->
  fga <> 0%Z ->
  model_sample model fga w2 = (inr locs, w3) ->
  weighted_fg_percent model player_rates adjustment locs w3 = (inr ps, w4) ->
  Exists (fun p => ~ in_unit p) ps ->
  fst (simulate_game np model player_rates adjustment mu sigma w)
  = inl ProbOutOfDomain
  /\ forall n fg3m_s,
      fst (simulate_games np model player_rates adjustment mu sigma
                          (S n) fg3m_s w)
      = inl ProbOutOfDomain.
Proof.
  intros Hn Hp Hfga Hlocs Hps Hex.
  assert (Hgame : fst (game w) = inl ProbOutOfDomain).
  { rewrite (game_after_attempt_draws w lam w1 fga w2 Hn Hp).
    replace (fga =? 0)%Z with false by (symmetry; now apply Z.eqb_neq).
    rewrite (bind_returns _ Hlocs), (bind_returns _ Hps).
    assert (Hv : fst (vectorize_binomial np ps w4) = inl ProbOutOfDomain).
    { apply vectorize_binomial_raises.
      eapply Exists_impl; [|exact Hex]. intros p. apply in_unitb_false. }
    unfold bind. destruct (vectorize_binomial np ps w4) as [[e|outs] w5];
      cbn [fst] in *; congruence. }
  split; [exact Hgame|].
  intros n fg3m_s. cbn [simulate_games]. fold game. unfold bind.
  destruct (game w) as [[e|made] w5]; cbn [fst] in *; congruence.
Qed.

Lemma weighted_fg_percent_eq adjusted locs (w : World RNG) :
  ndarray_mul_series player_rates adjustment = inr adjusted ->
  length adjusted = n_components model ->
  weighted_fg_percent model player_rates adjustment locs w
  = (inr (map (fun x => fdot (values adjusted) (predict_proba (fitted model) x))
              locs),
     mkWorld (rng w) (calls w ++ [CallPredictProba (length locs)])).
Proof.
  intros Hadj Hlen. unfold weighted_fg_percent, bind, lift at 1.
  rewrite Hadj. unfold model_predict_proba, bind, log, ret, lift, np_dot.
  unfold values at 1. rewrite length_map, Hlen, Nat.eqb_refl.
  now rewrite map_map.
Qed.

Lemma vectorize_binomial_returns ps w :
  NumpyRandomSpec np ->
  ps <> [] ->
  Forall (fun p => in_unitb p = true) ps ->
  exists outs w',
    vectorize_binomial np ps w = (inr outs, w')
    /\ length outs = length ps
    /\ Forall (fun o => (0 <= o <= 1)%Z) outs.
Proof.
  intros Hnp Hne Hps. destruct ps as [|p0 ps']; [congruence|].
  unfold vectorize_binomial.
  rewrite (bind_returns _ (binomial_in_domain np 1 p0 w (Forall_inv Hps))).
  apply mapM_total. intros p wp Hin. rewrite Forall_forall in Hps.
  rewrite (binomial_in_domain np 1 p wp (Hps p Hin)).
  eexists _, _. split; [reflexivity|].
  apply (binomial_range Hnp). lia.
Qed.

(** Whatever a game returns is a non-negative count. *)
Lemma game_count_nonneg w made w' :
  NumpyRandomSpec np ->
  game w = (inr made, w') -> (0 <= made)%Z.
Proof.
  intros Hnp Hgame. unfold game, simulate_game in Hgame.
  apply bind_inv in Hgame. destruct Hgame as (lam & w1 & _ & Hgame).
  apply bind_inv in Hgame. destruct Hgame as (fga & w2 & _ & Hgame).
  destruct (fga =? 0)%Z.
  - inversion Hgame. lia.
  - apply bind_inv in Hgame. destruct Hgame as (locs & w3 & _ & Hgame).
    apply bind_inv in Hgame. destruct Hgame as (ps & w4 & _ & Hgame).
    apply bind_inv in Hgame. destruct Hgame as (outs & w5 & Houts & Hgame).
    inversion Hgame; subst.
    destruct (vectorize_outcomes ps w4 outs w' Hnp Houts) as [_ Hrange].
    apply (sum_Z_bounds outs Hrange).
Qed.

(** The loop appends one count per game. *)
Lemma games_result_shape n :
  NumpyRandomSpec np ->
  forall fg3m_s w res w',
    games n fg3m_s w = (inr res, w') ->
    length res = length fg3m_s + n
    /\ (Forall (fun made => (0 <= made)%Z) fg3m_s ->
        Forall (fun made => (0 <= made)%Z) res).
Proof.
  intros Hnp. induction n as [|n IH]; intros fg3m_s w res w' H;
    unfold games in H; cbn [simulate_games] in H.
  - inversion H; subst. split; [lia | auto].
  - apply bind_inv in H. destruct H as (made & w1 & Hgame & H).
    apply IH in H. destruct H as [Hlen Hnn].
    rewrite length_app in Hlen. cbn [length] in Hlen. split; [lia|].
    intros Hacc. apply Hnn, Forall_app. split; [assumption|].
    constructor; [|constructor]. exact (game_count_nonneg w made w1 Hnp Hgame).
Qed.

(** [simulate(0)] is the empty result, whatever the tables hold. *)
Lemma simulate_no_game N (w : World RNG) :
  (N <= 0)%Z ->
  simulate np model player_rates adjustment mu sigma N w = (inr [], w).
Proof.
  intros HN. unfold simulate.
  replace (Z.to_nat N) with 0 by lia. reflexivity.
Qed.

End GameClaims.

(* ================================================================= *)
(** * The effective make probability (C1) *)

Section Blend.

Lemma fadd_NaN_r x : fadd x NaN = NaN.
Proof. now destruct x. Qed.

Lemma fdot_NaN (u v : list float) :
  length u = length v ->
  Exists (fun a => a = NaN) u ->
  fdot u v = NaN.
Proof.
  intros Hlen Hex. revert v Hlen.
  induction Hex as [a u -> | a u _ IH]; intros [|b v] Hlen;
    try discriminate; cbn [fdot].
  - reflexivity.
  - rewrite IH by (simpl in Hlen; congruence). apply fadd_NaN_r.
Qed.

Lemma fmul_one (a : float) :
  finite_canonical a -> fmul a (Num 1) = a.
Proof.
  intros [Hf Hc]. destruct a as [q| | |]; try discriminate. cbn [fmul].
  f_equal. apply Qred_eq; [ring | exact Hc].
Qed.

Lemma fmul_zero (a : float) :
  is_finite a = true -> fmul a (Num 0) = Num 0.
Proof.
  intros Hf. destruct a as [q| | |]; try discriminate. cbn [fmul].
  f_equal. apply Qred_eq; [ring | reflexivity].
Qed.

Lemma fadd_zero_r (a : float) :
  finite_canonical a -> fadd a (Num 0) = a.
Proof.
  intros [Hf Hc]. destruct a as [q| | |]; try discriminate. cbn [fadd].
  f_equal. apply Qred_eq; [ring | exact Hc].
Qed.

Lemma fadd_zero_l (a : float) :
  finite_canonical a -> fadd (Num 0) a = a.
Proof.
  intros [Hf Hc]. destruct a as [q| | |]; try discriminate. cbn [fadd].
  f_equal. apply Qred_eq; [ring | exact Hc].
Qed.

(** Against indicator weights the inner product picks one entry. *)
Lemma fdot_indicator (u : list float) (z a : nat) :
  Forall finite_canonical u ->
  fdot u (map (fun k => if k =? z then Num 1 else Num 0) (seq a (length u)))
  = if (a <=? z) && (z <? a + length u) then nth (z - a) u NaN else Num 0.
Proof.
  intros Hu. revert a. induction Hu as [|x u Hx Hu IH]; intros a;
    cbn [length seq map fdot].
  - destruct (a <=? z) eqn:E1, (z <? a + 0) eqn:E2; try reflexivity.
    exfalso; bool_lia.
  - rewrite IH. destruct (Nat.eq_dec a z) as [->|Hne].
    + rewrite Nat.eqb_refl, (fmul_one x Hx).
      replace (S z <=? z) with false by (symmetry; apply Nat.leb_gt; lia).
      replace (z <=? z) with true by (symmetry; apply Nat.leb_le; lia).
      replace (z <? z + S (length u)) with true
        by (symmetry; apply Nat.ltb_lt; lia).
      rewrite Nat.sub_diag. cbn [andb nth]. now apply fadd_zero_r.
    + replace (a =? z) with false by (symmetry; apply Nat.eqb_neq; lia).
      rewrite (fmul_zero x (proj1 Hx)), <- (in_range_step a z (length u) Hne).
      destruct ((a <=? z) && (z <? a + S (length u))) eqn:Hin.
      * apply andb_true_iff in Hin. destruct Hin as [H1 H2].
        apply Nat.leb_le in H1. apply Nat.ltb_lt in H2.
        replace (z - a) with (S (z - S a)) by lia. cbn [nth].
        apply fadd_zero_l.
        rewrite Forall_forall in Hu. apply Hu, nth_In. lia.
      * reflexivity.
Qed.

Lemma fdot_one_hot (u : list float) (z : nat) :
  Forall finite_canonical u -> z < length u ->
  fdot u (one_hot (length u) z) = nth z u NaN.
Proof.
  intros Hu Hz. unfold one_hot. rewrite (fdot_indicator u z 0 Hu).
  replace (z <? 0 + length u) with true by (symmetry; apply Nat.ltb_lt; lia).
  now rewrite Nat.sub_0_r.
Qed.

Lemma ndarray_mul_series_same_length (v : list float) (s : Series) :
  length v = length s ->
  ndarray_mul_series v s
  = inr (map (fun xe => (fst (snd xe), fmul (fst xe) (snd (snd xe))))
             (combine v s)).
Proof.
  intros Hlen. unfold ndarray_mul_series. now rewrite Hlen, Nat.eqb_refl.
Qed.

Lemma values_same_length (v : list float) (s : Series) :
  values (map (fun xe => (fst (snd xe), fmul (fst xe) (snd (snd xe))))
              (combine v s))
  = adjusted_rates v s.
Proof.
  unfold values, adjusted_rates. rewrite map_map. cbn [snd].
  revert s. induction v as [|x v IH]; intros [|[l y] s]; cbn; try reflexivity.
  now rewrite IH.
Qed.

Lemma nth_adjusted_rates (v : list float) (s : Series) (z : nat) :
  length v = length s -> z < length v ->
  nth z (adjusted_rates v s) NaN = fmul (nth z v NaN) (nth z (values s) NaN).
Proof.
  unfold adjusted_rates, values. revert s z.
  induction v as [|x v IH]; intros [|[l y] s] z Hlen Hz;
    simpl in Hlen, Hz; try lia; try discriminate.
  destruct z as [|z]; cbn [combine map nth fst snd]; [reflexivity|].
  apply IH; [congruence | lia].
Qed.

Lemma canonical_adjusted_rates (v : list float) (s : Series) :
  Forall canonical (adjusted_rates v s).
Proof.
  unfold adjusted_rates. apply Forall_forall. intros a Ha.
  apply in_map_iff in Ha. destruct Ha as (ra & <- & _). apply canonical_fmul.
Qed.

End Blend.

(** C1, as stated, fails: the point lies in zone 0 with probability 1.0 and
    zone 0's adjusted rate is 1, but the adjustment of zone 1 is undefined
    and [NaN * 0.0] is NaN, so the effective probability is NaN. *)
Lemma undefined_zone_poisons_one_hot_shot :
  ~ spec_one_hot_probability (Scripted.model 2)
      [Num 1; Num (1 # 2)] [(1, Num 1); (3, NaN)] (Num 0, Num 0) 0.
Proof.
  intros H. specialize (H eq_refl). vm_compute in H. discriminate H.
Qed.

(** C1, amended: with a rate and an adjustment for each of the K zones, the
    effective make probability of every sampled coordinate is the inner
    product of the vector (rate x adjustment) with the coordinate's
    membership vector.  For a coordinate that lies in one zone with
    probability 1.0 it is exactly that zone's adjusted rate provided every
    zone's adjusted rate is a finite number; one undefined adjusted rate
    makes every effective probability NaN. *)
Theorem effective_probability_is_zone_blend
        {RNG : Type} (model : GaussianMixture) (player_rates : list float)
        (adjustment : Series) (locs : list point) (w : World RNG) :
  length player_rates = n_components model ->
  length adjustment = n_components model ->
  fst (weighted_fg_percent model player_rates adjustment locs w)
  = inr (map (fun x => fdot (adjusted_rates player_rates adjustment)
                            (predict_proba (fitted model) x))
             locs)
  /\ (forall x z,
        z < n_components model ->
        predict_proba (fitted model) x = one_hot (n_components model) z ->
        Forall (fun a => is_finite a = true)
               (adjusted_rates player_rates adjustment) ->
        fdot (adjusted_rates player_rates adjustment)
             (predict_proba (fitted model) x)
        = fmul (nth z player_rates NaN) (nth z (values adjustment) NaN))
  /\ (forall x,
        length (predict_proba (fitted model) x) = n_components model ->
        Exists (fun a => a = NaN) (adjusted_rates player_rates adjustment) ->
        fdot (adjusted_rates player_rates adjustment)
             (predict_proba (fitted model) x)
        = NaN).
Proof.
  intros Hr Ha.
  assert (Hlen : length player_rates = length adjustment) by congruence.
  assert (Hadj_len : length (adjusted_rates player_rates adjustment)
                     = n_components model).
  { unfold adjusted_rates, values.
    rewrite length_map, length_combine, length_map. lia. }
  split; [|split].
  - rewrite (weighted_fg_percent_eq model player_rates adjustment _ locs w
               (ndarray_mul_series_same_length _ _ Hlen)).
    + cbn [fst]. now rewrite values_same_length.
    + rewrite length_map, length_combine. lia.
  - intros x z Hz Hx Hfin. rewrite Hx, <- Hadj_len.
    rewrite fdot_one_hot.
    + apply nth_adjusted_rates; [assumption | lia].
    + pose proof (canonical_adjusted_rates player_rates adjustment) as Hc.
      rewrite Forall_forall in *. intros a Hin. split; auto.
    + lia.
  - intros x Hx Hex. apply fdot_NaN; [congruence | assumption].
Qed.

(* ================================================================= *)
(** * The attempt-volume estimator (C7) *)

Section Bootstrap.

Context {RNG : Type}.
Variable np : NumpyRandom RNG.

(** What the code draws for one resample is the specification's resample,
    also for an empty input. *)
Lemma choice_draws (data : list Z) w :
  np_random_choice np data (length data) w
  = (inr (fst (spec_resample np data (rng w))),
     mkWorld (snd (spec_resample np data (rng w)))
             (calls w ++ [CallChoice (length data)])).
Proof.
  destruct data as [|d data]; [reflexivity|].
  unfold np_random_choice, bind, log, draw, ret, spec_resample.
  cbn [length rng calls].
  destruct (randint np (rng w) (S (length data)) (S (length data)));
    reflexivity.
Qed.

Lemma resample_mean_draws (data : list Z) w :
  resample_mean np data w
  = (inr (fmean (map of_Z (fst (spec_resample np data (rng w))))),
     mkWorld (snd (spec_resample np data (rng w)))
             (calls w ++ [CallChoice (length data)])).
Proof.
  unfold resample_mean. now rewrite (bind_returns _ (choice_draws data w)).
Qed.


Hypothesis Hnp : NumpyRandomSpec np.

(** A resample is as long as the input and made of its elements. *)
Lemma spec_resample_shape (data : list Z) (g : RNG) :
  length (fst (spec_resample np data g)) = length data
  /\ incl (fst (spec_resample np data g)) data.
Proof.
  destruct data as [|d data]; [split; [reflexivity | intros x []]|].
  unfold spec_resample. cbv zeta. cbn [fst].
  pose proof (randint_length Hnp g (length (d :: data)) (length (d :: data))) as Hl.
  pose proof (randint_range Hnp g (length (d :: data))
                            (Nat.lt_0_succ (length data))) as Hr.
  split; [now rewrite length_map|].
  intros x Hx. apply in_map_iff in Hx. destruct Hx as (i & <- & Hi).
  rewrite Forall_forall in Hr. apply nth_In. now apply Hr.
Qed.


Lemma resample_mean_returns (data : list Z) w :
  data <> [] ->
  exists m w',
    resample_mean np data w = (inr m, w')
    /\ exists r, (length r = length data /\ incl r data)
                 /\ m = fmean (map of_Z r).
Proof.
  intros _. eexists _, _. split; [apply resample_mean_draws|].
  eexists. split; [apply spec_resample_shape | reflexivity].
Qed.





End Bootstrap.

(* ================================================================= *)
(** * Model selection (C8) *)

Section Selection.

Context {RNG : Type}.
Variable sk : MixtureLibrary RNG.

Lemma mapM_related {A B} (f : A -> M RNG B) (R : A -> B -> Prop) (l : list A) :
  (forall a w, exists b w', f a w = (inr b, w') /\ R a b) ->
  forall w, exists bs w', mapM f l w = (inr bs, w') /\ Forall2 R l bs.
Proof.
  intros Hf. induction l as [|a l IH]; intros w; cbn [mapM].
  - exists [], w. split; [reflexivity | constructor].
  - destruct (Hf a w) as (b & w1 & Hb & HR).
    destruct (IH w1) as (bs & w2 & Hbs & HRs).
    exists (b :: bs), w2.
    rewrite (bind_returns _ Hb), (bind_returns _ Hbs).
    split; [reflexivity | now constructor].
Qed.












Lemma ranks_before_irrefl a : ranks_before a a = false.
Proof.
  destruct a; cbn [ranks_before flt fle negb]; try reflexivity.
  apply negb_false_iff, Qle_bool_iff, Qle_refl.
Qed.

Lemma flt_trans a b c : flt a b = true -> flt b c = true -> flt a c = true.
Proof.
  destruct a as [x| | |], b as [y| | |], c as [z| | |];
    cbn [flt fle negb]; try congruence; try reflexivity.
  rewrite !negb_true_iff, <- !not_true_iff_false, !Qle_bool_iff.
  intros H1 H2 H3. apply H1. apply Qnot_lt_le. intros H4.
  apply H2. apply Qlt_le_weak. apply Qnot_le_lt in H1.
  eapply Qle_lt_trans; eassumption.
Qed.

Lemma ranks_before_trans a b c :
  ranks_before a b = true -> ranks_before b c = true ->
  ranks_before a c = true.
Proof.
  destruct a as [x| | |], b as [y| | |], c as [z| | |];
    cbn [ranks_before]; try congruence; try reflexivity;
    intros H1 H2; eapply flt_trans; eassumption.
Qed.




End Selection.


(* ================================================================= *)
(** * The scripted instance meets the library contracts *)

Module ScriptedFacts.

Import Scripted.

Lemma next_indices_length g high size :
  length (fst (next_indices g high size)) = size.
Proof.
  revert g. induction size as [|size IH]; intros g; cbn [next_indices].
  - reflexivity.
  - destruct (next g) as [z g1]. specialize (IH g1).
    destruct (next_indices g1 high size) as [rest g2].
    cbn [fst length] in *. congruence.
Qed.

Lemma next_indices_range g high size :
  0 < high -> Forall (fun i => i < high) (fst (next_indices g high size)).
Proof.
  intros Hh. revert g. induction size as [|size IH]; intros g;
    cbn [next_indices].
  - constructor.
  - destruct (next g) as [z g1]. specialize (IH g1).
    destruct (next_indices g1 high size) as [rest g2].
    cbn [fst] in *. constructor; [|assumption].
    pose proof (Z.mod_pos_bound z (Z.of_nat high)). lia.
Qed.

Lemma np_spec : NumpyRandomSpec np.
Proof.
  constructor; cbn [randint poisson binomial Qsqrt np].
  - apply next_indices_length.
  - apply next_indices_range.
  - intros g lam. unfold scripted_poisson. destruct (next g). cbn [fst]. lia.
  - intros g n p Hn. unfold scripted_binomial. destruct (next g) as [z g'].
    cbn [fst]. pose proof (Z.mod_pos_bound z (n + 1)). lia.
  - reflexivity.
Qed.

Lemma zone_of_bound K x : 0 < K -> zone_of K x < K.
Proof.
  intros HK. unfold zone_of. destruct (fst x); try assumption.
  pose proof (Z.mod_pos_bound (Qfloor q) (Z.of_nat K)). lia.
Qed.

Lemma one_hot_nonneg K z :
  Forall (fun p => exists q, p = Num q /\ (0 <= q)%Q) (one_hot K z).
Proof.
  unfold one_hot. apply Forall_forall. intros p Hp.
  apply in_map_iff in Hp. destruct Hp as (k & <- & _).
  destruct (k =? z); eexists; (split; [reflexivity|]); discriminate.
Qed.

(** Three zones. *)
Lemma model_spec : MixtureSpec (model 3).
Proof.
  constructor; cbn [model fitted n_components zone_mixture sample predict_proba].
  - intros n. now rewrite length_map, length_seq.
  - intros x. unfold one_hot. now rewrite length_map, length_seq.
  - intros x. apply one_hot_nonneg.
  - intros x. pose proof (zone_of_bound 3 x (Nat.lt_0_succ 2)) as Hz.
    destruct (zone_of 3 x) as [|[|[|z]]]; [reflexivity..|lia].
Qed.

(** With scale 0 the scripted normal draw is its location. *)
Lemma normal_scale_zero g (c : Z) :
  fst (scripted_normal g (of_Z c) (Num 0)) = of_Z c.
Proof.
  unfold scripted_normal. destruct (next g) as [z g']. cbn [fst].
  unfold of_Z. cbn [fmul fadd]. f_equal.
  apply Qred_eq; [|apply Qred_inject_Z].
  rewrite Qred_correct. ring.
Qed.

End ScriptedFacts.

(* ================================================================= *)
(** * The claims on concrete runs *)

Module Runs.

Import Scripted Examples.

(** C3, as stated, fails: zone 0 has rate 1 and adjustment 2, the first
    sampled shot lies in zone 0, its effective probability is 2, and the
    game raises instead of drawing with a clamped probability. *)
Lemma inflated_rate_is_not_clamped :
  ~ spec_game_returns np (model 3) rates inflated (Num 5) (Num 0)
      (start [0; 2; 1; 1; 1]%Z).
Proof.
  intros (made & w' & H). vm_compute in H. discriminate H.
Qed.

(** C5, as stated, fails: the latent rate drawn for the first game is
    negative, the Poisson draw raises, and no result of length 1 comes
    back. *)
Lemma negative_rate_yields_no_result :
  ~ spec_simulation_result np (model 3) rates adjustment (Num 5) (Num 1)
      1 (start [-6]%Z).
Proof.
  intros (res & w' & H & _). vm_compute in H. discriminate H.
Qed.

Lemma effective_probability_witness :
  fst (weighted_fg_percent (model 3) rates adjustment
                           [(Num 0, Num 250); (Num 1, Num 240)] (start []))
  = inr [Num 1; Num (1 # 4)].
Proof.
  exact (proj1 (effective_probability_is_zone_blend
                  (model 3) rates adjustment
                  [(Num 0, Num 250); (Num 1, Num 240)] (start [])
                  eq_refl eq_refl)).
Defined.

Lemma out_of_range_witness :
  fst (simulate_game np (model 3) rates inflated (Num 5) (Num 0)
                     (start [0; 2; 1; 1; 1]%Z))
  = inl ProbOutOfDomain.
Proof.
  eapply proj1, probability_out_of_range_raises.
  - reflexivity.
  - reflexivity.
  - discriminate.
  - reflexivity.
  - reflexivity.
  - apply Exists_cons_hd. intros [_ H]. apply H. reflexivity.
Defined.

Lemma zero_attempts_witness :
  simulate_game np (model 3) rates adjustment (Num 5) (Num 0)
                (start [0; 0; 7]%Z)
  = (inr 0%Z,
     mkWorld [7%Z] [CallNormal (Num 5) (Num 0); CallPoisson (Num 5)]).
Proof.
  eapply proj1, zero_attempts_end_the_game; reflexivity.
Defined.



(** C10, as stated, fails: a game with two attempts makes three
    Bernoulli draws, the first of them a probe whose outcome is dropped. *)
Lemma two_shots_take_three_draws :
  ~ spec_one_draw_per_shot np (model 3) rates adjustment (Num 5) (Num 0)
      (start [0; 2; 1; 1; 0]%Z).
Proof.
  intros H.
  specialize (H 1%Z
                (mkWorld []
                   [CallNormal (Num 5) (Num 0); CallPoisson (Num 5);
                    CallSample 2; CallPredictProba 2;
                    CallBinomial 1 (Num 1); CallBinomial 1 (Num 1);
                    CallBinomial 1 (Num (1 # 4))])
                eq_refl).
  vm_compute in H. discriminate H.
Qed.

End Runs.

(* ================================================================= *)
(** * Facts about Python strings *)

Module TextFacts.

Import Text.

Lemma split_blank (s : string) : split s = [] <-> blank s = true.
Proof.
induction s as [|c s IH]; cbn [split blank]; [tauto|].
destruct (is_space c); cbn [andb]; [exact IH|].
split; [|discriminate].
destruct (starts_word s); [destruct (split s)|]; discriminate.
Qed.

Lemma split_word (w : string) : is_word w = true -> split w = [w].
Proof.
induction w as [|c w IH]; [discriminate|].
cbn [is_word spaceless split]. intros H. apply andb_true_iff in H.
destruct H as [Hc Hw]. apply negb_true_iff in Hc. rewrite Hc.
destruct w as [|c' w'].
- reflexivity.
- assert (Hc' : is_space c' = false).
  { cbn [spaceless] in Hw. apply andb_true_iff in Hw.
    now apply negb_true_iff. }
  cbn [starts_word]. rewrite Hc'. cbn [negb].
  rewrite IH by exact Hw. reflexivity.
Qed.

(** A word followed by whitespace is the first token of the string. *)
Lemma split_word_then_space (w : string) (c : Ascii.ascii) (s : string) :
  is_word w = true -> is_space c = true ->
  split (String.append w (String.String c s)) = w :: split s.
Proof.
intros Hw Hc. induction w as [|a w IH]; [discriminate|].
cbn [is_word spaceless] in Hw. apply andb_true_iff in Hw.
destruct Hw as [Ha Hw]. apply negb_true_iff in Ha.
cbn [String.append split]. rewrite Ha.
destruct w as [|a' w'].
- cbn [String.append starts_word split]. rewrite Hc. reflexivity.
- assert (Ha' : is_space a' = false).
  { cbn [spaceless] in Hw. apply andb_true_iff in Hw.
    now apply negb_true_iff. }
  cbn [String.append starts_word]. rewrite Ha'. cbn [negb].
  cbn [String.append] in IH. rewrite IH by exact Hw. reflexivity.
Qed.

Lemma split_three_words (a sep b : string) :
  is_word a = true -> is_word sep = true -> is_word b = true ->
  split (String.append a (String.String " "%char
           (String.append sep (String.String " "%char b))))
  = [a; sep; b].
Proof.
intros Ha Hsep Hb.
rewrite (split_word_then_space a " "%char _ Ha eq_refl).
rewrite (split_word_then_space sep " "%char _ Hsep eq_refl).
now rewrite (split_word b Hb).
Qed.

Lemma lstrip_blank_prefix (pad s : string) :
  blank pad = true -> lstrip (String.append pad s) = lstrip s.
Proof.
induction pad as [|c pad IH]; cbn [blank String.append lstrip]; [reflexivity|].
intros H. apply andb_true_iff in H. destruct H as [Hc Hpad].
rewrite Hc. now apply IH.
Qed.

Lemma rstrip_blank (pad : string) : blank pad = true -> rstrip pad = String.EmptyString.
Proof.
induction pad as [|c pad IH]; cbn [blank rstrip]; [reflexivity|].
intros H. apply andb_true_iff in H. destruct H as [Hc Hpad].
now rewrite (IH Hpad), Hc.
Qed.

Lemma rstrip_blank_suffix (s pad : string) :
  blank pad = true -> rstrip (String.append s pad) = rstrip s.
Proof.
intros Hpad. induction s as [|c s IH]; cbn [String.append rstrip].
- now apply rstrip_blank.
- now rewrite IH.
Qed.

Lemma lstrip_blank (pad : string) : blank pad = true -> lstrip pad = String.EmptyString.
Proof.
induction pad as [|c pad IH]; cbn [blank lstrip]; [reflexivity|].
intros H. apply andb_true_iff in H. destruct H as [Hc Hpad].
rewrite Hc. now apply IH.
Qed.

Lemma lstrip_append (s pad : string) :
  blank pad = true ->
  lstrip (String.append s pad)
  = match lstrip s with
    | String.EmptyString => String.EmptyString
    | t => String.append t pad
    end.
Proof.
intros Hpad. induction s as [|c s IH]; cbn [String.append lstrip].
- now apply lstrip_blank.
- destruct (is_space c); [exact IH | reflexivity].
Qed.

(** Whitespace around a string does not survive [strip]. *)
Lemma strip_padding (pad1 s pad2 : string) :
  blank pad1 = true -> blank pad2 = true ->
  strip (String.append pad1 (String.append s pad2)) = strip s.
Proof.
intros H1 H2. unfold strip.
rewrite (lstrip_blank_prefix pad1 _ H1), (lstrip_append s pad2 H2).
destruct (lstrip s) as [|c t] eqn:E; [reflexivity|].
now rewrite (rstrip_blank_suffix (String.String c t) pad2 H2).
Qed.

End TextFacts.

(* ================================================================= *)
(** * Facts about group keys *)

Module GroupFacts.

Lemma ltb_lts (a b : string) :
  String.ltb a b = true <-> OrderedTypeEx.String_as_OT.lt a b.
Proof.
unfold String.ltb. rewrite <- OrderedTypeEx.String_as_OT.cmp_lt.
unfold OrderedTypeEx.String_as_OT.cmp.
destruct (String.compare a b); split; congruence.
Qed.

Lemma ltb_trans (a b c : string) :
  String.ltb a b = true -> String.ltb b c = true -> String.ltb a c = true.
Proof.
rewrite !ltb_lts. apply OrderedTypeEx.String_as_OT.lt_trans.
Qed.

Lemma ltb_irrefl (a : string) : String.ltb a a = false.
Proof.
destruct (String.ltb a a) eqn:E; [|reflexivity].
apply ltb_lts in E. apply OrderedTypeEx.String_as_OT.lt_not_eq in E.
exfalso. apply E. reflexivity.
Qed.

Lemma ltb_total (a b : string) :
  String.eqb a b = false -> String.ltb a b = false -> String.ltb b a = true.
Proof.
intros Hne Hlt. unfold String.ltb in *.
rewrite String.compare_antisym.
destruct (String.compare a b) eqn:E; try discriminate; [|reflexivity].
apply String.compare_eq_iff in E. subst. now rewrite String.eqb_refl in Hne.
Qed.

Lemma insert_key_In (k x : string) (keys : list string) :
  In x (insert_key k keys) <-> x = k \/ In x keys.
Proof.
induction keys as [|k' keys IH]; cbn [insert_key In].
- intuition.
- destruct (String.eqb k k') eqn:E.
  + apply String.eqb_eq in E. subst. cbn [In]. intuition.
  + destruct (String.ltb k k'); cbn [In]; rewrite ?IH; intuition.
Qed.

Lemma insert_key_increasing (k : string) (keys : list string) :
  keys_increasing keys -> keys_increasing (insert_key k keys).
Proof.
unfold keys_increasing.
induction 1 as [|k' keys Hs IH Hall]; cbn [insert_key].
- repeat constructor.
- destruct (String.eqb k k') eqn:E; [now constructor|].
  destruct (String.ltb k k') eqn:L.
  + constructor; [now constructor|]. constructor; [exact L|].
    eapply Forall_impl; [|exact Hall]. intros x Hx. now apply (ltb_trans k k' x).
  + constructor; [exact IH|]. apply Forall_forall. intros x Hx.
    apply insert_key_In in Hx. destruct Hx as [->|Hx].
    * now apply ltb_total.
    * rewrite Forall_forall in Hall. now apply Hall.
Qed.

Lemma group_keys_increasing (col : list string) : keys_increasing (group_keys col).
Proof.
induction col as [|k col IH]; cbn [group_keys fold_right].
- constructor.
- now apply insert_key_increasing.
Qed.

Lemma group_keys_In (col : list string) (x : string) :
  In x (group_keys col) <-> In x col.
Proof.
induction col as [|k col IH]; cbn [group_keys fold_right In]; [tauto|].
fold (group_keys col). rewrite insert_key_In, IH. intuition.
Qed.

Lemma increasing_NoDup (keys : list string) : keys_increasing keys -> NoDup keys.
Proof.
induction 1 as [|k keys Hs IH Hall]; constructor; [|exact IH].
intros Hin. rewrite Forall_forall in Hall. specialize (Hall k Hin).
now rewrite ltb_irrefl in Hall.
Qed.

Lemma group_keys_NoDup (col : list string) : NoDup (group_keys col).
Proof. apply increasing_NoDup, group_keys_increasing. Qed.

Lemma rows_of_key_cons {A} (key : A -> string) (g : string) (r : A) (rows : list A) :
  rows_of_key key g (r :: rows)
  = (if String.eqb (key r) g then 1 else 0) + rows_of_key key g rows.
Proof.
unfold rows_of_key. cbn [filter]. now destruct (String.eqb (key r) g).
Qed.

Lemma one_more_row {A} (key : A -> string) (r : A) (rows : list A) (keys : list string) :
  NoDup keys ->
  fold_right Nat.add 0 (map (fun g => rows_of_key key g (r :: rows)) keys)
  = (if existsb (String.eqb (key r)) keys then 1 else 0)
    + fold_right Nat.add 0 (map (fun g => rows_of_key key g rows) keys).
Proof.
induction 1 as [|g keys Hnotin Hnd IH]; [reflexivity|].
cbn [map fold_right existsb]. rewrite IH, rows_of_key_cons.
destruct (String.eqb (key r) g) eqn:E; cbn [orb]; [|lia].
apply String.eqb_eq in E. subst g.
replace (existsb (String.eqb (key r)) keys) with false; [lia|].
symmetry. apply not_true_iff_false. intros Hex.
apply existsb_exists in Hex. destruct Hex as (x & Hx & Hxe).
apply String.eqb_eq in Hxe. subst x. contradiction.
Qed.

(** Rows fall into the groups of their keys: the group sizes add up to the
    number of rows. *)
Lemma group_sizes_add_up {A} (key : A -> string) (rows : list A) (keys : list string) :
  NoDup keys ->
  (forall r, In r rows -> In (key r) keys) ->
  fold_right Nat.add 0 (map (fun g => rows_of_key key g rows) keys)
  = length rows.
Proof.
intros Hnd. induction rows as [|r rows IH]; intros Hcov.
- clear. induction keys as [|g keys IHk]; cbn; auto.
- rewrite (one_more_row key r rows keys Hnd),
    (IH (fun x Hx => Hcov x (or_intror Hx))).
  replace (existsb (String.eqb (key r)) keys) with true; [reflexivity|].
  symmetry. apply existsb_exists. exists (key r).
  split; [apply Hcov; now left | apply String.eqb_refl].
Qed.

Lemma first_appearances_In (x : string) (keys : list string) :
  In x (first_appearances keys) <-> In x keys.
Proof.
induction keys as [|k keys IH]; cbn [first_appearances In]; [tauto|].
rewrite filter_In, IH, negb_true_iff. split.
- intros [H|[H _]]; auto.
- intros [H|H]; [now left|].
  destruct (String.eqb x k) eqn:E; [left; symmetry; now apply String.eqb_eq|].
  right. now split.
Qed.

Lemma first_appearances_NoDup (keys : list string) :
  NoDup (first_appearances keys).
Proof.
induction keys as [|k keys IH]; cbn [first_appearances]; constructor.
- rewrite filter_In, String.eqb_refl. intros [_ H]. discriminate H.
- now apply NoDup_filter.
Qed.

Lemma flat_map_agree {A B} (f g : A -> list B) (l : list A) :
  (forall a, In a l -> f a = g a) -> flat_map f l = flat_map g l.
Proof.
induction l as [|a l IH]; intros H; [reflexivity|]. cbn [flat_map].
rewrite (H a (or_introl eq_refl)), IH; [reflexivity|].
intros b Hb. apply H. now right.
Qed.

(** Grouping the rows by key along distinct keys that cover them only
    reorders them. *)
Lemma grouped_rows_perm {A} (key : A -> string) (rows : list A) :
  forall keys,
    NoDup keys -> (forall r, In r rows -> In (key r) keys) ->
    Permutation (flat_map (fun g => filter (fun r => String.eqb (key r) g) rows)
                          keys)
                rows.
Proof.
induction rows as [|r rows IH]; intros keys Hnd Hcov.
- induction keys as [|k keys IHk]; [constructor|]. cbn [flat_map filter app].
  apply IHk; [now inversion Hnd | intros x []].
- destruct (in_split (key r) keys (Hcov r (or_introl eq_refl)))
    as (l1 & l2 & ->).
  apply NoDup_remove_2 in Hnd as Hnot.
  assert (Hother : forall l,
             ~ In (key r) l ->
             flat_map (fun g => filter (fun r0 => String.eqb (key r0) g) (r :: rows)) l
             = flat_map (fun g => filter (fun r0 => String.eqb (key r0) g) rows) l).
  { intros l Hl. apply flat_map_agree. intros g Hg. cbn [filter].
    destruct (String.eqb (key r) g) eqn:E; [|reflexivity].
    apply String.eqb_eq in E. subst g. contradiction. }
  rewrite flat_map_app. cbn [flat_map filter]. rewrite String.eqb_refl.
  rewrite !Hother by (intros H; apply Hnot, in_or_app; auto).
  cbn [app].
  apply Permutation_sym, Permutation_cons_app, Permutation_sym.
  specialize (IH (l1 ++ key r :: l2) Hnd
                 (fun x Hx => Hcov x (or_intror Hx))).
  rewrite flat_map_app in IH. cbn [flat_map] in IH. exact IH.
Qed.

Lemma rows_by_first_appearance_perm {A} (key : A -> string) (rows : list A) :
  Permutation (rows_by_first_appearance key rows) rows.
Proof.
apply grouped_rows_perm; [apply first_appearances_NoDup|].
intros r Hr. apply first_appearances_In. now apply in_map.
Qed.

Lemma rows_by_first_appearance_In {A} (key : A -> string) (rows : list A) (r : A) :
  In r (rows_by_first_appearance key rows) <-> In r rows.
Proof.
split; apply Permutation_in;
  [|apply Permutation_sym]; apply rows_by_first_appearance_perm.
Qed.

Lemma filter_map_swap {A B} (p : B -> bool) (g : A -> B) (l : list A) :
  filter p (map g l) = map g (filter (fun a => p (g a)) l).
Proof.
induction l as [|a l IH]; [reflexivity|]. cbn [map filter].
destruct (p (g a)); cbn [map]; now rewrite IH.
Qed.

(** Grouping commutes with adding columns that leave the key alone. *)
Lemma rows_by_first_appearance_map {A B} (key : A -> string) (key' : B -> string)
      (g : A -> B) (rows : list A) :
  (forall r, key' (g r) = key r) ->
  rows_by_first_appearance key' (map g rows)
  = map g (rows_by_first_appearance key rows).
Proof.
intros Hkey. unfold rows_by_first_appearance.
rewrite map_map, (map_ext (fun r => key' (g r)) key Hkey).
induction (first_appearances (map key rows)) as [|k keys IH]; [reflexivity|].
cbn [flat_map]. rewrite map_app, IH, filter_map_swap. f_equal. f_equal.
apply filter_ext. intros r. now rewrite Hkey.
Qed.

End GroupFacts.

(* ================================================================= *)
(** * Attempts per game (threes.py, line 47) *)

Lemma sum_Z_of_nat {A} (f : A -> nat) (l : list A) :
  sum_Z (map (fun a => Z.of_nat (f a)) l)
  = Z.of_nat (fold_right Nat.add 0 (map f l)).
Proof.
induction l as [|a l IH]; [reflexivity|].
cbn [map sum_Z fold_right]. fold (sum_Z (map (fun a => Z.of_nat (f a)) l)).
rewrite IH. lia.
Qed.

(** X1: [fga_per_game_data] holds one count per distinct game of the
    player's shots, the games in increasing identifier order; every count is
    at least 1 and the counts add up to the number of shots. *)
Theorem attempts_per_game_partition (threes : list player_shot) :
  let games := group_keys (map GAME_ID threes) in
  keys_increasing games
  /\ (forall g, In g games <-> exists r, In r threes /\ GAME_ID r = g)
  /\ fga_per_game threes
     = map (fun g => Z.of_nat (rows_of_key GAME_ID g threes)) games
  /\ Forall (fun n => (1 <= n)%Z) (fga_per_game threes)
  /\ sum_Z (fga_per_game threes) = Z.of_nat (length threes).
Proof.
cbv zeta.
assert (Hin : forall g, In g (group_keys (map GAME_ID threes))
                        <-> exists r, In r threes /\ GAME_ID r = g).
{ intros g. rewrite GroupFacts.group_keys_In, in_map_iff.
  split; intros (r & H1 & H2); exists r; auto. }
split; [apply GroupFacts.group_keys_increasing|].
split; [exact Hin|]. split; [reflexivity|]. split.
- unfold fga_per_game. apply Forall_forall. intros n Hn.
  apply in_map_iff in Hn. destruct Hn as (g & <- & Hg).
  apply Hin in Hg. destruct Hg as (r & Hr & Hg).
  assert (Hf : In r (filter (fun r0 => String.eqb (GAME_ID r0) g) threes)).
  { apply filter_In. split; [exact Hr|]. now apply String.eqb_eq. }
  destruct (filter _ threes); [contradiction | cbn [length]; lia].
- unfold fga_per_game.
  rewrite (sum_Z_of_nat (fun g => rows_of_key GAME_ID g threes)).
  f_equal. apply GroupFacts.group_sizes_add_up.
  + apply GroupFacts.group_keys_NoDup.
  + intros r Hr. apply GroupFacts.group_keys_In. now apply in_map.
Qed.

(* ================================================================= *)
(** * The data helpers (nba_api_helpers.py) *)

Section HelperFacts.

Import NbaApi.

Variable find_players_by_full_name : string -> list player_info.
Variable find_teams_by_full_name : string -> list team_info.
Variable ratio : string -> string -> Q.
Variable str : Z -> string.

Lemma find_defense_split (team_abrv : option string) (matchup : string) :
  find_defense team_abrv matchup
  = match Text.split matchup with
    | [] => inl IndexError
    | team_a :: rest =>
        if abrv_differs team_abrv team_a then inr (Some team_a)
        else if abrv_differs team_abrv (last rest team_a)
             then inr (Some (last rest team_a))
             else inr None
    end.
Proof. reflexivity. Qed.

Lemma abrv_differs_true (team_abrv : option string) (team : string) :
  abrv_differs team_abrv team = true <-> team_abrv <> Some team.
Proof.
destruct team_abrv as [a|]; cbn [abrv_differs].
- rewrite negb_true_iff. split.
  + intros E H. inversion H; subst. now rewrite String.eqb_refl in E.
  + intros H. apply not_true_iff_false. intros E.
    apply String.eqb_eq in E. subst. now apply H.
- split; [discriminate | reflexivity].
Qed.


(** X2: whatever the matchup, [find_defense] never names the shooting
    team itself, and what it names is the first or the last word of the
    matchup. *)
Theorem find_defense_is_not_own_team
        (team_abrv : option string) (matchup defense : string) :
  find_defense team_abrv matchup = inr (Some defense) ->
  team_abrv <> Some defense
  /\ exists team_a rest,
      Text.split matchup = team_a :: rest
      /\ (defense = team_a \/ defense = last rest team_a).
Proof.
rewrite find_defense_split. destruct (Text.split matchup) as [|a rest];
  [discriminate|].
destruct (abrv_differs team_abrv a) eqn:Ea.
- intros H. inversion H; subst. split; [now apply abrv_differs_true|].
  exists defense, rest. auto.
- destruct (abrv_differs team_abrv (last rest a)) eqn:Eb; [|discriminate].
  intros H. inversion H; subst. split; [now apply abrv_differs_true|].
  exists a, rest. auto.
Qed.

(** X3: on a matchup "A sep B" of two team words around a separator word
    ("vs." or "@"), the defense of A's shots is B and the defense of every
    other team's shots, B's included, is A; so is the defense of a shot
    whose team could not be resolved. *)
Theorem find_defense_on_two_team_matchup (a sep b : string) :
  Text.is_word a = true -> Text.is_word sep = true -> Text.is_word b = true ->
  a <> b ->
  let matchup := String.append a (String.String " "%char
                   (String.append sep (String.String " "%char b))) in
  find_defense (Some a) matchup = inr (Some b)
  /\ (forall team_abrv, team_abrv <> Some a ->
                        find_defense team_abrv matchup = inr (Some a)).
Proof.
intros Ha Hsep Hb Hab. cbv zeta.
rewrite !find_defense_split, (TextFacts.split_three_words a sep b Ha Hsep Hb).
cbn [last]. split.
- cbn [abrv_differs]. rewrite String.eqb_refl. cbn [negb].
  replace (String.eqb a b) with false; [reflexivity|].
  symmetry. apply not_true_iff_false. intros E.
  apply String.eqb_eq in E. contradiction.
- intros team_abrv Hne. rewrite find_defense_split.
  rewrite (TextFacts.split_three_words a sep b Ha Hsep Hb).
  apply abrv_differs_true in Hne. now rewrite Hne.
Qed.

(** X4: [find_defense] raises IndexError exactly on a matchup that is
    empty or all whitespace, and returns no team exactly when the matchup's
    first and last words both are the shooting team's abbreviation. *)
Theorem find_defense_edge_cases (team_abrv : option string) (matchup : string) :
  (find_defense team_abrv matchup = inl IndexError
   <-> Text.blank matchup = true)
  /\ (find_defense team_abrv matchup = inr None
      <-> exists team_a rest,
          Text.split matchup = team_a :: rest
          /\ team_abrv = Some team_a /\ last rest team_a = team_a).
Proof.
rewrite find_defense_split, <- TextFacts.split_blank.
destruct (Text.split matchup) as [|a rest].
- split; [tauto|]. split; [discriminate|]. intros (x & r & H & _). discriminate.
- split.
  + split; [|discriminate].
    destruct (abrv_differs team_abrv a);
      [|destruct (abrv_differs team_abrv (last rest a))]; discriminate.
  + destruct (abrv_differs team_abrv a) eqn:Ea.
    * split; [discriminate|]. intros (x & r & H & Hx & _).
      inversion H; subst. apply abrv_differs_true in Ea. contradiction.
    * destruct (abrv_differs team_abrv (last rest a)) eqn:Eb.
      -- split; [discriminate|]. intros (x & r & H & Hx & Hl).
         inversion H; subst. apply abrv_differs_true in Eb.
         rewrite Hl in Eb. contradiction.
      -- split; [|reflexivity]. intros _. exists a, rest.
         apply not_true_iff_false in Ea, Eb.
         rewrite abrv_differs_true in Ea, Eb.
         destruct team_abrv as [t|].
         ++ destruct (String.eqb t a) eqn:E1; [|exfalso; apply Ea; intros H; inversion H; subst; now rewrite String.eqb_refl in E1].
            apply String.eqb_eq in E1. subst t.
            destruct (String.eqb a (last rest a)) eqn:E2.
            ** apply String.eqb_eq in E2. auto.
            ** exfalso. apply Eb. intros H. inversion H as [H1].
               rewrite <- H1 in E2. now rewrite String.eqb_refl in E2.
         ++ exfalso. apply Ea. discriminate.
Qed.

(** The position [np.argmax] returns: inside the list, holding a largest
    value, with only smaller values in front of it. *)
Lemma argmax_from_spec (l pre : list Q) (best_i : nat) (best : Q) :
  best_i < length pre ->
  nth best_i pre 0%Q = best ->
  (forall j, j < length pre -> (nth j pre 0 <= best)%Q) ->
  (forall j, j < best_i -> (nth j pre 0 < best)%Q) ->
  let r := argmax_from best_i best (length pre) l in
  r < length (pre ++ l)
  /\ (forall j, j < length (pre ++ l) ->
                (nth j (pre ++ l) 0 <= nth r (pre ++ l) 0)%Q)
  /\ (forall j, j < r -> (nth j (pre ++ l) 0 < nth r (pre ++ l) 0)%Q).
Proof.
revert pre best_i best. induction l as [|x l IH]; intros pre best_i best Hi Hb Hmax Hfirst;
  cbn [argmax_from].
- rewrite app_nil_r. cbv zeta. rewrite Hb. auto.
- assert (Hpre : pre ++ x :: l = (pre ++ [x]) ++ l) by now rewrite <- app_assoc.
  assert (Hlen : S (length pre) = length (pre ++ [x]))
    by (rewrite length_app; simpl; lia).
  assert (Hnth_old : forall j, j < length pre ->
                               nth j (pre ++ [x]) 0%Q = nth j pre 0%Q)
    by (intros j Hj; now apply app_nth1).
  assert (Hnth_new : nth (length pre) (pre ++ [x]) 0%Q = x)
    by (rewrite app_nth2, Nat.sub_diag by lia; reflexivity).
  rewrite Hpre, Hlen. destruct (Qle_bool x best) eqn:Hx.
  + apply Qle_bool_iff in Hx. apply IH.
    * rewrite <- Hlen. lia.
    * now rewrite Hnth_old.
    * intros j Hj. rewrite <- Hlen in Hj.
      destruct (Nat.eq_dec j (length pre)) as [->|Hne].
      -- now rewrite Hnth_new.
      -- rewrite Hnth_old by lia. apply Hmax. lia.
    * intros j Hj. rewrite Hnth_old by lia. now apply Hfirst.
  + assert (Hlt : (best < x)%Q).
    { apply Qnot_le_lt. intros H. apply Qle_bool_iff in H. congruence. }
    apply IH.
    * rewrite <- Hlen. lia.
    * exact Hnth_new.
    * intros j Hj. rewrite <- Hlen in Hj.
      destruct (Nat.eq_dec j (length pre)) as [->|Hne].
      -- rewrite Hnth_new. apply Qle_refl.
      -- rewrite Hnth_old by lia. apply Qlt_le_weak.
         eapply Qle_lt_trans; [apply Hmax; lia | exact Hlt].
    * intros j Hj. rewrite Hnth_old by lia.
      eapply Qle_lt_trans; [apply Hmax; lia | exact Hlt].
Qed.

Lemma np_argmax_spec (l : list Q) :
  l <> [] ->
  np_argmax l < length l
  /\ (forall j, j < length l -> (nth j l 0 <= nth (np_argmax l) l 0)%Q)
  /\ (forall j, j < np_argmax l -> (nth j l 0 < nth (np_argmax l) l 0)%Q).
Proof.
destruct l as [|x l]; [congruence|]. intros _. cbn [np_argmax].
apply (argmax_from_spec l [x] 0 x).
- simpl. lia.
- reflexivity.
- intros j Hj. simpl in Hj. replace j with 0 by lia. apply Qle_refl.
- intros j Hj. lia.
Qed.

Lemma find_player_id_no_match (player_name : string) :
  find_players_by_full_name player_name = [] ->
  find_player_id find_players_by_full_name ratio str player_name = PyFloat NaN.
Proof. intros E. unfold find_player_id. now rewrite E. Qed.

Lemma find_player_id_choice (player_name : string)
      (m0 : player_info) (rest : list player_info) :
  find_players_by_full_name player_name = m0 :: rest ->
  exists i,
    i < length (m0 :: rest)
    /\ find_player_id find_players_by_full_name ratio str player_name
       = PyStr (str (id (nth i (m0 :: rest) m0)))
    /\ (forall j, j < length (m0 :: rest) ->
          (ratio player_name (full_name (nth j (m0 :: rest) m0))
           <= ratio player_name (full_name (nth i (m0 :: rest) m0)))%Q)
    /\ (forall j, j < i ->
          (ratio player_name (full_name (nth j (m0 :: rest) m0))
           < ratio player_name (full_name (nth i (m0 :: rest) m0)))%Q).
Proof.
intros E. unfold find_player_id. rewrite E. destruct rest as [|m1 rest].
- exists 0. cbn [length nth]. repeat split; try lia.
  intros j Hj. replace j with 0 by lia. apply Qle_refl.
- set (matches := m0 :: m1 :: rest).
  set (scores := map (fun m => ratio player_name (full_name m)) matches).
  assert (Hne : scores <> []) by discriminate.
  destruct (np_argmax_spec scores Hne) as (Hi & Hmax & Hfirst).
  assert (Hlen : length scores = length matches) by apply length_map.
  assert (Hnth : forall j, j < length matches ->
            nth j scores 0%Q = ratio player_name (full_name (nth j matches m0))).
  { intros j Hj. unfold scores.
    rewrite (nth_indep _ 0%Q (ratio player_name (full_name m0)))
      by (rewrite length_map; exact Hj).
    apply (map_nth (fun m => ratio player_name (full_name m))). }
  exists (np_argmax scores). rewrite Hlen in Hi.
  split; [exact Hi|]. split; [reflexivity|]. split.
  + intros j Hj. rewrite <- !Hnth by assumption. apply Hmax. now rewrite Hlen.
  + intros j Hj. rewrite <- !Hnth by lia. now apply Hfirst.
Qed.

(** X5: with no match [find_player_id] returns NaN; otherwise it returns
    the identifier, as a string, of a match whose similarity to the name is
    the largest among the matches, and the first such match in the list. *)
Theorem find_player_id_takes_first_closest_match (player_name : string) :
  let possible_matches := find_players_by_full_name player_name in
  let similarity m := ratio player_name (full_name m) in
  match possible_matches with
  | [] => find_player_id find_players_by_full_name ratio str player_name
          = PyFloat NaN
  | m0 :: _ =>
      exists i,
        i < length possible_matches
        /\ find_player_id find_players_by_full_name ratio str player_name
           = PyStr (str (id (nth i possible_matches m0)))
        /\ (forall j, j < length possible_matches ->
              (similarity (nth j possible_matches m0)
               <= similarity (nth i possible_matches m0))%Q)
        /\ (forall j, j < i ->
              (similarity (nth j possible_matches m0)
               < similarity (nth i possible_matches m0))%Q)
  end.
Proof.
cbv zeta.
destruct (find_players_by_full_name player_name) as [|m0 rest] eqn:E.
- now apply find_player_id_no_match.
- destruct (find_player_id_choice player_name m0 rest E) as (i & H).
  exists i. exact H.
Qed.

Section Endpoints.

Variable DataFrame : Type.
Variable Row : Type.
Variable player_game_log_frames : string -> string -> list DataFrame.
Variable common_player_team : Z -> Z.
Variable shot_chart_frames : Z -> Z -> string -> list (list Row).

(** X6: fed with what [find_player_id] returns, [get_player_game_log]
    raises TypeError exactly when no player matched the name (the NaN is not
    a string); on a match the type check passes and the log of the chosen
    player is requested. *)
Theorem game_log_of_unknown_player_is_a_type_error (player_name season : string) :
  let player_id := find_player_id find_players_by_full_name ratio str player_name in
  (get_player_game_log player_game_log_frames player_id season = inl TypeError
   <-> find_players_by_full_name player_name = [])
  /\ (find_players_by_full_name player_name <> [] ->
      exists m,
        In m (find_players_by_full_name player_name)
        /\ get_player_game_log player_game_log_frames player_id season
           = match player_game_log_frames (str (id m)) season with
             | [] => inl IndexError
             | game_log_df :: _ => inr game_log_df
             end).
Proof.
cbv zeta.
destruct (find_players_by_full_name player_name) as [|m0 rest] eqn:E.
- rewrite (find_player_id_no_match player_name E).
  cbn [get_player_game_log]. split; [tauto | congruence].
- destruct (find_player_id_choice player_name m0 rest E) as (i & Hi & -> & _).
  cbn [get_player_game_log]. split.
  + split; [|discriminate].
    destruct (player_game_log_frames _ season); discriminate.
  + intros _. exists (nth i (m0 :: rest) m0). split; [|reflexivity].
    now apply nth_In.
Qed.

(** X7: [get_player_shot_loc_data] raises IndexError exactly when no player
    matches, and otherwise charts the first match, with that player's
    current team whatever [team_id] was passed.  [find_player_id] names the
    same player when no other match is closer to the name than the first
    one; when another match is strictly closer it names a later match. *)
Theorem shot_chart_player_is_the_first_match
        (player_name : string) (team_id : Z) (context_measure_simple : string) :
  (get_player_shot_loc_data find_players_by_full_name common_player_team
                            shot_chart_frames player_name team_id
                            context_measure_simple
   = inl IndexError
   <-> find_players_by_full_name player_name = [])
  /\ forall m rest,
      find_players_by_full_name player_name = m :: rest ->
      get_player_shot_loc_data find_players_by_full_name common_player_team
                               shot_chart_frames player_name team_id
                               context_measure_simple
      = match shot_chart_frames (id m) (common_player_team (id m))
                                context_measure_simple with
        | [] => inl NoObjectsToConcatenate
        | frames => inr (concat frames)
        end
      /\ ((forall m', In m' rest ->
             (ratio player_name (full_name m')
              <= ratio player_name (full_name m))%Q) ->
          find_player_id find_players_by_full_name ratio str player_name
          = PyStr (str (id m)))
      /\ ((exists m', In m' rest
                      /\ (ratio player_name (full_name m)
                          < ratio player_name (full_name m'))%Q) ->
          exists i, 0 < i < length (m :: rest)
                    /\ find_player_id find_players_by_full_name ratio str
                                      player_name
                       = PyStr (str (id (nth i (m :: rest) m)))).
Proof.
pose proof (find_player_id_choice player_name) as H.
unfold get_player_shot_loc_data.
destruct (find_players_by_full_name player_name) as [|m0 rest0] eqn:E.
- split; [tauto|]. intros m rest Hm. discriminate.
- split.
  + split; [|discriminate].
    destruct (shot_chart_frames _ _ _); discriminate.
  + intros m rest Hm. inversion Hm; subst m0 rest0. clear Hm.
    destruct (H m rest eq_refl) as (i & Hi & Hid & Hmax & Hfirst).
    split; [reflexivity|]. split.
    * intros Hclose. rewrite Hid. destruct i as [|i]; [reflexivity|].
      exfalso. specialize (Hfirst 0 (Nat.lt_0_succ i)). cbn [nth] in Hfirst.
      assert (Hin : In (nth i rest m) rest)
        by (apply nth_In; simpl in Hi; lia).
      specialize (Hclose _ Hin).
      apply (Qlt_not_le _ _ Hfirst). exact Hclose.
    * intros (m' & Hin & Hlt). exists i. rewrite Hid.
      split; [|reflexivity]. split; [|exact Hi].
      destruct i as [|i]; [|lia]. exfalso.
      apply In_nth with (d := m) in Hin. destruct Hin as (j & Hj & Hjm).
      specialize (Hmax (S j)). cbn [nth length] in Hmax.
      rewrite Hjm in Hmax. apply (Qlt_not_le _ _ Hlt). apply Hmax. lia.
Qed.

End Endpoints.

(** X8: whitespace around a team name does not change the abbreviation
    [find_team_abrv] finds for it. *)
Theorem find_team_abrv_ignores_padding (pad1 team_name pad2 : string) :
  Text.blank pad1 = true -> Text.blank pad2 = true ->
  find_team_abrv find_teams_by_full_name
                 (String.append pad1 (String.append team_name pad2))
  = find_team_abrv find_teams_by_full_name team_name.
Proof.
intros H1 H2. unfold find_team_abrv.
now rewrite (TextFacts.strip_padding pad1 team_name pad2 H1 H2).
Qed.

End HelperFacts.

(* ================================================================= *)
(** * The league table (nba_api_helpers.py, lines 57-104) *)

Section LeagueTable.

Import NbaApi.

Variable find_teams_by_full_name : string -> list team_info.
Variable on_empty_frame : HelperError + list league_shot.

Lemma applyE_inv {A B} (f : A -> HelperError + B) (rows : list A) (out : list B) :
  applyE f rows = inr out -> Forall2 (fun a b => f a = inr b) rows out.
Proof.
revert out. induction rows as [|r rows IH]; intros out H; cbn [applyE] in H.
- inversion H. constructor.
- destruct (f r) as [e|b] eqn:Er; [discriminate|]. cbn [bindE] in H.
  destruct (applyE f rows) as [e|bs]; [discriminate|]. cbn [bindE] in H.
  inversion H; subst. constructor; auto.
Qed.

Lemma applyE_raises {A B} (f : A -> HelperError + B) (rows : list A) (e : HelperError) :
  (forall a e', f a = inl e' -> e' = e) ->
  Exists (fun a => exists e', f a = inl e') rows ->
  applyE f rows = inl e.
Proof.
intros Honly Hex. induction rows as [|r rows IH]; [inversion Hex|].
cbn [applyE]. destruct (f r) as [e'|b] eqn:Er.
- cbn [bindE]. f_equal. now apply (Honly r).
- cbn [bindE]. rewrite IH; [reflexivity|].
  inversion Hex as [? ? (e' & He')|]; subst; [congruence | assumption].
Qed.

Lemma Forall2_compose {A B C} (R1 : A -> B -> Prop) (R2 : B -> C -> Prop)
      (la : list A) (lb : list B) (lc : list C) :
  Forall2 R1 la lb -> Forall2 R2 lb lc ->
  Forall2 (fun a c => exists b, R1 a b /\ R2 b c) la lc.
Proof.
intros H1. revert lc. induction H1; intros lc H2; inversion H2; subst;
  constructor; eauto.
Qed.

(** In a table with distinct keys exactly one row answers a key it has. *)
Lemma filter_unique_key (ms : list (string * string)) (g : string) :
  NoDup (map fst ms) -> In g (map fst ms) ->
  exists m, filter (fun gm => String.eqb g (fst gm)) ms = [(g, m)]
            /\ In (g, m) ms.
Proof.
induction ms as [|[g' m'] ms IH]; intros Hnd Hin; [contradiction|].
cbn [map fst] in Hnd. inversion Hnd as [|? ? Hnotin Hnd']; subst.
cbn [filter fst]. destruct (String.eqb g g') eqn:E.
- apply String.eqb_eq in E. subst g'. exists m'. split; [|now left].
  f_equal.
  clear IH Hnd Hnd' Hin. induction ms as [|[g2 m2] ms IH2]; [reflexivity|].
  cbn [filter fst]. destruct (String.eqb g g2) eqn:E2.
  + apply String.eqb_eq in E2. subst. exfalso. apply Hnotin. now left.
  + apply IH2. intros H. apply Hnotin. now right.
- destruct Hin as [Hin|Hin].
  + cbn [fst] in Hin. subst. now rewrite String.eqb_refl in E.
  + destruct (IH Hnd' Hin) as (m & Hm & Hinm). exists m. split; [exact Hm | now right].
Qed.

Lemma join_keeps_rows (rows : list (chart_row * option string))
      (ms : list (string * string)) :
  NoDup (map fst ms) ->
  (forall ra, In ra rows -> In (chart_GAME_ID (fst ra)) (map fst ms)) ->
  Forall2 (fun ra x => fst x = ra /\ In (chart_GAME_ID (fst ra), snd x) ms)
          rows
          (flat_map (fun ra =>
                       map (fun gm => (ra, snd gm))
                           (filter (fun gm => String.eqb (chart_GAME_ID (fst ra))
                                                         (fst gm))
                                   ms))
                    rows).
Proof.
intros Hnd. induction rows as [|ra rows IH]; intros Hcov; cbn [flat_map].
- constructor.
- destruct (filter_unique_key ms (chart_GAME_ID (fst ra)) Hnd
                              (Hcov ra (or_introl eq_refl)))
    as (m & Hm & Hin).
  rewrite Hm. cbn [map app snd]. constructor.
  + split; [reflexivity | exact Hin].
  + apply IH. intros x Hx. apply Hcov. now right.
Qed.

(** The merge keeps every left row once, grouped by game. *)
Lemma merge_keeps_left_rows (league_df : list (chart_row * option string))
      (ms : list (string * string)) :
  NoDup (map fst ms) ->
  (forall ra, In ra league_df -> In (chart_GAME_ID (fst ra)) (map fst ms)) ->
  Forall2 (fun ra x => fst x = ra /\ In (chart_GAME_ID (fst ra), snd x) ms)
          (rows_by_first_appearance (fun ra => chart_GAME_ID (fst ra)) league_df)
          (merge_on_game_id league_df ms).
Proof.
intros Hnd Hcov. unfold merge_on_game_id. apply join_keeps_rows; [exact Hnd|].
intros ra Hra. apply Hcov. now apply GroupFacts.rows_by_first_appearance_In in Hra.
Qed.

Lemma matchups_table_rows (games_df : list game_row)
      (league_df : list (chart_row * option string)) (ms : list (string * string)) :
  matchups_table games_df league_df = inr ms ->
  map fst ms = group_keys (map (fun ra => chart_GAME_ID (fst ra)) league_df)
  /\ forall g m, In (g, m) ms -> find_matchup games_df g = inr m.
Proof.
unfold matchups_table. intros H. apply applyE_inv in H.
induction H as [|g gm keys ms Hg _ [IH1 IH2]].
- split; [reflexivity | intros g m []].
- destruct (find_matchup games_df g) as [e|m] eqn:Em; [discriminate|].
  cbn [bindE] in Hg. inversion Hg; subst gm. cbn [map fst]. split.
  + now rewrite IH1.
  + intros g' m' [Heq|Hin]; [inversion Heq; subst; exact Em | now apply IH2].
Qed.

(** Every returned row comes from one kept chart row; the rows come
    grouped by game. *)
Lemma league_rows_related (games_df : list game_row)
      (league_shots : list chart_row) (out : list league_shot) :
  with_team_abrv find_teams_by_full_name league_shots <> [] ->
  get_league_shot_loc_data find_teams_by_full_name on_empty_frame
                           games_df league_shots = inr out ->
  Forall2 (fun ra o =>
             league_LOC o = chart_LOC (fst ra)
             /\ league_SHOT_MADE_FLAG o = chart_SHOT_MADE_FLAG (fst ra)
             /\ exists m,
                 find_matchup games_df (chart_GAME_ID (fst ra)) = inr m
                 /\ find_defense (snd ra) m = inr (DEF o))
          (rows_by_first_appearance
             (fun ra => chart_GAME_ID (fst ra))
             (with_team_abrv find_teams_by_full_name league_shots))
          out.
Proof.
intros Hne H. unfold get_league_shot_loc_data in H.
destruct (with_team_abrv find_teams_by_full_name league_shots)
  as [|ra0 rest] eqn:E; [congruence|].
set (league_df := ra0 :: rest) in *.
destruct (matchups_table games_df league_df) as [e|ms] eqn:Ems; [discriminate|].
cbn [bindE] in H. apply applyE_inv in H.
destruct (matchups_table_rows games_df league_df ms Ems) as [Hkeys Hm].
assert (Hmerge := merge_keeps_left_rows league_df ms).
rewrite Hkeys in Hmerge.
specialize (Hmerge (GroupFacts.group_keys_NoDup _)).
assert (Hcov : forall ra, In ra league_df ->
          In (chart_GAME_ID (fst ra))
             (group_keys (map (fun ra => chart_GAME_ID (fst ra)) league_df))).
{ intros ra Hra. apply GroupFacts.group_keys_In.
  now apply (in_map (fun ra => chart_GAME_ID (fst ra))). }
specialize (Hmerge Hcov).
pose proof (Forall2_compose _ _ _ _ _ Hmerge H) as Hall.
eapply Forall2_impl; [|exact Hall].
intros ra o (x & [Hx Hin] & Hrow). subst ra.
unfold defended_row in Hrow.
destruct (find_defense (snd (fst x)) (snd x)) as [e|d] eqn:Ed; [discriminate|].
cbn [bindE] in Hrow. inversion Hrow; subst o.
cbn [league_LOC league_SHOT_MADE_FLAG DEF].
repeat split. exists (snd x). split; [now apply Hm | exact Ed].
Qed.

Lemma Forall2_map_eq {A B C} (f : A -> C) (g : B -> C) (la : list A) (lb : list B) :
  Forall2 (fun a b => g b = f a) la lb -> map g lb = map f la.
Proof. induction 1; cbn [map]; [reflexivity | congruence]. Qed.

(** X9: when the helper returns, it returns one row per 'Shot Chart Detail'
    row of the chart, with the same coordinates and made flag: the join with
    the matchups neither drops nor repeats a shot.  The rows come back
    grouped by game, the games in the order in which the chart first shows
    them and the shots of one game in chart order. *)
Theorem league_table_keeps_every_shot (games_df : list game_row)
        (league_shots : list chart_row) (out : list league_shot) :
  with_team_abrv find_teams_by_full_name league_shots <> [] ->
  get_league_shot_loc_data find_teams_by_full_name on_empty_frame
                           games_df league_shots = inr out ->
  let kept :=
    filter (fun r => String.eqb (GRID_TYPE r) "Shot Chart Detail"%string)
           league_shots in
  map (fun o => (league_LOC o, league_SHOT_MADE_FLAG o)) out
  = map (fun r => (chart_LOC r, chart_SHOT_MADE_FLAG r))
        (rows_by_first_appearance chart_GAME_ID kept)
  /\ Permutation (map (fun o => (league_LOC o, league_SHOT_MADE_FLAG o)) out)
                 (map (fun r => (chart_LOC r, chart_SHOT_MADE_FLAG r)) kept).
Proof.
intros Hne H. cbv zeta.
pose proof (league_rows_related games_df league_shots out Hne H) as Hall.
unfold with_team_abrv in Hall.
rewrite (GroupFacts.rows_by_first_appearance_map
           chart_GAME_ID (fun ra => chart_GAME_ID (fst ra))
           (fun r => (r, find_team_abrv find_teams_by_full_name (TEAM_NAME r))))
  in Hall by reflexivity.
assert (E : map (fun o => (league_LOC o, league_SHOT_MADE_FLAG o)) out
            = map (fun r => (chart_LOC r, chart_SHOT_MADE_FLAG r))
                  (rows_by_first_appearance
                     chart_GAME_ID
                     (filter (fun r => String.eqb (GRID_TYPE r)
                                                  "Shot Chart Detail"%string)
                             league_shots))).
{ rewrite <- (map_map (fun r => (r, find_team_abrv find_teams_by_full_name
                                                     (TEAM_NAME r)))
                      (fun ra => (chart_LOC (fst ra),
                                  chart_SHOT_MADE_FLAG (fst ra)))).
  apply Forall2_map_eq. eapply Forall2_impl; [|exact Hall].
  intros ra o (Hloc & Hflag & _). cbv beta. now rewrite Hloc, Hflag. }
split; [exact E|]. rewrite E. apply Permutation_map.
apply GroupFacts.rows_by_first_appearance_perm.
Qed.


(** X11: the helper raises IndexError when a kept shot belongs to a game
    that [games_df] does not list. *)
Theorem league_table_needs_every_game (games_df : list game_row)
        (league_shots : list chart_row) :
  Exists (fun ra =>
            forall g, In g games_df ->
                      game_GAME_ID g <> chart_GAME_ID (fst ra))
         (with_team_abrv find_teams_by_full_name league_shots) ->
  get_league_shot_loc_data find_teams_by_full_name on_empty_frame
                           games_df league_shots = inl IndexError.
Proof.
intros Hex. unfold get_league_shot_loc_data.
destruct (with_team_abrv find_teams_by_full_name league_shots)
  as [|ra0 rest] eqn:E; [inversion Hex|].
set (league_df := ra0 :: rest) in *.
assert (Hm : matchups_table games_df league_df = inl IndexError).
{ unfold matchups_table. apply applyE_raises.
  - intros g e' Hg. unfold find_matchup in Hg.
    destruct (filter _ games_df); cbn [bindE] in Hg; [congruence | discriminate].
  - apply Exists_exists in Hex. destruct Hex as (ra & Hra & Hmiss).
    apply Exists_exists. exists (chart_GAME_ID (fst ra)). split.
    + apply GroupFacts.group_keys_In.
      now apply (in_map (fun ra => chart_GAME_ID (fst ra))).
    + exists IndexError. unfold find_matchup.
      destruct (filter _ games_df) as [|g gs] eqn:Ef; [reflexivity|].
      exfalso. assert (Hg : In g (g :: gs)) by now left.
      rewrite <- Ef in Hg. apply filter_In in Hg. destruct Hg as [Hg Heq].
      apply String.eqb_eq in Heq. exact (Hmiss g Hg Heq). }
now rewrite Hm.
Qed.

End LeagueTable.

(* ================================================================= *)
(** * More on the zone tables (threes.py, lines 67-94) *)

Module TableFacts.

Lemma count_flag_filter_le (flag : bool) (zone : nat) {A} (f : A -> labelled_shot)
      (p : A -> bool) (rows : list A) :
  count_flag flag zone (map f (filter p rows))
  <= count_flag flag zone (map f rows).
Proof.
unfold count_flag. induction rows as [|r rows IH]; [reflexivity|].
cbn [filter]. destruct (p r); cbn [map filter];
  destruct ((cluster (f r) =? zone) && Bool.eqb (shot_made (f r)) flag);
  cbn [length]; lia.
Qed.

Lemma key_bound_le (df : list labelled_shot) (K : nat) :
  (forall r, In r df -> cluster r < K) -> key_bound df <= K.
Proof.
induction df as [|r df IH]; intros H; [simpl; lia|].
change (key_bound (r :: df)) with (Nat.max (S (cluster r)) (key_bound df)).
specialize (H r (or_introl eq_refl)) as Hr.
specialize (IH (fun x Hx => H x (or_intror Hx))). lia.
Qed.

Lemma length_made_rows_if_any (df : list labelled_shot) (zones : list nat) :
  length (flat_map (made_row_if_any df) zones)
  = length (filter (fun k => 0 <? count_made k df) zones).
Proof.
induction zones as [|k zones IH]; [reflexivity|].
cbn [flat_map filter]. rewrite length_app, IH. unfold made_row_if_any.
destruct (0 <? count_made k df); reflexivity.
Qed.

Lemma filter_length_all {A} (p : A -> bool) (l : list A) :
  length (filter p l) = length l <-> forall x, In x l -> p x = true.
Proof.
induction l as [|a l IH]; cbn [filter length In]; [tauto|].
pose proof (filter_length_le p l) as Hle. destruct (p a) eqn:E; cbn [length].
- split.
  + intros H x [<-|Hx]; [exact E|]. apply IH; [lia | exact Hx].
  + intros H. f_equal. apply IH. auto.
- split; [lia|]. intros H. specialize (H a (or_introl eq_refl)). congruence.
Qed.

Lemma length_fg_percent (df : list labelled_shot) :
  length (fg_percent_by_cluster df)
  = length (filter (fun k => 0 <? count_made k df) (seq 0 (key_bound df))).
Proof.
unfold fg_percent_by_cluster. rewrite length_map.
rewrite <- (length_map snd), made_rows_rows. apply length_made_rows_if_any.
Qed.

Lemma no_scoring_zone_beyond_bound (df : list labelled_shot) (a n : nat) :
  key_bound df <= a ->
  filter (fun k => 0 <? count_made k df) (seq a n) = [].
Proof.
intros Ha. revert a Ha. induction n as [|n IH]; intros a Ha; [reflexivity|].
cbn [seq filter]. destruct (0 <? count_made a df) eqn:E.
- apply Nat.ltb_lt in E. apply count_flag_bound in E. lia.
- apply IH. lia.
Qed.

Lemma scoring_zones_below_bound (df : list labelled_shot) (K : nat) :
  key_bound df <= K ->
  filter (fun k => 0 <? count_made k df) (seq 0 K)
  = filter (fun k => 0 <? count_made k df) (seq 0 (key_bound df)).
Proof.
intros Hle.
assert (HK : K = key_bound df + (K - key_bound df)) by lia.
rewrite HK at 1.
rewrite seq_app, filter_app.
rewrite (no_scoring_zone_beyond_bound df (0 + key_bound df)) by lia.
apply app_nil_r.
Qed.

(** X12: the opponent's table is built from a part of the league's rows:
    labelling the zones and then selecting the opponent's rows gives the rows
    that selecting first and labelling afterwards gives, and in every zone
    the opponent's makes and misses are among the league's. *)
Theorem opponent_rows_are_league_rows (model : GaussianMixture)
        (opponent : string) (league_df : list league_shot) :
  let league := league_with_cluster model league_df in
  let opponent_rows := flag_by_cluster (opponent_df opponent league) in
  opponent_rows
  = flag_by_cluster
      (league_with_cluster model (filter (defended_by opponent) league_df))
  /\ forall zone,
      count_made zone opponent_rows <= count_made zone (flag_by_cluster league)
      /\ count_missed zone opponent_rows
         <= count_missed zone (flag_by_cluster league).
Proof.
cbv zeta. split.
- unfold opponent_df, league_with_cluster, flag_by_cluster.
  induction league_df as [|r rows IH]; [reflexivity|].
  cbn [map filter fst]. destruct (defended_by opponent r); cbn [map];
    now rewrite IH.
- intros zone. unfold opponent_df, flag_by_cluster, count_made, count_missed.
  split; apply count_flag_filter_le.
Qed.

(** X13: a rate table has one entry for each zone in which a shot was made:
    at most as many entries as the model has zones, and exactly that many
    only if a shot was made in every zone. *)
Theorem rate_table_has_one_entry_per_scoring_zone
        (df : list labelled_shot) (K : nat) :
  (forall r, In r df -> cluster r < K) ->
  length (fg_percent_by_cluster df)
  = length (filter (fun k => 0 <? count_made k df) (seq 0 K))
  /\ length (fg_percent_by_cluster df) <= K
  /\ (length (fg_percent_by_cluster df) = K
      <-> forall k, k < K -> 0 < count_made k df).
Proof.
intros Hzones. pose proof (key_bound_le df K Hzones) as Hb.
rewrite length_fg_percent, <- (scoring_zones_below_bound df K Hb).
pose proof (filter_length_le (fun k => 0 <? count_made k df) (seq 0 K)) as Hle.
rewrite length_seq in Hle. split; [reflexivity|]. split; [exact Hle|].
pose proof (filter_length_all (fun k => 0 <? count_made k df) (seq 0 K)) as Hall.
rewrite length_seq in Hall. rewrite Hall. split.
- intros H k Hk. apply Nat.ltb_lt, H, in_seq. lia.
- intros H k Hk. apply in_seq in Hk. apply Nat.ltb_lt, H. lia.
Qed.

End TableFacts.

(* ================================================================= *)
(** * Label alignment of the rate tables (threes.py, lines 80-94) *)

Module SeriesFacts.

Lemma seq_increasing (a n : nat) : StronglySorted lt (seq a n).
Proof.
revert a. induction n as [|n IH]; intros a; cbn [seq]; constructor; [apply IH|].
apply Forall_forall. intros x Hx. apply in_seq in Hx. lia.
Qed.

Lemma filter_increasing (p : nat -> bool) (l : list nat) :
  StronglySorted lt l -> StronglySorted lt (filter p l).
Proof.
induction 1 as [|a l Hs IH Hall]; cbn [filter]; [constructor|].
destruct (p a); [|exact IH]. constructor; [exact IH|].
rewrite Forall_forall in *. intros x Hx. apply filter_In in Hx. now apply Hall.
Qed.

(** Two increasing lists with the same members are the same list. *)
Lemma increasing_ext (l1 l2 : list nat) :
  StronglySorted lt l1 -> StronglySorted lt l2 ->
  (forall x, In x l1 <-> In x l2) -> l1 = l2.
Proof.
intros H1. revert l2. induction H1 as [|a l1 Hs1 IH Ha]; intros l2 H2 Hiff.
- destruct l2 as [|b l2]; [reflexivity|].
  exfalso. apply (proj2 (Hiff b)). now left.
- destruct H2 as [|b l2 Hs2 Hb].
  + exfalso. apply (proj1 (Hiff a)). now left.
  + rewrite Forall_forall in Ha, Hb.
    assert (Hab : a = b).
    { destruct (proj1 (Hiff a) (or_introl eq_refl)) as [E|Hin]; [now symmetry|].
      destruct (proj2 (Hiff b) (or_introl eq_refl)) as [E|Hin']; [exact E|].
      specialize (Ha _ Hin'). specialize (Hb _ Hin). lia. }
    subst b. f_equal. apply IH; [exact Hs2|].
    intros x. split; intros Hx.
    * destruct (proj1 (Hiff x) (or_intror Hx)) as [E|Hin]; [|exact Hin].
      subst x. specialize (Ha _ Hx). lia.
    * destruct (proj2 (Hiff x) (or_intror Hx)) as [E|Hin]; [|exact Hin].
      subst x. specialize (Hb _ Hx). lia.
Qed.

(** Labels given by position and kept by a selection are increasing. *)
Lemma labels_of_selected_rows {B} (p : nat * B -> bool) (rows : list B) (a n : nat) :
  StronglySorted lt (map fst (filter p (combine (seq a n) rows)))
  /\ Forall (fun l => a <= l) (map fst (filter p (combine (seq a n) rows))).
Proof.
revert a rows. induction n as [|n IH]; intros a rows; cbn [seq combine filter map].
- split; constructor.
- destruct rows as [|b rows]; cbn [combine filter map]; [split; constructor|].
  destruct (IH (S a) rows) as [Hs Hall].
  assert (Hall' : Forall (fun l => a < l)
                         (map fst (filter p (combine (seq (S a) n) rows))))
    by (eapply Forall_impl; [|exact Hall]; intros; cbv beta in *; lia).
  assert (Hall'' : Forall (fun l => a <= l)
                          (map fst (filter p (combine (seq (S a) n) rows))))
    by (eapply Forall_impl; [|exact Hall]; intros; cbv beta in *; lia).
  destruct (p (a, b)); cbn [map fst].
  + split; constructor; auto.
  + split; assumption.
Qed.

Lemma index_increasing (df : list labelled_shot) :
  StronglySorted lt (map fst (fg_percent_by_cluster df)).
Proof.
unfold fg_percent_by_cluster. rewrite map_map. cbn [fst].
exact (proj1 (labels_of_selected_rows _ _ 0 _)).
Qed.

Lemma lookup_In (s : Series) (e : nat * float) :
  StronglySorted lt (map fst s) -> In e s -> lookup (fst e) s = Some (snd e).
Proof.
induction s as [|e0 s IH]; intros Hs Hin; [contradiction|].
cbn [map] in Hs. inversion Hs as [|? ? Hs' Hall]; subst.
unfold lookup. cbn [find]. destruct Hin as [->|Hin].
- now rewrite Nat.eqb_refl.
- rewrite Forall_forall in Hall.
  assert (Hlt : fst e0 < fst e) by (apply Hall; now apply in_map).
  replace (fst e0 =? fst e) with false by (symmetry; apply Nat.eqb_neq; lia).
  now apply IH.
Qed.

Lemma lookup_Some (l : nat) (s : Series) (v : float) :
  lookup l s = Some v -> In (l, v) s.
Proof.
unfold lookup. destruct (find _ s) as [e|] eqn:E; [|discriminate].
intros H. inversion H; subst. apply find_some in E. destruct E as [Hin Heq].
apply Nat.eqb_eq in Heq. destruct e as [l' v']. cbn [fst snd] in *. now subst.
Qed.

Lemma lookup_None (l : nat) (s : Series) :
  lookup l s = None <-> has_label l s = false.
Proof.
unfold lookup, has_label. induction s as [|e s IH]; cbn [find existsb].
- tauto.
- destruct (fst e =? l); cbn [orb option_map]; [split; discriminate | exact IH].
Qed.

Lemma has_label_In (l : nat) (s : Series) :
  has_label l s = true <-> In l (map fst s).
Proof.
unfold has_label. rewrite existsb_exists. split.
- intros (e & Hin & He). apply Nat.eqb_eq in He. subst. now apply in_map.
- intros Hin. apply in_map_iff in Hin. destruct Hin as (e & <- & Hin).
  exists e. split; [exact Hin | apply Nat.eqb_refl].
Qed.

Lemma label_below_bound (s : Series) (l : nat) :
  In l (map fst s) -> l < label_bound s.
Proof.
induction s as [|e s IH]; cbn [map In]; [tauto|].
change (label_bound (e :: s)) with (Nat.max (S (fst e)) (label_bound s)).
intros [<-|H]; [lia|]. apply IH in H. lia.
Qed.

Lemma union_index_labels (a b : Series) (l : nat) :
  In l (union_index a b) <-> In l (map fst a) \/ In l (map fst b).
Proof.
unfold union_index. rewrite filter_In, in_seq, orb_true_iff, !has_label_In.
split; [tauto|]. intros H. split; [|exact H].
destruct H as [H|H]; apply label_below_bound in H; lia.
Qed.

Lemma union_index_increasing (a b : Series) :
  StronglySorted lt (union_index a b).
Proof. apply filter_increasing, seq_increasing. Qed.

Lemma union_index_same (a b : Series) :
  map fst a = map fst b -> StronglySorted lt (map fst a) ->
  union_index a b = map fst a.
Proof.
intros E Hs. apply increasing_ext; [apply union_index_increasing | exact Hs |].
intros x. rewrite union_index_labels, <- E. tauto.
Qed.

Lemma combine_same_label (a b : Series) (ea eb : nat * float) :
  map fst a = map fst b -> In (ea, eb) (combine a b) -> fst ea = fst eb.
Proof.
revert b. induction a as [|x a IH]; intros [|y b] E Hin; cbn [combine In map] in *;
  try contradiction.
inversion E. destruct Hin as [H|H]; [inversion H; subst; assumption|].
eapply IH; eauto.
Qed.

Lemma map_labels_combine {C} (a b : Series) (g : nat -> C)
      (h : (nat * float) * (nat * float) -> C) :
  map fst a = map fst b ->
  (forall ea eb, In (ea, eb) (combine a b) -> g (fst ea) = h (ea, eb)) ->
  map g (map fst a) = map h (combine a b).
Proof.
revert b. induction a as [|x a IH]; intros [|y b] E H; cbn [combine map] in *;
  try discriminate; [reflexivity|].
inversion E. f_equal; [apply H; now left|].
apply IH; [assumption|]. intros ea eb Hin. apply H. now right.
Qed.

Lemma series_div_aligned (a b : Series) :
  map fst a = map fst b -> StronglySorted lt (map fst a) ->
  series_div a b
  = map (fun ab => (fst (fst ab), fdiv (snd (fst ab)) (snd (snd ab))))
        (combine a b).
Proof.
intros E Hs. unfold series_div. rewrite (union_index_same a b E Hs).
apply map_labels_combine; [exact E|]. intros ea eb Hin.
pose proof (combine_same_label a b ea eb E Hin) as Hl.
assert (Hb : lookup (fst ea) b = Some (snd eb)).
{ rewrite Hl. apply lookup_In; [now rewrite <- E|].
  exact (in_combine_r _ _ _ _ Hin). }
rewrite (lookup_In a ea Hs (in_combine_l _ _ _ _ Hin)), Hb. reflexivity.
Qed.

(** Every value of a rate table is a number in (0,1]. *)
Lemma rate_values_positive (df : list labelled_shot) (l : nat) (v : float) :
  In (l, v) (fg_percent_by_cluster df) ->
  exists q, v = Num q /\ (0 < q <= 1)%Q.
Proof.
intros Hin. apply (in_map snd) in Hin. cbn [snd] in Hin.
fold (values (fg_percent_by_cluster df)) in Hin.
rewrite values_fg_percent in Hin. apply in_map_iff in Hin.
destruct Hin as (r & <- & Hr). apply in_flat_map in Hr.
destruct Hr as (c & _ & Hr). unfold made_row_if_any in Hr.
destruct (0 <? count_made c df) eqn:Hm; [|contradiction].
destruct Hr as [<-|[]]. apply Nat.ltb_lt in Hm.
destruct (@fdiv_counts (count_made c df) (count_total c df))
  as (q & Hq & _ & Hr); [assumption | unfold count_total; lia |].
exists q. cbn [made_row fg_percent]. auto.
Qed.

Lemma fdiv_positive (a b : Q) :
  (0 < a)%Q -> (0 < b)%Q ->
  exists q, fdiv (Num a) (Num b) = Num q /\ (0 < q)%Q /\ (q == a / b)%Q.
Proof.
intros Ha Hb. cbn [fdiv].
assert (Hz : Qzerob b = false).
{ apply not_true_iff_false. rewrite Qzerob_true. intros E.
  rewrite E in Hb. now apply Qlt_irrefl in Hb. }
rewrite Hz. eexists. split; [reflexivity|]. rewrite Qred_correct.
split; [|reflexivity]. apply Qlt_shift_div_l; [exact Hb|]. now rewrite Qmult_0_l.
Qed.

(** X14: an entry of the defensive adjustment is NaN exactly when its
    label is missing from the opponent's or from the league's table; every
    other entry is a positive number, the quotient of the two rates with
    that label.  The labels are increasing and are those of either table. *)
Theorem adjustment_entries_are_nan_or_positive
        (opponent_shots league_shots : list labelled_shot) :
  let opponent := fg_percent_by_cluster opponent_shots in
  let league := fg_percent_by_cluster league_shots in
  let adjustment := def_adjustment opponent_shots league_shots in
  StronglySorted lt (map fst adjustment)
  /\ (forall l, In l (map fst adjustment)
                <-> has_label l opponent || has_label l league = true)
  /\ forall l v,
      In (l, v) adjustment ->
      (v = NaN <-> has_label l opponent && has_label l league = false)
      /\ (v <> NaN ->
          exists x y q,
            lookup l opponent = Some (Num x) /\ lookup l league = Some (Num y)
            /\ v = Num q /\ (0 < q)%Q /\ (q == x / y)%Q).
Proof.
cbv zeta. unfold def_adjustment, series_div. rewrite map_map. cbn [fst].
rewrite map_id. split; [apply union_index_increasing|]. split.
- intros l. rewrite union_index_labels, orb_true_iff, !has_label_In. tauto.
- intros l v Hin. apply in_map_iff in Hin. destruct Hin as (l' & H & _).
  inversion H; subst l'. clear H.
  destruct (lookup l (fg_percent_by_cluster opponent_shots)) as [x|] eqn:Eo.
  + destruct (lookup l (fg_percent_by_cluster league_shots)) as [y|] eqn:El.
    * pose proof (lookup_Some _ _ _ Eo) as Ho. pose proof (lookup_Some _ _ _ El) as Hl.
      destruct (rate_values_positive _ _ _ Ho) as (qx & -> & Hx & _).
      destruct (rate_values_positive _ _ _ Hl) as (qy & -> & Hy & _).
      destruct (fdiv_positive qx qy Hx Hy) as (q & Hq & Hpos & Heq).
      subst v. rewrite Hq.
      assert (Ha : has_label l (fg_percent_by_cluster opponent_shots) = true).
      { apply not_false_iff_true. rewrite <- lookup_None. congruence. }
      assert (Hb : has_label l (fg_percent_by_cluster league_shots) = true).
      { apply not_false_iff_true. rewrite <- lookup_None. congruence. }
      rewrite Ha, Hb. split; [split; discriminate|].
      intros _. exists qx, qy, q. auto.
    * apply lookup_None in El. rewrite El, andb_false_r. subst v.
      split; [tauto | congruence].
  + apply lookup_None in Eo. rewrite Eo. subst v. cbn [andb].
    split; [tauto | congruence].
Qed.

(** X15: when the two tables carry the same labels, the adjustment is the
    entry-by-entry quotient, with the labels kept. *)
Theorem adjustment_is_elementwise_on_equal_labels
        (opponent_shots league_shots : list labelled_shot) :
  map fst (fg_percent_by_cluster opponent_shots)
  = map fst (fg_percent_by_cluster league_shots) ->
  def_adjustment opponent_shots league_shots
  = map (fun ol => (fst (fst ol), fdiv (snd (fst ol)) (snd (snd ol))))
        (combine (fg_percent_by_cluster opponent_shots)
                 (fg_percent_by_cluster league_shots)).
Proof.
intros E. unfold def_adjustment.
apply series_div_aligned; [exact E | apply index_increasing].
Qed.

Lemma filter_all {A} (p : A -> bool) (l : list A) :
  (forall x, In x l -> p x = true) -> filter p l = l.
Proof.
induction l as [|a l IH]; intros H; [reflexivity|]. cbn [filter].
rewrite (H a (or_introl eq_refl)). f_equal. apply IH. intros x Hx. apply H. now right.
Qed.

Lemma map_combine_diag {A C} (h : A * A -> C) (l : list A) :
  map h (combine l l) = map (fun e => h (e, e)) l.
Proof. induction l as [|a l IH]; [reflexivity|]. cbn [combine map]. now rewrite IH. Qed.

Lemma fdiv_self (q : Q) : (0 < q)%Q -> fdiv (Num q) (Num q) = Num 1.
Proof.
intros Hq. destruct (fdiv_positive q q Hq Hq) as (r & Hr & _ & _).
cbn [fdiv] in *.
assert (Hz : Qzerob q = false).
{ apply not_true_iff_false. rewrite Qzerob_true. intros E.
  rewrite E in Hq. now apply Qlt_irrefl in Hq. }
rewrite Hz. f_equal. apply Qred_eq; [|reflexivity].
apply Qmult_inv_r. intros E. rewrite E in Hq. now apply Qlt_irrefl in Hq.
Qed.

(** X16: against an opponent that defended every shot of the league table,
    every entry of the adjustment is exactly 1. *)
Theorem adjustment_of_the_whole_league_is_one (model : GaussianMixture)
        (opponent : string) (league_df : list league_shot) :
  (forall r, In r league_df -> defended_by opponent r = true) ->
  let league := league_with_cluster model league_df in
  def_adjustment (flag_by_cluster (opponent_df opponent league))
                 (flag_by_cluster league)
  = map (fun e => (fst e, Num 1))
        (fg_percent_by_cluster (flag_by_cluster league)).
Proof.
intros Hall. cbv zeta. unfold opponent_df. rewrite filter_all.
- unfold def_adjustment.
  rewrite series_div_aligned by (try reflexivity; apply index_increasing).
  rewrite map_combine_diag. apply map_ext_in. intros [l v] Hin. cbn [fst snd].
  destruct (rate_values_positive _ _ _ Hin) as (q & -> & Hq & _).
  now rewrite fdiv_self.
- intros rc Hrc. unfold league_with_cluster in Hrc. apply in_map_iff in Hrc.
  destruct Hrc as (r & <- & Hr). now apply Hall.
Qed.

Lemma group_of_regular_zone (df : list labelled_shot) (k : nat) :
  0 < count_made k df <= count_missed k df ->
  group_value_counts df k
  = [mk_row k false (fdiv (of_nat (count_missed k df)) (of_nat (count_total k df)));
     made_row df k].
Proof.
intros [Hm Hle]. unfold group_value_counts, made_row, count_total.
destruct (count_made k df) as [|m] eqn:Em; [lia|].
destruct (count_missed k df) as [|x] eqn:Ex; [lia|].
cbv beta zeta iota.
replace (S x <? S m) with false by (symmetry; apply Nat.ltb_ge; lia).
reflexivity.
Qed.

Lemma rows_of_regular_zones (df : list labelled_shot) (a b n : nat) :
  (forall k, b <= k < b + n -> 0 < count_made k df <= count_missed k df) ->
  length (flat_map (group_value_counts df) (seq b n)) = 2 * n
  /\ filter (fun lr => vc_flag (snd lr))
            (combine (seq a (2 * n)) (flat_map (group_value_counts df) (seq b n)))
     = map (fun k => (a + 2 * (k - b) + 1, made_row df k)) (seq b n).
Proof.
revert a b. induction n as [|n IH]; intros a b H; [split; reflexivity|].
cbn [seq flat_map]. rewrite (group_of_regular_zone df b) by (apply H; lia).
destruct (IH (S (S a)) (S b)) as [Hlen Hrows]; [intros k Hk; apply H; lia|].
split; [cbn [app length]; rewrite Hlen; lia|].
replace (2 * S n) with (S (S (2 * n))) by lia.
cbn [seq app combine filter snd vc_flag made_row map]. rewrite Hrows.
f_equal; [f_equal; lia|].
apply map_ext_in. intros k Hk. apply in_seq in Hk. f_equal. lia.
Qed.

Lemma key_bound_of_regular (df : list labelled_shot) (K : nat) :
  (forall r, In r df -> cluster r < K) ->
  (forall k, k < K -> 0 < count_made k df) ->
  key_bound df = K.
Proof.
intros Hz Hm. pose proof (TableFacts.key_bound_le df K Hz) as Hle.
destruct K as [|K]; [lia|].
pose proof (count_flag_bound true df K (Hm K (Nat.lt_succ_diag_r K))). lia.
Qed.

Lemma rates_of_regular_zones (df : list labelled_shot) (K : nat) :
  (forall r, In r df -> cluster r < K) ->
  (forall k, k < K -> 0 < count_made k df <= count_missed k df) ->
  fg_percent_by_cluster df
  = map (fun k => (2 * k + 1,
                   fdiv (of_nat (count_made k df)) (of_nat (count_total k df))))
        (seq 0 K).
Proof.
intros Hz Hreg. unfold fg_percent_by_cluster, made_rows, reset_index,
  value_counts_normalize.
rewrite (key_bound_of_regular df K Hz) by (intros k Hk; apply Hreg, Hk).
destruct (rows_of_regular_zones df 0 0 K) as [Hlen Hrows];
  [intros k Hk; apply Hreg; lia|].
rewrite Hlen, Hrows, map_map. apply map_ext. intros k.
cbn [fst snd made_row fg_percent]. f_equal. lia.
Qed.

Lemma combine_map_seq {A B} (f : nat -> A) (g : nat -> B) (l : list nat) :
  combine (map f l) (map g l) = map (fun k => (f k, g k)) l.
Proof. induction l as [|k l IH]; [reflexivity|]. cbn [map combine]. now rewrite IH. Qed.

(** X17: when in each of the model's zones the opponent's rows and the
    league's rows both hold a made shot and at least as many missed shots,
    the adjustment has one entry per zone, in zone order: entry [k], under
    the label [2k+1], is the opponent's rate in zone [k] over the league's
    rate in zone [k]. *)
Theorem adjustment_is_zone_wise_on_regular_tables
        (opponent_shots league_shots : list labelled_shot) (K : nat) :
  (forall r, In r opponent_shots -> cluster r < K) ->
  (forall r, In r league_shots -> cluster r < K) ->
  (forall k, k < K ->
     0 < count_made k opponent_shots <= count_missed k opponent_shots
     /\ 0 < count_made k league_shots <= count_missed k league_shots) ->
  def_adjustment opponent_shots league_shots
  = map (fun k =>
           (2 * k + 1,
            fdiv (fdiv (of_nat (count_made k opponent_shots))
                       (of_nat (count_total k opponent_shots)))
                 (fdiv (of_nat (count_made k league_shots))
                       (of_nat (count_total k league_shots)))))
        (seq 0 K).
Proof.
intros Ho Hl Hreg.
pose proof (rates_of_regular_zones opponent_shots K Ho
              (fun k Hk => proj1 (Hreg k Hk))) as Eo.
pose proof (rates_of_regular_zones league_shots K Hl
              (fun k Hk => proj2 (Hreg k Hk))) as El.
unfold def_adjustment. rewrite series_div_aligned.
- rewrite Eo, El, combine_map_seq, map_map. reflexivity.
- rewrite Eo, El, !map_map. reflexivity.
- apply index_increasing.
Qed.

End SeriesFacts.

(* ================================================================= *)
(** * More on the simulated game (threes.py, lines 101-122) *)

Section GameMore.

Context {RNG : Type}.
Variable np : NumpyRandom RNG.
Variable model : GaussianMixture.

Lemma mul_series_incompatible (v : list float) (s : Series) :
  length v <> length s -> length v <> 1 ->
  ndarray_mul_series v s = inl OperandsNotBroadcastable.
Proof.
intros Hne H1. unfold ndarray_mul_series.
replace (length v =? length s) with false by (symmetry; now apply Nat.eqb_neq).
destruct v as [|x [|y v]]; [reflexivity | | reflexivity].
cbn [length] in H1. congruence.
Qed.

Lemma mul_series_compatible (v : list float) (s : Series) :
  length v = length s \/ length v = 1 ->
  exists adjusted,
    ndarray_mul_series v s = inr adjusted /\ length adjusted = length s.
Proof.
intros H. unfold ndarray_mul_series.
destruct (length v =? length s) eqn:E.
- apply Nat.eqb_eq in E. eexists. split; [reflexivity|].
  rewrite length_map, length_combine. lia.
- apply Nat.eqb_neq in E. destruct H as [H|H]; [contradiction|].
  destruct v as [|x [|y v]]; try discriminate.
  eexists. split; [reflexivity|]. apply length_map.
Qed.

Lemma mul_series_single (r : float) (s : Series) :
  ndarray_mul_series [r] s = inr (map (fun e => (fst e, fmul r (snd e))) s).
Proof.
unfold ndarray_mul_series. destruct (length [r] =? length s) eqn:E; [|reflexivity].
apply Nat.eqb_eq in E. destruct s as [|e [|e' s]]; try discriminate. reflexivity.
Qed.

(** X18: the two shape checks of the probability blend.  Rates and
    adjustment of different lengths, the rates not a single value, raise
    before [predict_proba] is called; an adjustment that does not have one
    entry per component raises after that call; in every other case the
    blend returns one probability per sampled location. *)
Theorem weighted_fg_percent_shape_checks
        (player_rates : list float) (adjustment : Series)
        (locs : list point) (w : World RNG) :
  let result := weighted_fg_percent model player_rates adjustment locs w in
  let after_proba :=
    mkWorld (rng w) (calls w ++ [CallPredictProba (length locs)]) in
  (length player_rates <> length adjustment -> length player_rates <> 1 ->
   result = (inl OperandsNotBroadcastable, w))
  /\ (length player_rates = length adjustment \/ length player_rates = 1 ->
      length adjustment <> n_components model ->
      result = (inl ShapesNotAligned, after_proba))
  /\ (length player_rates = length adjustment \/ length player_rates = 1 ->
      length adjustment = n_components model ->
      exists ps, result = (inr ps, after_proba) /\ length ps = length locs).
Proof.
cbv zeta. split; [|split].
- intros Hne H1. unfold weighted_fg_percent, bind, lift at 1.
  now rewrite (mul_series_incompatible _ _ Hne H1).
- intros Hc HK.
  destruct (mul_series_compatible _ _ Hc) as (adjusted & Hadj & Hlen).
  unfold weighted_fg_percent, bind, lift at 1. rewrite Hadj.
  unfold model_predict_proba, bind, log, ret, lift, np_dot.
  unfold values. rewrite length_map, Hlen.
  replace (length adjustment =? n_components model) with false
    by (symmetry; now apply Nat.eqb_neq).
  reflexivity.
- intros Hc HK.
  destruct (mul_series_compatible _ _ Hc) as (adjusted & Hadj & Hlen).
  rewrite (weighted_fg_percent_eq model player_rates adjustment adjusted locs w
             Hadj) by congruence.
  eexists. split; [reflexivity|]. apply length_map.
Qed.

(** X19: a player with a single rate (shots made in one zone only) has
    that rate applied to the adjustment of every zone. *)
Theorem single_rate_is_applied_to_every_zone
        (r : float) (adjustment : Series) (locs : list point) (w : World RNG) :
  length adjustment = n_components model ->
  weighted_fg_percent model [r] adjustment locs w
  = (inr (map (fun x => fdot (map (fun e => fmul r (snd e)) adjustment)
                             (predict_proba (fitted model) x))
              locs),
     mkWorld (rng w) (calls w ++ [CallPredictProba (length locs)])).
Proof.
intros HK.
rewrite (weighted_fg_percent_eq model [r] adjustment _ locs w
           (mul_series_single r adjustment))
  by (now rewrite length_map).
unfold values. now rewrite map_map.
Qed.

Variable player_rates : list float.
Variable adjustment : Series.
Variables mu sigma : float.

Lemma games_from_accumulator (n : nat) :
  forall acc w,
    simulate_games np model player_rates adjustment mu sigma n acc w
    = match simulate_games np model player_rates adjustment mu sigma n [] w with
      | (inr new, w') => (inr (acc ++ new), w')
      | (inl e, w') => (inl e, w')
      end.
Proof.
induction n as [|n IH]; intros acc w; cbn [simulate_games].
- unfold ret. now rewrite app_nil_r.
- unfold bind.
  destruct (simulate_game np model player_rates adjustment mu sigma w)
    as [[e|made] w1]; [reflexivity|].
  rewrite (IH (acc ++ [made])), (IH ([] ++ [made])).
  destruct (simulate_games np model player_rates adjustment mu sigma n [] w1)
    as [[e|new] w2]; [reflexivity|].
  now rewrite <- app_assoc.
Qed.

Lemma games_in_two_loops (n m : nat) :
  forall acc w,
    simulate_games np model player_rates adjustment mu sigma (n + m) acc w
    = bind (simulate_games np model player_rates adjustment mu sigma n acc)
           (simulate_games np model player_rates adjustment mu sigma m) w.
Proof.
induction n as [|n IH]; intros acc w; cbn [simulate_games Nat.add].
- reflexivity.
- unfold bind.
  destruct (simulate_game np model player_rates adjustment mu sigma w)
    as [[e|made] w1]; [reflexivity|].
  rewrite IH. reflexivity.
Qed.

(** X20: simulating [n + m] games is simulating [n] games and then [m]
    more from the generator state the first run left: the counts are those
    of the first run followed by those of the second, the second run does
    not depend on the counts recorded so far, and a game that raises in
    either run leaves no counts at all. *)
Theorem simulate_in_two_runs (n m : Z) (w : World RNG) :
  (0 <= n)%Z -> (0 <= m)%Z ->
  simulate np model player_rates adjustment mu sigma (n + m) w
  = match simulate np model player_rates adjustment mu sigma n w with
    | (inr first, w1) =>
        match simulate np model player_rates adjustment mu sigma m w1 with
        | (inr later, w2) => (inr (first ++ later), w2)
        | (inl e, w2) => (inl e, w2)
        end
    | (inl e, w1) => (inl e, w1)
    end.
Proof.
intros Hn Hm. unfold simulate. rewrite Z2Nat.inj_add by assumption.
rewrite games_in_two_loops. unfold bind.
destruct (simulate_games np model player_rates adjustment mu sigma
                         (Z.to_nat n) [] w) as [[e|first] w1]; [reflexivity|].
apply games_from_accumulator.
Qed.

Lemma binomial_log (n : Z) (p : float) (w : World RNG) b w' :
  np_random_binomial np n p w = (inr b, w') ->
  calls w' = calls w ++ [CallBinomial n p].
Proof.
destruct (in_unitb p) eqn:Hp.
- rewrite (binomial_in_domain np n p w Hp). intros H. now inversion H.
- rewrite (binomial_out_of_domain np n p w Hp). discriminate.
Qed.

Lemma mapM_binomial_log (n : Z) (ps : list float) :
  forall (w : World RNG) outs w',
    mapM (np_random_binomial np n) ps w = (inr outs, w') ->
    calls w' = calls w ++ map (CallBinomial n) ps.
Proof.
induction ps as [|p ps IH]; intros w outs w' H; cbn [mapM] in H.
- inversion H. now rewrite app_nil_r.
- apply bind_inv in H. destruct H as (b & w1 & Hb & H).
  apply bind_inv in H. destruct H as (bs & w2 & Hbs & H).
  inversion H; subst. rewrite (IH _ _ _ Hbs), (binomial_log _ _ _ _ _ Hb).
  now rewrite <- app_assoc.
Qed.

(** X21: the library calls of a game that returns, in order: the two
    attempt draws; then, unless no attempt was drawn, one [sample] and one
    [predict_proba] for as many points as attempts, and one binomial draw
    more than there are attempts, the first two of them with the
    probability of the first shot. *)
Theorem calls_of_a_game (w : World RNG) (made : Z) (w' : World RNG) :
  NumpyRandomSpec np ->
  MixtureSpec model ->
  simulate_game np model player_rates adjustment mu sigma w = (inr made, w') ->
  exists lam fga ps,
    (0 <= fga)%Z
    /\ (fga <> 0%Z -> length ps = Z.to_nat fga)
    /\ calls w'
       = calls w
         ++ CallNormal mu sigma :: CallPoisson lam
         :: (if (fga =? 0)%Z then []
             else CallSample fga :: CallPredictProba (Z.to_nat fga)
                  :: CallBinomial 1 (hd NaN ps) :: map (CallBinomial 1) ps).
Proof.
intros Hnp Hmodel Hgame. unfold simulate_game in Hgame.
apply bind_inv in Hgame. destruct Hgame as (lam & w1 & Hn & Hgame).
apply bind_inv in Hgame. destruct Hgame as (fga & w2 & Hp & Hgame).
apply normal_returns_inv in Hn. destruct Hn as [_ ->].
apply poisson_returns_inv in Hp. destruct Hp as [Hfga ->]. cbn [rng] in Hfga.
assert (Hpos : (0 <= fga)%Z) by (subst fga; apply (poisson_nonneg Hnp)).
destruct (fga =? 0)%Z eqn:E.
- inversion Hgame; subst w'. exists lam, fga, []. rewrite E. cbn [calls].
  split; [exact Hpos|]. split; [apply Z.eqb_eq in E; congruence|].
  now rewrite <- app_assoc.
- apply bind_inv in Hgame. destruct Hgame as (locs & w3 & Hs & Hgame).
  apply bind_inv in Hgame. destruct Hgame as (ps & w4 & Hw & Hgame).
  apply bind_inv in Hgame. destruct Hgame as (outs & w5 & Hv & Hgame).
  inversion Hgame; subst w5. clear Hgame.
  unfold model_sample, bind, log in Hs. cbn [rng calls] in Hs.
  destruct (fga <? 1)%Z; [discriminate|]. inversion Hs; subst locs w3. clear Hs.
  pose proof (weighted_length _ _ _ _ _ _ _ Hw) as Hlen.
  rewrite (sample_length Hmodel) in Hlen.
  assert (Hw4 : calls w4
                = (calls w ++ [CallNormal mu sigma] ++ [CallPoisson lam]
                   ++ [CallSample fga])
                  ++ [CallPredictProba (Z.to_nat fga)]).
  { unfold weighted_fg_percent in Hw.
    apply bind_inv in Hw. destruct Hw as (adjusted & wa & Ha & Hw).
    unfold lift in Ha. inversion Ha; subst wa.
    apply bind_inv in Hw. destruct Hw as (proba & wb & Hb & Hw).
    unfold model_predict_proba, bind, log, ret in Hb. inversion Hb; subst wb.
    unfold lift in Hw. inversion Hw. cbn [calls].
    rewrite (sample_length Hmodel), <- !app_assoc. reflexivity. }
  exists lam, fga, ps. rewrite E. split; [exact Hpos|]. split; [intros _; exact Hlen|].
  destruct ps as [|p0 ps]; [discriminate|].
  unfold vectorize_binomial in Hv.
  apply bind_inv in Hv. destruct Hv as (probe & w5 & Hprobe & Hv).
  rewrite (mapM_binomial_log _ _ _ _ _ Hv), (binomial_log _ _ _ _ _ Hprobe), Hw4.
  cbn [hd]. rewrite <- !app_assoc. reflexivity.
Qed.

End GameMore.

(* ================================================================= *)
(** * The draws of a game and of a run (C5, C10) *)

Section GameDraws.

Context {RNG : Type}.
Variable np : NumpyRandom RNG.
Variable model : GaussianMixture.
Variable player_rates : list float.
Variable adjustment : Series.
Variables mu sigma : float.

Lemma normal_raises loc scale (w : World RNG) :
  flt scale (Num 0) = true ->
  np_random_normal np loc scale w
  = (inl ScaleNegative, mkWorld (rng w) (calls w ++ [CallNormal loc scale])).
Proof.
intros Hs. unfold np_random_normal, bind, log, raise. now rewrite Hs.
Qed.

(** The blend on the points sampled for [fga] attempts. *)
Lemma weighted_as_game_probabilities (fga : Z) (w : World RNG) :
  weighted_fg_percent model player_rates adjustment
                      (sample (fitted model) (Z.to_nat fga)) w
  = (game_probabilities model player_rates adjustment fga,
     match ndarray_mul_series player_rates adjustment with
     | inl _ => w
     | inr _ =>
         mkWorld (rng w)
                 (calls w ++ [CallPredictProba
                                (length (sample (fitted model) (Z.to_nat fga)))])
     end).
Proof.
unfold weighted_fg_percent, game_probabilities, bind, lift at 1.
destruct (ndarray_mul_series player_rates adjustment) as [e|adjusted];
  [reflexivity|].
unfold model_predict_proba, bind, log, ret, lift. reflexivity.
Qed.

Lemma bernoulli_draws_shape (ps : list float) :
  NumpyRandomSpec np ->
  forall g,
    length (fst (bernoulli_draws np ps g)) = length ps
    /\ Forall (fun o => (0 <= o <= 1)%Z) (fst (bernoulli_draws np ps g)).
Proof.
intros Hnp. induction ps as [|p ps IH]; intros g; cbn [bernoulli_draws fst].
- split; [reflexivity | constructor].
- destruct (IH (snd (binomial np g 1 p))) as [Hl Hr].
  split; [cbn [length]; congruence|]. constructor; [|exact Hr].
  apply (binomial_range Hnp). lia.
Qed.

(** Draws with probabilities in [0,1] are the specification's draws. *)
Lemma mapM_binomial_in_domain (ps : list float) :
  Forall (fun p => in_unitb p = true) ps ->
  forall w : World RNG,
    mapM (np_random_binomial np 1) ps w
    = (inr (fst (bernoulli_draws np ps (rng w))),
       mkWorld (snd (bernoulli_draws np ps (rng w)))
               (calls w ++ map (CallBinomial 1) ps)).
Proof.
induction 1 as [|p ps Hp _ IH]; intros w; cbn [mapM bernoulli_draws map].
- unfold ret. rewrite app_nil_r. now destruct w.
- rewrite (bind_returns _ (binomial_in_domain np 1 p w Hp)).
  rewrite (bind_returns _ (IH _)). unfold ret. cbn [fst snd rng calls].
  now rewrite <- app_assoc.
Qed.

Lemma mapM_binomial_returns_inv (ps : list float) :
  forall (w : World RNG) outs w',
    mapM (np_random_binomial np 1) ps w = (inr outs, w') ->
    Forall (fun p => in_unitb p = true) ps.
Proof.
induction ps as [|p ps IH]; intros w outs w' H; [constructor|].
cbn [mapM] in H. apply bind_inv in H. destruct H as (b & w1 & Hb & H).
apply bind_inv in H. destruct H as (bs & w2 & Hbs & _).
constructor; [|exact (IH _ _ _ Hbs)].
destruct (in_unitb p) eqn:Hp; [reflexivity|].
rewrite (binomial_out_of_domain np 1 p w Hp) in Hb. discriminate.
Qed.

(** The vectorised draw: a probe with the first probability, whose outcome
    is dropped, then one draw per probability. *)
Lemma vectorize_binomial_in_domain (p0 : float) (ps : list float) (w : World RNG) :
  Forall (fun p => in_unitb p = true) (p0 :: ps) ->
  vectorize_binomial np (p0 :: ps) w
  = (inr (fst (bernoulli_draws np (p0 :: ps) (snd (binomial np (rng w) 1 p0)))),
     mkWorld (snd (bernoulli_draws np (p0 :: ps)
                                   (snd (binomial np (rng w) 1 p0))))
             (calls w ++ CallBinomial 1 p0 :: map (CallBinomial 1) (p0 :: ps))).
Proof.
intros Hall. unfold vectorize_binomial.
rewrite (bind_returns _ (binomial_in_domain np 1 p0 w (Forall_inv Hall))).
rewrite (mapM_binomial_in_domain (p0 :: ps) Hall). cbn [rng calls].
now rewrite <- app_assoc.
Qed.

Lemma forallb_in_unit (ps : list float) :
  forallb in_unitb ps = true <-> Forall (fun p => in_unitb p = true) ps.
Proof. rewrite forallb_forall, Forall_forall. tauto. Qed.

Lemma not_all_in_unit (ps : list float) :
  forallb in_unitb ps = false -> Exists (fun p => in_unitb p = false) ps.
Proof.
induction ps as [|p ps IH]; cbn [forallb]; [discriminate|].
destruct (in_unitb p) eqn:Hp; cbn [andb].
- intros H. right. now apply IH.
- intros _. now left.
Qed.

(** A game raises exactly the error of its first offending draw and returns
    when it has none. *)
Lemma game_outcome (w : World RNG) :
  match first_offending_draw np model player_rates adjustment mu sigma w with
  | Some e =>
      fst (simulate_game np model player_rates adjustment mu sigma w) = inl e
  | None =>
      exists made w',
        simulate_game np model player_rates adjustment mu sigma w
        = (inr made, w')
  end.
Proof.
unfold first_offending_draw, simulate_game.
destruct (flt sigma (Num 0)) eqn:Hs.
{ now rewrite (bind_raises _ (normal_raises mu sigma w Hs)). }
rewrite (bind_returns _ (normal_returns np mu sigma w Hs)). cbv zeta.
set (lam := fst (normal np (rng w) mu sigma)).
set (g1 := snd (normal np (rng w) mu sigma)).
destruct (lam_in_domain np lam) eqn:Hl.
2:{ now rewrite (bind_raises _ (poisson_raises np lam _ Hl)). }
rewrite (bind_returns _ (poisson_returns np lam _ Hl)). cbn [rng calls].
set (fga := fst (poisson np g1 lam)).
destruct (fga =? 0)%Z; [now eexists _, _|].
destruct (fga <? 1)%Z eqn:Hone.
{ unfold model_sample at 1. unfold bind at 1 2. unfold log, raise.
  rewrite Hone. reflexivity. }
assert (Hsample : forall w0 : World RNG,
           model_sample model fga w0
           = (inr (sample (fitted model) (Z.to_nat fga)),
              mkWorld (rng w0) (calls w0 ++ [CallSample fga]))).
{ intros w0. unfold model_sample, bind, log, ret. now rewrite Hone. }
rewrite (bind_returns _ (Hsample _)).
pose proof (weighted_as_game_probabilities fga) as Hw.
destruct (game_probabilities model player_rates adjustment fga) as [e|ps].
{ now rewrite (bind_raises _ (Hw _)). }
rewrite (bind_returns _ (Hw _)).
destruct ps as [|p0 ps]; [reflexivity|].
destruct (forallb in_unitb (p0 :: ps)) eqn:Hall.
- apply forallb_in_unit in Hall.
  rewrite (bind_returns _ (vectorize_binomial_in_domain p0 ps _ Hall)).
  now eexists _, _.
- apply not_all_in_unit in Hall.
  pose proof (vectorize_binomial_raises np (p0 :: ps)) as Hraise.
  match goal with
  | |- fst (bind (vectorize_binomial np _) _ ?w0) = _ =>
      specialize (Hraise w0 Hall); unfold bind;
      destruct (vectorize_binomial np (p0 :: ps) w0) as [[e|outs] w5];
      cbn [fst] in *; congruence
  end.
Qed.

Lemma one_more_game (n : nat) (acc : list Z) (w : World RNG) :
  simulate_games np model player_rates adjustment mu sigma (S n) acc w
  = bind (simulate_games np model player_rates adjustment mu sigma n acc)
         (fun counts =>
            bind (simulate_game np model player_rates adjustment mu sigma)
                 (fun made => ret (counts ++ [made])))
         w.
Proof.
rewrite <- Nat.add_1_r.
exact (games_in_two_loops np model player_rates adjustment mu sigma n 1 acc w).
Qed.

(** If every game, started in the world the games before it left, has no
    offending draw, the run returns. *)
Lemma games_without_offending_draw (n : nat) (w : World RNG) :
  (forall k res w_k,
      k < n ->
      simulate_games np model player_rates adjustment mu sigma k [] w
      = (inr res, w_k) ->
      first_offending_draw np model player_rates adjustment mu sigma w_k = None) ->
  exists res w',
    simulate_games np model player_rates adjustment mu sigma n [] w
    = (inr res, w').
Proof.
induction n as [|n IH]; intros Hall; [now eexists _, _|].
destruct IH as (res & w1 & Hres);
  [intros k r wk Hk; apply Hall; lia|].
rewrite one_more_game, (bind_returns _ Hres).
pose proof (game_outcome w1) as Hgame.
rewrite (Hall n res w1 (Nat.lt_succ_diag_r n) Hres) in Hgame.
destruct Hgame as (made & w2 & Hgame).
rewrite (bind_returns _ Hgame). now eexists _, _.
Qed.

(** The first game with an offending draw ends the run with that draw's
    error. *)
Lemma games_with_offending_draw (n k : nat) (w : World RNG) res w_k e :
  k < n ->
  simulate_games np model player_rates adjustment mu sigma k [] w
  = (inr res, w_k) ->
  first_offending_draw np model player_rates adjustment mu sigma w_k = Some e ->
  fst (simulate_games np model player_rates adjustment mu sigma n [] w) = inl e.
Proof.
intros Hk Hres Hbad.
replace n with (k + S (n - S k)) by lia.
rewrite games_in_two_loops, (bind_returns _ Hres). cbn [simulate_games].
pose proof (game_outcome w_k) as Hgame. rewrite Hbad in Hgame.
unfold bind.
destruct (simulate_game np model player_rates adjustment mu sigma w_k)
  as [[e'|made] w2]; cbn [fst] in *; congruence.
Qed.

Lemma game_probabilities_inv (fga : Z) :
  match game_probabilities model player_rates adjustment fga with
  | inl e => e = OperandsNotBroadcastable \/ e = ShapesNotAligned
  | inr ps => length ps = length (sample (fitted model) (Z.to_nat fga))
  end.
Proof.
unfold game_probabilities.
destruct (ndarray_mul_series player_rates adjustment) as [e|adjusted] eqn:E.
- unfold ndarray_mul_series in E.
  destruct (length player_rates =? length adjustment); [discriminate|].
  destruct player_rates as [|x [|y v]]; inversion E; auto.
- unfold np_dot.
  destruct (length (values adjusted) =? n_components model);
    [now rewrite !length_map | now right].
Qed.

(** With the libraries behaving as documented, an offending draw is one of
    five checks. *)
Lemma offending_draw_kinds (w : World RNG) (e : ValueError) :
  NumpyRandomSpec np -> MixtureSpec model ->
  first_offending_draw np model player_rates adjustment mu sigma w = Some e ->
  In e [ScaleNegative; LamOutOfDomain; OperandsNotBroadcastable;
        ShapesNotAligned; ProbOutOfDomain].
Proof.
intros Hnp Hmodel. unfold first_offending_draw.
destruct (flt sigma (Num 0)); [intros H; inversion H; cbn; auto 10|].
cbv zeta. set (lam := normal np (rng w) mu sigma).
destruct (lam_in_domain np (fst lam)); [|intros H; inversion H; cbn; auto 10].
pose proof (poisson_nonneg Hnp (snd lam) (fst lam)) as Hpos.
set (fga := fst (poisson np (snd lam) (fst lam))) in *.
destruct (fga =? 0)%Z eqn:Hz; [discriminate|]. apply Z.eqb_neq in Hz.
replace (fga <? 1)%Z with false by (symmetry; apply Z.ltb_ge; lia).
pose proof (game_probabilities_inv fga) as Hinv.
destruct (game_probabilities model player_rates adjustment fga) as [e'|ps].
- intros H. inversion H; subst e'. cbn [In].
  destruct Hinv as [-> | ->]; auto 10.
- rewrite (sample_length Hmodel) in Hinv.
  destruct ps as [|p0 ps]; [simpl in Hinv; lia|].
  destruct (forallb in_unitb (p0 :: ps)); [discriminate|].
  intros H; inversion H; cbn; auto 10.
Qed.

(** C5, amended: whenever simulating [N >= 0] games returns, the result
    holds exactly [N] counts (none for [N = 0]), each a non-negative
    integer.  The run returns when in every game, started where the games
    before it left the generator, each draw stays inside its distribution's
    domain; and when some game has an offending draw, the first such draw
    raises its ValueError (the scale, rate, shape or probability check) and
    no result is returned. *)
Theorem simulate_returns_one_count_per_game (N : Z) (w : World RNG) :
  NumpyRandomSpec np ->
  MixtureSpec model ->
  (0 <= N)%Z ->
  (forall res w',
      simulate np model player_rates adjustment mu sigma N w = (inr res, w') ->
      Z.of_nat (length res) = N
      /\ Forall (fun made => (0 <= made)%Z) res
      /\ (N = 0%Z -> res = []))
  /\ ((forall k res_k w_k,
          (0 <= k < N)%Z ->
          simulate np model player_rates adjustment mu sigma k w
          = (inr res_k, w_k) ->
          first_offending_draw np model player_rates adjustment mu sigma w_k
          = None) ->
      exists res w',
        simulate np model player_rates adjustment mu sigma N w = (inr res, w'))
  /\ (forall k res_k w_k e,
         (0 <= k < N)%Z ->
         simulate np model player_rates adjustment mu sigma k w
         = (inr res_k, w_k) ->
         first_offending_draw np model player_rates adjustment mu sigma w_k
         = Some e ->
         fst (simulate np model player_rates adjustment mu sigma N w) = inl e
         /\ In e [ScaleNegative; LamOutOfDomain; OperandsNotBroadcastable;
                  ShapesNotAligned; ProbOutOfDomain]).
Proof.
intros Hnp Hmodel HN. split; [|split].
- intros res w' Hres.
  destruct (games_result_shape np model player_rates adjustment mu sigma
                               (Z.to_nat N) Hnp [] w res w' Hres)
    as [Hlen Hnn].
  cbn [length] in Hlen. repeat split.
  + lia.
  + apply Hnn. constructor.
  + intros ->. now apply length_zero_iff_nil.
- intros Hall. unfold simulate. apply games_without_offending_draw.
  intros k res w_k Hk Hres. apply (Hall (Z.of_nat k) res w_k); [lia|].
  unfold simulate. now rewrite Nat2Z.id.
- intros k res_k w_k e Hk Hres Hbad. split.
  + unfold simulate in *.
    apply (games_with_offending_draw (Z.to_nat N) (Z.to_nat k) w res_k w_k e);
      [lia | exact Hres | exact Hbad].
  + exact (offending_draw_kinds w_k e Hnp Hmodel Hbad).
Qed.

Lemma binomial_calls_app (l1 l2 : list Call) :
  binomial_calls (l1 ++ l2) = binomial_calls l1 + binomial_calls l2.
Proof. unfold binomial_calls. now rewrite filter_app, length_app. Qed.

Lemma binomial_calls_draws (n : Z) (ps : list float) :
  binomial_calls (map (CallBinomial n) ps) = length ps.
Proof.
unfold binomial_calls. induction ps as [|p ps IH]; [reflexivity|].
cbn [map filter length]. now rewrite IH.
Qed.

(** C10, amended: a game with a positive attempt count [n] computes one
    effective probability per sampled shot and makes [n + 1] Bernoulli
    draws: a probe with the first shot's probability, whose outcome is
    dropped, and then exactly one draw per shot, in shot order, each from
    the generator state the draw before it left.  The recorded count is the
    sum of the [n] outcomes of the shots, each 0 or 1, and so lies between 0
    and [n]. *)
Theorem made_at_most_attempts w lam w1 fga w2 made w' :
  NumpyRandomSpec np ->
  MixtureSpec model ->
  np_random_normal np mu sigma w = (inr lam, w1) ->
  np_random_poisson np lam w1 = (inr fga, w2) ->
  (0 < fga)%Z ->
  simulate_game np model player_rates adjustment mu sigma w = (inr made, w') ->
  exists ps,
    game_probabilities model player_rates adjustment fga = inr ps
    /\ length ps = Z.to_nat fga
    /\ let probe := binomial np (rng w2) 1 (hd NaN ps) in
       let draws := bernoulli_draws np ps (snd probe) in
       made = sum_Z (fst draws)
       /\ length (fst draws) = Z.to_nat fga
       /\ Forall (fun o => (0 <= o <= 1)%Z) (fst draws)
       /\ w' = mkWorld (snd draws)
                       (calls w2
                        ++ CallSample fga :: CallPredictProba (Z.to_nat fga)
                        :: CallBinomial 1 (hd NaN ps)
                        :: map (CallBinomial 1) ps)
       /\ binomial_calls (calls w')
          = binomial_calls (calls w2) + S (Z.to_nat fga)
       /\ (0 <= made <= fga)%Z.
Proof.
intros Hnp Hmodel Hn Hp Hpos Hgame.
rewrite (game_after_attempt_draws np model player_rates adjustment mu sigma
                                  w lam w1 fga w2 Hn Hp) in Hgame.
replace (fga =? 0)%Z with false in Hgame by (symmetry; apply Z.eqb_neq; lia).
apply bind_inv in Hgame. destruct Hgame as (locs & w3 & Hlocs & Hgame).
unfold model_sample, bind, log, ret in Hlocs.
replace (fga <? 1)%Z with false in Hlocs by (symmetry; apply Z.ltb_ge; lia).
inversion Hlocs; subst locs w3. clear Hlocs.
apply bind_inv in Hgame. destruct Hgame as (ps & w4 & Hps & Hgame).
rewrite weighted_as_game_probabilities in Hps.
assert (Hprob : game_probabilities model player_rates adjustment fga = inr ps)
  by congruence.
assert (Hw4 : w4 = mkWorld (rng w2)
                           ((calls w2 ++ [CallSample fga])
                            ++ [CallPredictProba (Z.to_nat fga)])).
{ unfold game_probabilities in Hprob.
  destruct (ndarray_mul_series player_rates adjustment); [discriminate|].
  rewrite (sample_length Hmodel) in Hps. cbn [rng calls] in Hps. congruence. }
assert (Hlen : length ps = Z.to_nat fga).
{ pose proof (game_probabilities_inv fga) as Hinv. rewrite Hprob in Hinv.
  now rewrite (sample_length Hmodel) in Hinv. }
clear Hps. subst w4.
apply bind_inv in Hgame. destruct Hgame as (outs & w5 & Hv & Hgame).
unfold ret in Hgame. inversion Hgame; subst made w5. clear Hgame.
destruct ps as [|p0 ps]; [discriminate|].
assert (Hall : Forall (fun p => in_unitb p = true) (p0 :: ps)).
{ unfold vectorize_binomial in Hv. apply bind_inv in Hv.
  destruct Hv as (probe & w5 & _ & Hv).
  exact (mapM_binomial_returns_inv _ _ _ _ Hv). }
rewrite (vectorize_binomial_in_domain p0 ps _ Hall) in Hv.
cbn [rng calls] in Hv. inversion Hv; subst outs w'. clear Hv.
exists (p0 :: ps). split; [exact Hprob|]. split; [exact Hlen|].
cbv zeta. cbn [hd].
destruct (bernoulli_draws_shape (p0 :: ps) Hnp
                                (snd (binomial np (rng w2) 1 p0)))
  as [Hdl Hdr].
pose proof (sum_Z_bounds _ Hdr) as Hsum. rewrite Hdl, Hlen in Hsum.
split; [reflexivity|]. split; [congruence|]. split; [exact Hdr|].
split; [now rewrite <- !app_assoc|].
split; [|cbn [bernoulli_draws fst snd] in Hsum; lia].
cbn [calls]. rewrite <- !app_assoc, binomial_calls_app. f_equal.
unfold binomial_calls. cbn [app filter length]. f_equal.
fold (binomial_calls (map (CallBinomial 1) ps)).
rewrite binomial_calls_draws. cbn [length] in Hlen. exact Hlen.
Qed.

End GameDraws.

(* ================================================================= *)
(** * More on the attempt estimate (threes.py, lines 47, 97-99, 106) *)

Section EstimateMore.

Context {RNG : Type}.
Variable np : NumpyRandom RNG.

Lemma fmean_all_nan (l : list float) : Forall (eq NaN) l -> fmean l = NaN.
Proof. intros H. destruct H as [|x l <- _]; reflexivity. Qed.

Lemma np_std_all_nan (l : list float) : Forall (eq NaN) l -> np_std np l = NaN.
Proof.
intros H. unfold np_std. cbv zeta. rewrite (fmean_all_nan l H).
rewrite fmean_all_nan; [reflexivity|].
apply Forall_forall. intros y Hy. apply in_map_iff in Hy.
destruct Hy as (x & <- & Hx). rewrite Forall_forall in H.
now rewrite <- (H x Hx).
Qed.

Lemma resample_mean_of_nothing (w : World RNG) :
  resample_mean np [] w
  = (inr NaN, mkWorld (rng w) (calls w ++ [CallChoice 0])).
Proof. reflexivity. Qed.

Lemma means_of_nothing (n : nat) :
  forall w : World RNG,
    exists l w',
      replicateM n (resample_mean np []) w = (inr l, w')
      /\ Forall (eq NaN) l /\ rng w' = rng w.
Proof.
induction n as [|n IH]; intros w; cbn [replicateM].
- exists [], w. repeat split. constructor.
- destruct (IH (mkWorld (rng w) (calls w ++ [CallChoice 0])))
    as (l & w' & Hl & Hnan & Hrng).
  exists (NaN :: l), w'.
  rewrite (bind_returns _ (resample_mean_of_nothing w)), (bind_returns _ Hl).
  repeat split; [now constructor | exact Hrng].
Qed.

Lemma estimate_is_nan (data : list Z) (samples : Z) (w : World RNG) :
  (samples <= 0)%Z \/ data = [] ->
  exists w',
    estimate_attempts np data samples w = (inr (NaN, NaN), w')
    /\ rng w' = rng w.
Proof.
intros [Hs | ->]; unfold estimate_attempts, fga_per_game_est.
- replace (Z.to_nat samples) with 0 by lia. exists w. split; reflexivity.
- destruct (means_of_nothing (Z.to_nat samples) w) as (l & w' & Hl & Hnan & Hrng).
  exists w'. rewrite (bind_returns _ Hl). unfold ret.
  now rewrite (fmean_all_nan l Hnan), (np_std_all_nan l Hnan).
Qed.

(** X22: with no bootstrap sample requested, or with no game to resample,
    the estimated mean and standard deviation both are NaN, nothing is
    raised and the generator is left as it was. *)
Theorem estimate_without_samples_or_games
        (data : list Z) (samples : Z) (w : World RNG) :
  ((samples <= 0)%Z ->
   estimate_attempts np data samples w = (inr (NaN, NaN), w))
  /\ (data = [] ->
      exists w',
        estimate_attempts np data samples w = (inr (NaN, NaN), w')
        /\ rng w' = rng w
        /\ calls w' = calls w ++ repeat (CallChoice 0) (Z.to_nat samples)).
Proof.
split.
- intros Hs. unfold estimate_attempts, fga_per_game_est.
  replace (Z.to_nat samples) with 0 by lia. reflexivity.
- intros ->. unfold estimate_attempts, fga_per_game_est.
  assert (H : forall n (w0 : World RNG),
             exists l w',
               replicateM n (resample_mean np []) w0 = (inr l, w')
               /\ Forall (eq NaN) l /\ rng w' = rng w0
               /\ calls w' = calls w0 ++ repeat (CallChoice 0) n).
  { induction n as [|n IH]; intros w0; cbn [replicateM].
    - exists [], w0. repeat split; [constructor | now rewrite app_nil_r].
    - destruct (IH (mkWorld (rng w0) (calls w0 ++ [CallChoice 0])))
        as (l & w' & Hl & Hnan & Hrng & Hcalls).
      exists (NaN :: l), w'.
      rewrite (bind_returns _ (resample_mean_of_nothing w0)), (bind_returns _ Hl).
      repeat split; [now constructor | exact Hrng |].
      rewrite Hcalls. cbn [calls repeat]. now rewrite <- app_assoc. }
  destruct (H (Z.to_nat samples) w) as (l & w' & Hl & Hnan & Hrng & Hcalls).
  exists w'. rewrite (bind_returns _ Hl). unfold ret.
  now rewrite (fmean_all_nan l Hnan), (np_std_all_nan l Hnan).
Qed.

Lemma game_with_nan_estimate (model : GaussianMixture) (rates : list float)
      (adjustment : Series) (w : World RNG) :
  (forall g, fst (normal np g NaN NaN) = NaN) ->
  fst (simulate_game np model rates adjustment NaN NaN w) = inl LamOutOfDomain.
Proof.
intros Hnan. unfold simulate_game.
rewrite (bind_returns _ (normal_returns np NaN NaN w eq_refl)).
rewrite Hnan. erewrite bind_raises; [reflexivity|].
now apply poisson_raises.
Qed.

(** X23: a run that asks for no bootstrap sample raises at its first
    simulated game: the NaN estimates reach the Poisson draw, which rejects
    a NaN rate. *)
Theorem run_without_bootstrap_samples_raises
        (sk : MixtureLibrary RNG)
        (threes : list player_shot) (league_df : list league_shot)
        (opponent : string) (bootstrap_samples n_simulated_games : Z)
        (w : World RNG) (model : GaussianMixture) (w1 : World RNG) :
  select_and_fit sk (map LOC threes) w = (inr model, w1) ->
  (forall g, fst (normal np g NaN NaN) = NaN) ->
  (bootstrap_samples <= 0)%Z ->
  (1 <= n_simulated_games)%Z ->
  fst (run_threes_model np sk threes league_df opponent bootstrap_samples
                        n_simulated_games w)
  = inl LamOutOfDomain.
Proof.
intros Hfit Hnan Hs HN. unfold run_threes_model. cbv zeta.
rewrite (bind_returns _ Hfit).
destruct (estimate_is_nan (fga_per_game threes) bootstrap_samples w1
                          (or_introl Hs)) as (w2 & Hest & _).
rewrite (bind_returns _ Hest). cbn [fst snd]. unfold simulate.
destruct (Z.to_nat n_simulated_games) as [|n] eqn:En; [lia|].
cbn [simulate_games]. unfold bind.
pose proof (game_with_nan_estimate model
              (values (fg_percent_by_cluster (cluster_df model threes)))
              (def_adjustment
                 (flag_by_cluster
                    (opponent_df opponent (league_with_cluster model league_df)))
                 (flag_by_cluster (league_with_cluster model league_df)))
              w2 Hnan) as Hgame.
destruct (simulate_game _ _ _ _ _ _ w2) as [[e|made] w3]; cbn [fst] in *;
  congruence.
Qed.

Lemma fsum_within (l : list float) (lo hi : Q) :
  Forall (fun x => exists q, x = Num q /\ (lo <= q <= hi)%Q) l ->
  exists s, fsum l = Num s
            /\ (inject_Z (Z.of_nat (length l)) * lo <= s
                <= inject_Z (Z.of_nat (length l)) * hi)%Q.
Proof.
induction 1 as [|x l (q & -> & Hq) _ (s & Hs & Hb)].
- exists 0%Q. split; [reflexivity|]. cbn [length].
  change (inject_Z (Z.of_nat 0)) with 0%Q. lra.
- exists (Qred (q + s)). cbn [fsum fold_right]. fold (fsum l). rewrite Hs.
  split; [reflexivity|]. rewrite Qred_correct. cbn [length].
  rewrite Nat2Z.inj_succ, <- Z.add_1_r, inject_Z_plus.
  change (inject_Z 1) with 1%Q. nra.
Qed.

Lemma fmean_within (l : list float) (lo hi : Q) :
  l <> [] ->
  Forall (fun x => exists q, x = Num q /\ (lo <= q <= hi)%Q) l ->
  exists m, fmean l = Num m /\ (lo <= m <= hi)%Q.
Proof.
intros Hne Hall. destruct (fsum_within l lo hi Hall) as (s & Hs & Hlo & Hhi).
unfold fmean. rewrite Hs. unfold of_nat, of_Z. cbn [fdiv].
assert (Hn : (0 < inject_Z (Z.of_nat (length l)))%Q).
{ destruct l; [congruence|]. unfold Qlt. simpl. lia. }
assert (Hz : Qzerob (inject_Z (Z.of_nat (length l))) = false).
{ apply not_true_iff_false. rewrite Qzerob_true. intros E. rewrite E in Hn.
  now apply Qlt_irrefl in Hn. }
rewrite Hz. eexists. split; [reflexivity|]. rewrite Qred_correct. split.
- apply Qle_shift_div_l; [exact Hn|]. now rewrite Qmult_comm.
- apply Qle_shift_div_r; [exact Hn|]. now rewrite Qmult_comm.
Qed.

(** The bootstrap mean lies between the smallest and the largest count. *)
Lemma estimate_mean_within (data : list Z) (samples lo hi : Z) (w : World RNG) :
  NumpyRandomSpec np ->
  data <> [] -> (0 < samples)%Z ->
  Forall (fun x => (lo <= x <= hi)%Z) data ->
  exists m s w',
    estimate_attempts np data samples w = (inr (Num m, s), w')
    /\ (inject_Z lo <= m <= inject_Z hi)%Q.
Proof.
intros Hnp Hne Hpos Hrange.
destruct (replicateM_total
            (resample_mean np data)
            (fun x => exists q, x = Num q
                                /\ (inject_Z lo <= q <= inject_Z hi)%Q)
            (Z.to_nat samples)) with (w := w)
  as (means & w' & Hest & Hlen & Hmeans).
{ intros w0. destruct (resample_mean_returns np Hnp data w0 Hne)
    as (m & w0' & Hm & r & [Hrl Hincl] & ->).
  exists (fmean (map of_Z r)), w0'. split; [exact Hm|].
  apply fmean_within.
  - destruct r; [|discriminate]. destruct data; [congruence | discriminate].
  - apply Forall_forall. intros y Hy. apply in_map_iff in Hy.
    destruct Hy as (x & <- & Hx). exists (inject_Z x). split; [reflexivity|].
    rewrite Forall_forall in Hrange. specialize (Hrange x (Hincl x Hx)).
    rewrite <- !Zle_Qle. exact Hrange. }
destruct (fmean_within means (inject_Z lo) (inject_Z hi)) as (m & Hm & Hb).
- destruct means; [simpl in Hlen; lia | discriminate].
- exact Hmeans.
- exists m, (np_std np means), w'. split; [|exact Hb].
  unfold estimate_attempts. fold (fga_per_game_est np data samples) in Hest.
  unfold fga_per_game_est in *. rewrite (bind_returns _ Hest). unfold ret.
  now rewrite Hm.
Qed.

(** X24: for a player with at least one shot and a positive number of
    bootstrap samples, the estimated mean of attempts per game is a number
    between 1 and the number of shots, whatever the generator draws. *)
Theorem estimated_attempts_are_at_least_one
        (threes : list player_shot) (samples : Z) (w : World RNG) :
  NumpyRandomSpec np ->
  threes <> [] -> (0 < samples)%Z ->
  exists m s w',
    estimate_attempts np (fga_per_game threes) samples w
    = (inr (Num m, s), w')
    /\ (1 <= m <= inject_Z (Z.of_nat (length threes)))%Q.
Proof.
intros Hnp Hne Hpos.
apply (estimate_mean_within (fga_per_game threes) samples 1
                            (Z.of_nat (length threes)) w Hnp).
- destruct threes as [|r threes']; [congruence|].
  assert (Hin : In (GAME_ID r) (group_keys (map GAME_ID (r :: threes'))))
    by (apply GroupFacts.group_keys_In; now left).
  unfold fga_per_game. destruct (group_keys _); [contradiction | discriminate].
- exact Hpos.
- unfold fga_per_game. apply Forall_forall. intros n Hn.
  apply in_map_iff in Hn. destruct Hn as (g & <- & Hg).
  apply GroupFacts.group_keys_In, in_map_iff in Hg.
  destruct Hg as (r & Hgr & Hr).
  assert (Hf : In r (filter (fun r0 => String.eqb (GAME_ID r0) g) threes)).
  { apply filter_In. split; [exact Hr|]. now apply String.eqb_eq. }
  pose proof (filter_length_le (fun r0 => String.eqb (GAME_ID r0) g) threes).
  destruct (filter _ threes); [contradiction | cbn [length] in *; lia].
Qed.

Lemma np_std_scale (l : list float) :
  (forall q, (0 <= q)%Q -> (0 <= Qsqrt np q)%Q) ->
  flt (np_std np l) (Num 0) = false.
Proof.
intros Hsqrt. unfold np_std. cbv zeta.
destruct (fmean (map _ l)) as [q| | |]; cbn [np_sqrt]; try reflexivity.
destruct (Qnegb q) eqn:Eq; [reflexivity|].
cbn [flt fle]. apply negb_false_iff, Qle_bool_iff.
rewrite Qred_correct. apply Hsqrt.
unfold Qnegb in Eq. apply Z.ltb_ge in Eq. unfold Qle. simpl. lia.
Qed.

(** X25: the latent-rate draw never fails on its scale: a standard
    deviation computed by [np.std] is never negative, so the draw from the
    normal distribution always returns. *)
Theorem latent_rate_draw_accepts_estimated_scale
        (est : list float) (loc : float) (w : World RNG) :
  (forall q, (0 <= q)%Q -> (0 <= Qsqrt np q)%Q) ->
  np_random_normal np loc (np_std np est) w
  = (inr (fst (normal np (rng w) loc (np_std np est))),
     mkWorld (snd (normal np (rng w) loc (np_std np est)))
             (calls w ++ [CallNormal loc (np_std np est)])).
Proof.
intros Hsqrt. apply normal_returns. now apply np_std_scale.
Qed.

End EstimateMore.

(* ================================================================= *)
(** * More on model selection (threes.py, lines 58-65) *)

Section SelectionMore.

Lemma ranks_before_weak_trans (a b c : float) :
  ranks_before a b = true -> ranks_before c b = false ->
  ranks_before a c = true.
Proof.
destruct a as [x| | |], b as [y| | |], c as [z| | |];
  cbn [ranks_before flt fle negb]; try congruence; try reflexivity.
rewrite !negb_true_iff, negb_false_iff, <- !not_true_iff_false, !Qle_bool_iff.
intros H1 H2 H3. apply H1. eapply Qle_trans; eassumption.
Qed.

Lemma ranks_before_asym (a b : float) :
  ranks_before a b = true -> ranks_before b a = false.
Proof.
intros H. destruct (ranks_before b a) eqn:E; [|reflexivity].
pose proof (ranks_before_trans _ _ _ H E) as Hc.
now rewrite ranks_before_irrefl in Hc.
Qed.

Lemma keep_best_first (rest : list (candidate * float)) :
  forall pre best mid,
    (forall r, In r pre -> ranks_before (snd best) (snd r) = true) ->
    (forall r, In r mid -> ranks_before (snd r) (snd best) = false) ->
    exists pre' post',
      pre ++ best :: mid ++ rest
      = pre' ++ fold_left keep_best rest best :: post'
      /\ (forall r, In r pre' ->
            ranks_before (snd (fold_left keep_best rest best)) (snd r) = true)
      /\ (forall r, In r post' ->
            ranks_before (snd r) (snd (fold_left keep_best rest best)) = false).
Proof.
induction rest as [|new rest IH]; intros pre best mid Hpre Hmid; cbn [fold_left].
- exists pre, mid. rewrite app_nil_r. auto.
- unfold keep_best at 2 4 6.
  destruct (ranks_before (snd new) (snd best)) eqn:Hnew.
  + destruct (IH (pre ++ best :: mid) new []) as (pre' & post' & E & H1 & H2).
    * intros r Hr. apply in_app_or in Hr. destruct Hr as [Hr|[<-|Hr]].
      -- eapply ranks_before_trans; [exact Hnew | now apply Hpre].
      -- exact Hnew.
      -- eapply ranks_before_weak_trans; [exact Hnew | now apply Hmid].
    * intros r [].
    * exists pre', post'. split; [|split; assumption].
      rewrite <- E. cbn [app]. rewrite <- !app_assoc. reflexivity.
  + destruct (IH pre best (mid ++ [new])) as (pre' & post' & E & H1 & H2).
    * exact Hpre.
    * intros r Hr. apply in_app_or in Hr. destruct Hr as [Hr|[<-|[]]];
        [now apply Hmid | exact Hnew].
    * exists pre', post'. split; [|split; assumption].
      rewrite <- E. rewrite <- !app_assoc. reflexivity.
Qed.

(** X26: among the candidates that no candidate outranks, the search
    keeps the first in grid order: every candidate before the selected one
    has a strictly worse score, no candidate after it has a better one; and
    when every score is NaN the selected candidate is the first of the
    grid. *)
Theorem best_result_is_first_of_the_best (results : list (candidate * float)) :
  results <> [] ->
  exists pre post,
    results = pre ++ best_result results :: post
    /\ (forall r, In r pre ->
          ranks_before (snd (best_result results)) (snd r) = true)
    /\ (forall r, In r post ->
          ranks_before (snd r) (snd (best_result results)) = false)
    /\ (snd (best_result results) = NaN -> pre = []).
Proof.
destruct results as [|r0 rest]; [congruence|]. intros _. cbn [best_result].
destruct (keep_best_first rest [] r0 []) as (pre & post & E & H1 & H2);
  [intros r [] | intros r [] |].
exists pre, post. cbn [app] in E. split; [exact E|]. split; [exact H1|].
split; [exact H2|]. intros Hnan. destruct pre as [|r pre]; [reflexivity|].
specialize (H1 r (or_introl eq_refl)). rewrite Hnan in H1. discriminate.
Qed.

End SelectionMore.

(* ================================================================= *)
(** * Runs of the data helpers, the tables and the estimate *)

Module MoreRuns.

Import NbaApi Scripted Examples MoreExamples.

Lemma decimal_sqrt_nonneg (q : Q) : (0 <= q)%Q -> (0 <= Qsqrt np q)%Q.
Proof.
intros _. cbn [Qsqrt np]. unfold decimal_sqrt, Qle. cbn [Qnum Qden].
rewrite Z.mul_0_l, Z.mul_1_r. apply Z.sqrt_nonneg.
Qed.

Lemma scripted_normal_nan (g : tape) : fst (normal np g NaN NaN) = NaN.
Proof. destruct g; reflexivity. Qed.

Lemma find_defense_is_not_own_team_witness :
  Some "BOS"%string <> Some "NYK"%string
  /\ exists team_a rest,
      Text.split "BOS vs. NYK"%string = team_a :: rest
      /\ ("NYK"%string = team_a \/ "NYK"%string = last rest team_a).
Proof.
apply (find_defense_is_not_own_team (Some "BOS"%string) "BOS vs. NYK"%string).
reflexivity.
Defined.

Lemma find_defense_on_two_team_matchup_witness :
  find_defense (Some "BOS"%string) "BOS vs. NYK"%string
  = inr (Some "NYK"%string)
  /\ (forall team_abrv,
        team_abrv <> Some "BOS"%string ->
        find_defense team_abrv "BOS vs. NYK"%string = inr (Some "BOS"%string)).
Proof.
apply (find_defense_on_two_team_matchup "BOS"%string "vs."%string "NYK"%string).
- reflexivity.
- reflexivity.
- reflexivity.
- discriminate.
Defined.

Lemma find_team_abrv_ignores_padding_witness :
  find_team_abrv teams " Boston Celtics  "%string
  = find_team_abrv teams "Boston Celtics"%string.
Proof.
apply (find_team_abrv_ignores_padding teams " "%string "Boston Celtics"%string
                                      "  "%string).
- reflexivity.
- reflexivity.
Defined.

Lemma league_table_keeps_every_shot_witness :
  let kept :=
    filter (fun r => String.eqb (GRID_TYPE r) "Shot Chart Detail"%string)
           interleaved_chart in
  map (fun o => (league_LOC o, league_SHOT_MADE_FLAG o)) interleaved_rows
  = map (fun r => (chart_LOC r, chart_SHOT_MADE_FLAG r))
        (rows_by_first_appearance chart_GAME_ID kept)
  /\ Permutation
       (map (fun o => (league_LOC o, league_SHOT_MADE_FLAG o)) interleaved_rows)
       (map (fun r => (chart_LOC r, chart_SHOT_MADE_FLAG r)) kept).
Proof.
apply (league_table_keeps_every_shot teams (inl IndexError) two_games_df
                                     interleaved_chart).
- discriminate.
- reflexivity.
Defined.


Lemma league_table_needs_every_game_witness :
  get_league_shot_loc_data teams (inl TypeError) games_df
                           chart_with_unlisted_game
  = inl IndexError.
Proof.
apply league_table_needs_every_game.
apply Exists_exists.
exists (nth 2 (with_team_abrv teams chart_with_unlisted_game)
            (nth 0 (with_team_abrv teams chart_with_unlisted_game)
                 (nth 0 chart_with_unlisted_game
                      {| GRID_TYPE := ""%string; chart_GAME_ID := ""%string;
                         TEAM_NAME := ""%string; chart_LOC := (NaN, NaN);
                         chart_SHOT_MADE_FLAG := false |}, None))).
split.
- right. right. left. reflexivity.
- intros g [<-|[<-|[]]]; discriminate.
Defined.

Lemma rate_table_witness :
  length (fg_percent_by_cluster empty_middle_zone)
  = length (filter (fun k => 0 <? count_made k empty_middle_zone) (seq 0 3))
  /\ length (fg_percent_by_cluster empty_middle_zone) <= 3
  /\ (length (fg_percent_by_cluster empty_middle_zone) = 3
      <-> forall k, k < 3 -> 0 < count_made k empty_middle_zone).
Proof.
apply (TableFacts.rate_table_has_one_entry_per_scoring_zone empty_middle_zone 3).
intros r H.
repeat (destruct H as [<-|H]; [cbn [cluster]; lia|]). destruct H.
Defined.

Lemma elementwise_adjustment_witness :
  def_adjustment regular_opponent league_shots
  = map (fun ol => (fst (fst ol), fdiv (snd (fst ol)) (snd (snd ol))))
        (combine (fg_percent_by_cluster regular_opponent)
                 (fg_percent_by_cluster league_shots)).
Proof.
apply SeriesFacts.adjustment_is_elementwise_on_equal_labels.
vm_compute. reflexivity.
Defined.

Lemma whole_league_witness :
  def_adjustment
    (flag_by_cluster
       (opponent_df "BOS"%string (league_with_cluster (model 3) one_defense)))
    (flag_by_cluster (league_with_cluster (model 3) one_defense))
  = map (fun e => (fst e, Num 1))
        (fg_percent_by_cluster
           (flag_by_cluster (league_with_cluster (model 3) one_defense))).
Proof.
apply (SeriesFacts.adjustment_of_the_whole_league_is_one
         (model 3) "BOS"%string one_defense).
intros r H.
repeat (destruct H as [<-|H]; [reflexivity|]). destruct H.
Defined.

Lemma zone_wise_adjustment_witness :
  def_adjustment regular_opponent league_shots
  = map (fun k =>
           (2 * k + 1,
            fdiv (fdiv (of_nat (count_made k regular_opponent))
                       (of_nat (count_total k regular_opponent)))
                 (fdiv (of_nat (count_made k league_shots))
                       (of_nat (count_total k league_shots)))))
        (seq 0 3).
Proof.
apply (SeriesFacts.adjustment_is_zone_wise_on_regular_tables
         regular_opponent league_shots 3).
- intros r H.
  repeat (destruct H as [<-|H]; [cbn [cluster]; lia|]). destruct H.
- intros r H.
  repeat (destruct H as [<-|H]; [cbn [cluster]; lia|]). destruct H.
- intros k Hk. destruct k as [|[|[|k]]]; [| | |lia]; vm_compute; lia.
Defined.

Lemma single_rate_witness :
  weighted_fg_percent (model 3) [Num (1 # 2)] adjustment
                      [(Num 0, Num 250); (Num 2, Num 230)] (start [])
  = (inr (map (fun x => fdot (map (fun e => fmul (Num (1 # 2)) (snd e))
                                  adjustment)
                             (predict_proba (fitted (model 3)) x))
              [(Num 0, Num 250); (Num 2, Num 230)]),
     mkWorld [] [CallPredictProba 2]).
Proof.
apply (single_rate_is_applied_to_every_zone
         (model 3) (Num (1 # 2)) adjustment
         [(Num 0, Num 250); (Num 2, Num 230)] (start [])).
reflexivity.
Defined.

Lemma simulate_in_two_runs_witness :
  simulate np (model 3) rates adjustment (Num 5) (Num 0) (1 + 1)
           (start [0; 2; 1; 1; 0; 0; 0]%Z)
  = match simulate np (model 3) rates adjustment (Num 5) (Num 0) 1
                   (start [0; 2; 1; 1; 0; 0; 0]%Z) with
    | (inr first, w1) =>
        match simulate np (model 3) rates adjustment (Num 5) (Num 0) 1 w1 with
        | (inr later, w2) => (inr (first ++ later), w2)
        | (inl e, w2) => (inl e, w2)
        end
    | (inl e, w1) => (inl e, w1)
    end.
Proof.
apply simulate_in_two_runs; lia.
Defined.

Lemma calls_of_a_game_witness :
  exists lam fga ps,
    (0 <= fga)%Z
    /\ (fga <> 0%Z -> length ps = Z.to_nat fga)
    /\ [CallNormal (Num 5) (Num 0); CallPoisson (Num 5); CallSample 2;
        CallPredictProba 2; CallBinomial 1 (Num 1); CallBinomial 1 (Num 1);
        CallBinomial 1 (Num (1 # 4))]
       = [] ++ CallNormal (Num 5) (Num 0) :: CallPoisson lam
         :: (if (fga =? 0)%Z then []
             else CallSample fga :: CallPredictProba (Z.to_nat fga)
                  :: CallBinomial 1 (hd NaN ps) :: map (CallBinomial 1) ps).
Proof.
apply (calls_of_a_game np (model 3) rates adjustment (Num 5) (Num 0)
                       (start [0; 2; 1; 1; 0]%Z) 1%Z
                       (mkWorld []
                          [CallNormal (Num 5) (Num 0); CallPoisson (Num 5);
                           CallSample 2; CallPredictProba 2;
                           CallBinomial 1 (Num 1); CallBinomial 1 (Num 1);
                           CallBinomial 1 (Num (1 # 4))])).
- exact ScriptedFacts.np_spec.
- exact ScriptedFacts.model_spec.
- reflexivity.
Defined.

Lemma run_without_bootstrap_samples_witness :
  fst (run_threes_model np sk season_threes league_df "BOS"%string 0 1
                        (start []))
  = inl LamOutOfDomain.
Proof.
apply (run_without_bootstrap_samples_raises np sk season_threes league_df
                                            "BOS"%string 0 1 (start [])
                                            (model 7) (start [])).
- reflexivity.
- exact scripted_normal_nan.
- lia.
- lia.
Defined.

Lemma estimated_attempts_witness :
  exists m s w',
    estimate_attempts np (fga_per_game threes) 4 (start [1; 0; 1]%Z)
    = (inr (Num m, s), w')
    /\ (1 <= m <= inject_Z (Z.of_nat (length threes)))%Q.
Proof.
apply (estimated_attempts_are_at_least_one np threes 4 (start [1; 0; 1]%Z)).
- exact ScriptedFacts.np_spec.
- discriminate.
- lia.
Defined.

Lemma latent_rate_draw_witness :
  np_random_normal np (Num 5) (np_std np [Num 1; Num 3]) (start [2]%Z)
  = (inr (fst (normal np [2]%Z (Num 5) (np_std np [Num 1; Num 3]))),
     mkWorld (snd (normal np [2]%Z (Num 5) (np_std np [Num 1; Num 3])))
             ([] ++ [CallNormal (Num 5) (np_std np [Num 1; Num 3])])).
Proof.
apply (latent_rate_draw_accepts_estimated_scale
         np [Num 1; Num 3] (Num 5) (start [2]%Z)).
exact decimal_sqrt_nonneg.
Defined.

Lemma first_of_the_best_witness :
  exists pre post,
    scores = pre ++ best_result scores :: post
    /\ (forall r, In r pre ->
          ranks_before (snd (best_result scores)) (snd r) = true)
    /\ (forall r, In r post ->
          ranks_before (snd r) (snd (best_result scores)) = false)
    /\ (snd (best_result scores) = NaN -> pre = []).
Proof.
apply best_result_is_first_of_the_best. discriminate.
Defined.

Lemma in_domain_witness :
  exists res w',
    simulate np (model 3) rates adjustment (Num 5) (Num 1) 2
             (start [1; 2; 1; 1; 0; -1; 0]%Z)
    = (inr res, w').
Proof.
apply (proj1 (proj2 (simulate_returns_one_count_per_game
                       np (model 3) rates adjustment (Num 5) (Num 1) 2
                       (start [1; 2; 1; 1; 0; -1; 0]%Z)
                       ScriptedFacts.np_spec ScriptedFacts.model_spec
                       Z.le_0_2))).
intros k res_k w_k Hk H.
assert (Hcases : k = 0%Z \/ k = 1%Z) by lia.
destruct Hcases as [-> | ->]; vm_compute in H; inversion H; reflexivity.
Defined.

Lemma made_at_most_attempts_witness :
  exists ps,
    game_probabilities (model 3) rates adjustment 2 = inr ps
    /\ length ps = Z.to_nat 2
    /\ let probe := binomial np [1; 1; 0]%Z 1 (hd NaN ps) in
       let draws := bernoulli_draws np ps (snd probe) in
       1%Z = sum_Z (fst draws)
       /\ length (fst draws) = Z.to_nat 2
       /\ Forall (fun o => (0 <= o <= 1)%Z) (fst draws)
       /\ mkWorld []
            [CallNormal (Num 5) (Num 0); CallPoisson (Num 5); CallSample 2;
             CallPredictProba 2; CallBinomial 1 (Num 1); CallBinomial 1 (Num 1);
             CallBinomial 1 (Num (1 # 4))]
          = mkWorld (snd draws)
                    ([CallNormal (Num 5) (Num 0); CallPoisson (Num 5)]
                     ++ CallSample 2 :: CallPredictProba (Z.to_nat 2)
                     :: CallBinomial 1 (hd NaN ps)
                     :: map (CallBinomial 1) ps)
       /\ binomial_calls
            [CallNormal (Num 5) (Num 0); CallPoisson (Num 5); CallSample 2;
             CallPredictProba 2; CallBinomial 1 (Num 1); CallBinomial 1 (Num 1);
             CallBinomial 1 (Num (1 # 4))]
          = binomial_calls [CallNormal (Num 5) (Num 0); CallPoisson (Num 5)]
            + S (Z.to_nat 2)
       /\ (0 <= 1 <= 2)%Z.
Proof.
apply (made_at_most_attempts
         np (model 3) rates adjustment (Num 5) (Num 0)
         (start [0; 2; 1; 1; 0]%Z) (Num 5)
         (mkWorld [2; 1; 1; 0]%Z [CallNormal (Num 5) (Num 0)]) 2%Z
         (mkWorld [1; 1; 0]%Z [CallNormal (Num 5) (Num 0); CallPoisson (Num 5)])
         1%Z
         (mkWorld []
            [CallNormal (Num 5) (Num 0); CallPoisson (Num 5); CallSample 2;
             CallPredictProba 2; CallBinomial 1 (Num 1); CallBinomial 1 (Num 1);
             CallBinomial 1 (Num (1 # 4))])).
- exact ScriptedFacts.np_spec.
- exact ScriptedFacts.model_spec.
- reflexivity.
- reflexivity.
- reflexivity.
- reflexivity.
Defined.

End MoreRuns.
